(** * IceFireDB-SQLProxy, package [p2p]: service discovery over libp2p

    A shallow embedding of [pkg/p2p/p2p.go].  Bytes are integers in
    [0, 256); a Go [string] is a Rocq [string] (a sequence of bytes);
    [uint32] arithmetic is written with its wrap-around modulo [2^32].

    The file has four parts:
    - the pure pipeline of [generateCID]: SHA-256 ([crypto/sha256]),
      base58 ([mr-tron/base58]), [go-multihash] and [go-cid];
    - the sequential effectful code ([AdvertiseConnect],
      [AnnounceConnect], [handlePeerDiscovery]) in a state-and-outcome
      monad over an abstract libp2p world;
    - the goroutines of [bootstrapDHT] as an interleaving step relation;
    - the construction of a node ([setupHost], [setupKadDHT],
      [setupPubSub], [NewP2P]), where a call can also panic and
      [libp2p.New] calls back into the package. *)

From Stdlib Require Import ZArith String Ascii List Bool Lia Arith.
From Stdlib Require Import Permutation DecimalString.
Import ListNotations.

Local Open Scope Z_scope.

(* ================================================================= *)
(** ** Bytes and strings *)

Definition byte_ok (b : Z) : Prop := 0 <= b < 256.

Definition bytes_ok (bs : list Z) : Prop := Forall byte_ok bs.

Definition byte_of_ascii (c : ascii) : Z := Z.of_N (N_of_ascii c).

(** [[]byte(namestring)] *)
Fixpoint bytes_of_string (s : string) : list Z :=
  match s with
  | EmptyString => []
  | String c rest => byte_of_ascii c :: bytes_of_string rest
  end.

(* ================================================================= *)
(** ** crypto/sha256 *)

Module SHA256.

Definition mask32 : Z := 0xFFFFFFFF.

Definition u32 (x : Z) : Z := x mod 2 ^ 32.

Definition add32 (x y : Z) : Z := u32 (x + y).

(** [bits.RotateLeft32(x, -n)]: rotation to the right by [n]. *)
Definition rotr (x n : Z) : Z :=
  Z.lor (Z.shiftr x n) (u32 (Z.shiftl x (32 - n))).

(** [^x] on a [uint32]. *)
Definition not32 (x : Z) : Z := Z.lxor x mask32.

Definition _K : list Z :=
  [ 0x428A2F98; 0x71374491; 0xB5C0FBCF; 0xE9B5DBA5;
    0x3956C25B; 0x59F111F1; 0x923F82A4; 0xAB1C5ED5;
    0xD807AA98; 0x12835B01; 0x243185BE; 0x550C7DC3;
    0x72BE5D74; 0x80DEB1FE; 0x9BDC06A7; 0xC19BF174;
    0xE49B69C1; 0xEFBE4786; 0x0FC19DC6; 0x240CA1CC;
    0x2DE92C6F; 0x4A7484AA; 0x5CB0A9DC; 0x76F988DA;
    0x983E5152; 0xA831C66D; 0xB00327C8; 0xBF597FC7;
    0xC6E00BF3; 0xD5A79147; 0x06CA6351; 0x14292967;
    0x27B70A85; 0x2E1B2138; 0x4D2C6DFC; 0x53380D13;
    0x650A7354; 0x766A0ABB; 0x81C2C92E; 0x92722C85;
    0xA2BFE8A1; 0xA81A664B; 0xC24B8B70; 0xC76C51A3;
    0xD192E819; 0xD6990624; 0xF40E3585; 0x106AA070;
    0x19A4C116; 0x1E376C08; 0x2748774C; 0x34B0BCB5;
    0x391C0CB3; 0x4ED8AA4A; 0x5B9CCA4F; 0x682E6FF3;
    0x748F82EE; 0x78A5636F; 0x84C87814; 0x8CC70208;
    0x90BEFFFA; 0xA4506CEB; 0xBEF9A3F7; 0xC67178F2 ].

(** The eight chaining words [h[0..7]] of a [digest]. *)
Record digest : Type := mkDigest {
  h0 : Z; h1 : Z; h2 : Z; h3 : Z; h4 : Z; h5 : Z; h6 : Z; h7 : Z
}.

Definition init : digest :=
  mkDigest 0x6A09E667 0xBB67AE85 0x3C6EF372 0xA54FF53A
           0x510E527F 0x9B05688C 0x1F83D9AB 0x5BE0CD19.

(** [uint32(p[j])<<24 | uint32(p[j+1])<<16 | uint32(p[j+2])<<8 | uint32(p[j+3])] *)
Fixpoint words_of_bytes (n : nat) (p : list Z) : list Z :=
  match n, p with
  | S n', b0 :: b1 :: b2 :: b3 :: rest =>
      Z.lor (Z.lor (Z.lor (Z.shiftl b0 24) (Z.shiftl b1 16)) (Z.shiftl b2 8)) b3
      :: words_of_bytes n' rest
  | _, _ => []
  end.

(** The message schedule, most recent word first: [wr] holds
    [w[i-1]; w[i-2]; ...] and the loop body computes [w[i]]. *)
Definition schedule_step (wr : list Z) : list Z :=
  let v1 := nth 1 wr 0 in
  let t1 := Z.lxor (Z.lxor (rotr v1 17) (rotr v1 19)) (Z.shiftr v1 10) in
  let v2 := nth 14 wr 0 in
  let t2 := Z.lxor (Z.lxor (rotr v2 7) (rotr v2 18)) (Z.shiftr v2 3) in
  add32 (add32 (add32 t1 (nth 6 wr 0)) t2) (nth 15 wr 0) :: wr.

Definition schedule (w16 : list Z) : list Z :=
  rev (Nat.iter 48 schedule_step (rev w16)).

Definition round (s : digest) (kw : Z * Z) : digest :=
  let '(k, w) := kw in
  let '(mkDigest a b c d e f g h) := s in
  let t1 :=
    add32 (add32 (add32 (add32 h
      (Z.lxor (Z.lxor (rotr e 6) (rotr e 11)) (rotr e 25)))
      (Z.lxor (Z.land e f) (Z.land (not32 e) g))) k) w in
  let t2 :=
    add32 (Z.lxor (Z.lxor (rotr a 2) (rotr a 13)) (rotr a 22))
          (Z.lxor (Z.lxor (Z.land a b) (Z.land a c)) (Z.land b c)) in
  mkDigest (add32 t1 t2) a b c (add32 d t1) e f g.

(** One 64-byte chunk of [blockGeneric]. *)
Definition block (dig : digest) (p : list Z) : digest :=
  let w := schedule (words_of_bytes 16 p) in
  let r := fold_left round (combine _K w) dig in
  mkDigest (add32 (h0 dig) (h0 r)) (add32 (h1 dig) (h1 r))
           (add32 (h2 dig) (h2 r)) (add32 (h3 dig) (h3 r))
           (add32 (h4 dig) (h4 r)) (add32 (h5 dig) (h5 r))
           (add32 (h6 dig) (h6 r)) (add32 (h7 dig) (h7 r)).

(** [for len(p) >= chunk { ...; p = p[chunk:] }] *)
Fixpoint blocks (n : nat) (dig : digest) (p : list Z) : digest :=
  match n with
  | O => dig
  | S n' => blocks n' (block dig (firstn 64 p)) (skipn 64 p)
  end.

(** Big-endian bytes of the low [8 * n] bits of [x]. *)
Fixpoint be_bytes (n : nat) (x : Z) : list Z :=
  match n with
  | O => []
  | S n' => (Z.shiftr x (8 * Z.of_nat n')) mod 256 :: be_bytes n' x
  end.

(** [checkSum]: the padding is [0x80], zeros up to 56 modulo 64, and
    the length in bits as a big-endian [uint64]. *)
Definition pad (msg : list Z) : list Z :=
  let len := Z.of_nat (length msg) in
  msg ++ [0x80]
      ++ repeat 0 (Z.to_nat ((55 - len) mod 64))
      ++ be_bytes 8 ((len * 8) mod 2 ^ 64).

Definition digest_bytes (d : digest) : list Z :=
  be_bytes 4 (h0 d) ++ be_bytes 4 (h1 d) ++ be_bytes 4 (h2 d)
    ++ be_bytes 4 (h3 d) ++ be_bytes 4 (h4 d) ++ be_bytes 4 (h5 d)
    ++ be_bytes 4 (h6 d) ++ be_bytes 4 (h7 d).

(** [sha256.Sum256(data)] *)
Definition Sum256 (data : list Z) : list Z :=
  let p := pad data in
  digest_bytes (blocks (Nat.div (length p) 64) init p).

End SHA256.

(* ================================================================= *)
(** ** Go errors *)

Definition error : Type := string.

(** A Go result pair [(v, err)] with [err == nil] exactly on [Ok]. *)
Inductive result (A : Type) : Type :=
| Ok (v : A)
| Err (e : error).

Arguments Ok {A} v.
Arguments Err {A} e.

(* ================================================================= *)
(** ** github.com/mr-tron/base58

    An imported module.  [Encode] and [Decode] are given by the encoding
    they compute (Bitcoin base58): every leading zero byte is written as
    the digit of value zero, and the remaining bytes, read as one
    big-endian number, are written in radix 58 without leading zeros. *)

Module Base58.

Definition BTCAlphabet : string :=
  "123456789ABCDEFGHJKLMNPQRSTUVWXYZabcdefghijkmnopqrstuvwxyz".

(** [alphabet.encode[d]] *)
Definition alphabet_encode (d : Z) : ascii :=
  nth (Z.to_nat d) (list_ascii_of_string BTCAlphabet) "1"%char.

Fixpoint index_of (c : ascii) (l : list ascii) (i : Z) : option Z :=
  match l with
  | [] => None
  | x :: rest => if Ascii.eqb c x then Some i else index_of c rest (i + 1)
  end.

(** [alphabet.decode[r]], with [None] for the entries holding [-1]
    and for characters above 127. *)
Definition alphabet_decode (c : ascii) : option Z :=
  index_of c (list_ascii_of_string BTCAlphabet) 0.

(** Digits of [n] in radix [b], least significant first. *)
Fixpoint to_radix (b : Z) (fuel : nat) (n : Z) : list Z :=
  match fuel with
  | O => []
  | S fuel' =>
      if n =? 0 then [] else n mod b :: to_radix b fuel' (n / b)
  end.

Fixpoint of_radix (b : Z) (ds : list Z) : Z :=
  match ds with
  | [] => 0
  | d :: rest => d + b * of_radix b rest
  end.

(** Big-endian digits without leading zeros; the fuel is the number
    of bits of [n], and each division by [b >= 2] removes one. *)
Definition digits (b n : Z) : list Z :=
  rev (to_radix b (S (Z.to_nat (Z.log2 n))) n).

(** The number written by big-endian digits. *)
Definition number (b : Z) (ds : list Z) : Z := of_radix b (rev ds).

(** [for zcount < size && bin[zcount] == 0 { zcount++ }] *)
Fixpoint zcount (l : list Z) : nat :=
  match l with
  | d :: rest => if d =? 0 then S (zcount rest) else O
  | [] => O
  end.

Definition Encode (bin : list Z) : string :=
  string_of_list_ascii
    (map alphabet_encode
         (repeat 0 (zcount bin) ++ digits 58 (number 256 bin))).

Fixpoint decode_chars (cs : list ascii) : result (list Z) :=
  match cs with
  | [] => Ok []
  | c :: rest =>
      match alphabet_decode c with
      | None => Err "invalid base58 digit"%string
      | Some d =>
          match decode_chars rest with
          | Ok ds => Ok (d :: ds)
          | Err e => Err e
          end
      end
  end.

Definition Decode (str : string) : result (list Z) :=
  match str with
  | EmptyString => Err "zero length string"%string
  | _ =>
      match decode_chars (list_ascii_of_string str) with
      | Err e => Err e
      | Ok ds => Ok (repeat 0 (zcount ds) ++ digits 256 (number 58 ds))
      end
  end.

End Base58.

(* ================================================================= *)
(** ** github.com/multiformats/go-varint and go-multihash *)

Module Varint.

(** [varint.FromUvarint]: the value and the number of bytes read.
    [i] is the index of the head of [buf], [x] and [s] are the
    accumulator and the shift of the loop. *)
Fixpoint FromUvarint_loop (buf : list Z) (i : nat) (x s : Z)
  : result (Z * nat) :=
  match buf with
  | [] => Err "varints malformed, could not reach the end"%string
  | b :: rest =>
      if ((Nat.eqb i 8) && (0x80 <=? b)) || (Nat.leb 9 i) then
        Err "varints larger than uint63 not supported"%string
      else if b <? 0x80 then
        if (b =? 0) && (0 <? s) then Err "varint not minimally encoded"%string
        else Ok (Z.lor x (Z.shiftl b s), S i)
      else
        FromUvarint_loop rest (S i)
          (Z.lor x (Z.shiftl (Z.land b 0x7f) s)) (s + 7)
  end.

Definition FromUvarint (buf : list Z) : result (Z * nat) :=
  FromUvarint_loop buf 0 0 0.

(** [binary.PutUvarint] on a [uint64]: at most ten bytes. *)
Fixpoint PutUvarint_loop (fuel : nat) (x : Z) : list Z :=
  match fuel with
  | O => []
  | S fuel' =>
      if 0x80 <=? x
      then Z.lor (x mod 256) 0x80 :: PutUvarint_loop fuel' (Z.shiftr x 7)
      else [x mod 256]
  end.

Definition PutUvarint (x : Z) : list Z := PutUvarint_loop 10 x.

End Varint.

Module Multihash.

(** [type Multihash []byte] *)
Definition Multihash : Type := list Z.

Definition SHA2_256 : Z := 0x12.

Definition MaxInt32 : Z := 2 ^ 31 - 1.

(** [uvarint]: a varint and the rest of the buffer. *)
Definition uvarint (buf : list Z) : result (Z * list Z) :=
  match Varint.FromUvarint buf with
  | Err e => Err e
  | Ok (n, c) =>
      if Nat.eqb c 0 then Err "uvarint: buffer too small"%string
      else Ok (n, skipn c buf)
  end.

(** [readMultihashFromBuf]: the advertised size, the code and the
    digest. *)
Definition readMultihashFromBuf (buf : list Z)
  : result (nat * Z * list Z) :=
  let initBufLength := length buf in
  if Nat.ltb initBufLength 2 then Err "multihash too short. must be >= 2 bytes"%string
  else
    match uvarint buf with
    | Err e => Err e
    | Ok (code, buf1) =>
        match uvarint buf1 with
        | Err e => Err e
        | Ok (len, buf2) =>
            if MaxInt32 <? len then
              Err "digest too long, supporting only <= 2^31-1"%string
            else if (Z.of_nat (length buf2) <? len) then
              Err "length greater than remaining number of bytes in buffer"%string
            else
              let rlen := (initBufLength - length buf2 + Z.to_nat len)%nat in
              Ok (rlen, code, firstn (Z.to_nat len) buf2)
        end
    end.

Record DecodedMultihash : Type := mkDecoded {
  Code : Z;
  Length : nat;
  Digest : list Z
}.

Definition Decode (buf : list Z) : result DecodedMultihash :=
  match readMultihashFromBuf buf with
  | Err e => Err e
  | Ok (rlen, code, hdig) =>
      if Nat.eqb rlen (length buf)
      then Ok (mkDecoded code (length hdig) hdig)
      else Err "multihash length inconsistent"%string
  end.

Definition Cast (buf : list Z) : result Multihash :=
  match Decode buf with
  | Err e => Err e
  | Ok _ => Ok buf
  end.

Definition FromB58String (s : string) : result Multihash :=
  match Base58.Decode s with
  | Err _ => Err "input isn't valid multihash"%string
  | Ok b => Cast b
  end.

End Multihash.

(* ================================================================= *)
(** ** github.com/ipfs/go-cid *)

Module Cid.

(** [type Cid struct{ str string }]: the binary form of the
    identifier. *)
Record Cid : Type := mkCid { str : list Z }.

Definition DagProtobuf : Z := 0x70.

(** [NewCidV1]: the version byte, the codec as a varint, the
    multihash. *)
Definition NewCidV1 (codecType : Z) (mhash : Multihash.Multihash) : Cid :=
  mkCid (1 :: Varint.PutUvarint codecType ++ mhash).

Definition Version (c : Cid) : Z :=
  match str c with
  | b0 :: b1 :: _ =>
      if Nat.eqb (length (str c)) 34 && (b0 =? 18) && (b1 =? 32) then 0 else 1
  | _ => 1
  end.

(** [Type]: the codec of the identifier. *)
Definition Type_ (c : Cid) : Z :=
  if Version c =? 0 then DagProtobuf
  else
    match Multihash.uvarint (str c) with
    | Ok (_, rest) =>
        match Multihash.uvarint rest with
        | Ok (codec, _) => codec
        | Err _ => 0
        end
    | Err _ => 0
    end.

(** [Hash]: the multihash inside the identifier. *)
Definition Hash (c : Cid) : Multihash.Multihash :=
  if Version c =? 0 then str c
  else
    match Varint.FromUvarint (str c) with
    | Ok (_, n1) =>
        match Varint.FromUvarint (skipn n1 (str c)) with
        | Ok (_, n2) => skipn (n1 + n2) (str c)
        | Err _ => skipn n1 (str c)
        end
    | Err _ => str c
    end.

End Cid.

(** The text form of bytes in log lines. *)
Definition hex_digit (n : Z) : ascii :=
  nth (Z.to_nat n) (list_ascii_of_string "0123456789abcdef") "0"%char.

Fixpoint hex_of_bytes (bs : list Z) : string :=
  match bs with
  | [] => EmptyString
  | b :: rest =>
      String (hex_digit (b / 16)) (String (hex_digit (b mod 16)) (hex_of_bytes rest))
  end.

(* ================================================================= *)
(** ** libp2p: the types the package handles *)

(** [multiaddr.Multiaddr]: a path of protocol components, such as
    [/ip4/104.131.131.82/tcp/4001/p2p/Qm...]. *)
Definition Multiaddr : Type := list (string * string).

Module peer.

(** [type ID string] *)
Definition ID : Type := string.

Record AddrInfo : Type := mkAddrInfo {
  info_ID : ID;
  info_Addrs : list Multiaddr
}.

End peer.

(** [context.Context]: the background context, or a context with a
    cancel function, which is done once cancelled. *)
Inductive Context : Type :=
| Background
| WithCancel (key : nat) (done : bool).

Module host.

(** [host.Host] is an interface; [ID()] is the only method whose
    result the package reads. *)
Record Host : Type := mkHost { ptr : nat; ID : peer.ID }.

End host.

Module dht.
Record IpfsDHT : Type := mkIpfsDHT { ptr : nat }.
End dht.

Module discoveryRouting.
Record RoutingDiscovery : Type := mkRoutingDiscovery { ptr : nat }.
End discoveryRouting.

Module pubsub.
Record PubSub : Type := mkPubSub { ptr : nat }.
End pubsub.

(** [<-chan peer.AddrInfo], as a reference to the channel. *)
Definition Chan : Type := nat.

Record P2P : Type := mkP2P {
  Ctx : Context;
  Host : host.Host;
  KadDHT : dht.IpfsDHT;
  Discovery : discoveryRouting.RoutingDiscovery;
  PubSub : pubsub.PubSub;
  service : string
}.

(* ================================================================= *)
(** ** Observable events *)

Inductive Level : Type :=
| FatalLevel | InfoLevel | DebugLevel | TraceLevel.

(** The values handed to a logging call. *)
Inductive Arg : Type :=
| AStr (s : string)
| AErr (e : error)
| APeer (id : peer.ID)
| ADuration (d : Z)
| AInt (n : Z)
| ACid (c : Cid.Cid).

Definition second : Z := 1000000000.

Inductive Event : Type :=
| Logrus (lvl : Level) (fields : list (string * error)) (args : list Arg)
| LogPrintln (args : list Arg)
| Sleep (d : Z)
| CallAdvertise (d : discoveryRouting.RoutingDiscovery) (c : Context) (ns : string)
| CallFindPeers (d : discoveryRouting.RoutingDiscovery) (c : Context) (ns : string)
| CallProvide (k : dht.IpfsDHT) (c : Context) (key : Cid.Cid) (brdcst : bool)
| CallFindProvidersAsync (k : dht.IpfsDHT) (c : Context) (key : Cid.Cid) (count : Z)
| CallBootstrap (k : dht.IpfsDHT) (c : Context)
| CallConnect (h : host.Host) (c : Context) (pi : peer.AddrInfo) (err : option error)
| Go (h : host.Host) (peerchan : Chan).

(** The libp2p operations the package calls.  Their results depend on
    the network, so they are transitions of an abstract world. *)
Class Libp2p (World : Type) : Type := {
  host_Connect :
    host.Host -> Context -> peer.AddrInfo -> World -> option error * World;
  discovery_Advertise :
    discoveryRouting.RoutingDiscovery -> Context -> string -> World ->
    (Z * option error) * World;
  discovery_FindPeers :
    discoveryRouting.RoutingDiscovery -> Context -> string -> World ->
    result Chan * World;
  dht_Provide :
    dht.IpfsDHT -> Context -> Cid.Cid -> bool -> World -> option error * World;
  dht_FindProvidersAsync :
    dht.IpfsDHT -> Context -> Cid.Cid -> Z -> World -> Chan * World;
  dht_Bootstrap :
    dht.IpfsDHT -> Context -> World -> option error * World;
  (** [peer.AddrInfoFromP2pAddr]: [None] is the nil pointer returned
      together with an error. *)
  peer_AddrInfoFromP2pAddr : Multiaddr -> option peer.AddrInfo;
  dht_DefaultBootstrapPeers : list Multiaddr
}.

(* ================================================================= *)
(** ** A simulated network

    The operations answer from a fixed script; the world counts the
    calls made. *)

Module Sim.

Record Script : Type := mkScript {
  bootstrap : option error;
  advertise : Z * option error;
  findpeers : result Chan;
  provide : option error;
  providers : Chan;
  reachable : peer.ID -> bool;
  bootpeers : list Multiaddr
}.

(** The last component of a p2p address is [/p2p/<id>]. *)
Definition AddrInfoFromP2pAddr (m : Multiaddr) : option peer.AddrInfo :=
  match rev m with
  | (proto, id) :: transport =>
      if String.eqb proto "p2p" && negb (String.eqb id "")
      then Some (peer.mkAddrInfo id
                   (match transport with [] => [] | _ => [rev transport] end))
      else None
  | [] => None
  end.

Definition net (sc : Script) : Libp2p nat := {|
  host_Connect := fun _ _ pi w =>
    (if reachable sc (peer.info_ID pi) then None
     else Some "dial backoff"%string, S w);
  discovery_Advertise := fun _ _ _ w => (advertise sc, S w);
  discovery_FindPeers := fun _ _ _ w => (findpeers sc, S w);
  dht_Provide := fun _ _ _ _ w => (provide sc, S w);
  dht_FindProvidersAsync := fun _ _ _ _ w => (providers sc, S w);
  dht_Bootstrap := fun _ _ w => (bootstrap sc, S w);
  peer_AddrInfoFromP2pAddr := AddrInfoFromP2pAddr;
  dht_DefaultBootstrapPeers := bootpeers sc
|}.

End Sim.

(* ================================================================= *)
(** ** The package, sequential part *)

(** How a call ends: it returns, or the process exits ([os.Exit],
    reached through logrus's [Fatalln]). *)
Inductive outcome (A : Type) : Type :=
| Done (a : A)
| Exit (code : Z).

Arguments Done {A} a.
Arguments Exit {A} code.

Section Package.

Context {World : Type} {net : Libp2p World}.

(** What a run acts on: the network, the events so far, and the
    [P2P] structure the receiver pointer refers to. *)
Record State : Type := mkState {
  world : World;
  trace : list Event;
  self : P2P
}.

Definition M (A : Type) : Type := State -> outcome A * State.

Definition ret {A} (a : A) : M A := fun s => (Done a, s).

Definition bind {A B} (m : M A) (k : A -> M B) : M B :=
  fun s =>
    match m s with
    | (Done a, s') => k a s'
    | (Exit code, s') => (Exit code, s')
    end.

Notation "x <- m ;; k" := (bind m (fun x => k))
  (at level 61, m at next level, right associativity).
Notation "m ;;; k" := (bind m (fun _ => k))
  (at level 61, right associativity).

Definition emit (e : Event) : M unit :=
  fun s => (Done tt, mkState (world s) (trace s ++ [e]) (self s)).

(** A call into libp2p: the world moves, the call is recorded. *)
Definition call {A} (f : World -> A * World) (ev : A -> Event) : M A :=
  fun s =>
    let (a, w) := f (world s) in
    (Done a, mkState w (trace s ++ [ev a]) (self s)).

(** The fields of the receiver [p2p *P2P]. *)
Definition deref : M P2P := fun s => (Done (self s), s).

(** [logrus.WithFields(...).Fatalln(...)]: the entry is written and
    the process exits with status 1. *)
Definition Fatalln {A} (fields : list (string * error)) (msg : string) : M A :=
  fun s =>
    (Exit 1, mkState (world s) (trace s ++ [Logrus FatalLevel fields [AStr msg]]) (self s)).

Definition Connect (h : host.Host) (c : Context) (pi : peer.AddrInfo)
  : M (option error) :=
  call (host_Connect h c pi) (CallConnect h c pi).

(** [generateCID] *)
Definition generateCID (namestring : string) : M Cid.Cid :=
  let hash := SHA256.Sum256 (bytes_of_string namestring) in
  let finalhash := [0x12; 0x20] ++ hash in
  let b58string := Base58.Encode finalhash in
  match Multihash.FromB58String b58string with
  | Err err => Fatalln [("error"%string, err)] "Failed to Generate Service CID!"
  | Ok mulhash => ret (Cid.NewCidV1 12 mulhash)
  end.

(** The body of the loop of [handlePeerDiscovery] for one received
    [peer]. *)
Definition handlePeer (nodehost : host.Host) (p : peer.AddrInfo) : M unit :=
  if String.eqb (peer.info_ID p) (host.ID nodehost) then ret tt
  else
    err <- Connect nodehost Background p ;;
    match err with
    | Some e => emit (Logrus DebugLevel [] [AStr "p2p peer connection failed: "; AErr e])
    | None => ret tt
    end ;;;
    emit (Logrus DebugLevel []
            [AStr "p2p peer connection success: "; APeer (peer.info_ID p)]) ;;;
    emit (LogPrintln [AStr "p2p peer connection success: "; APeer (peer.info_ID p)]).

(** [AdvertiseConnect] *)
Definition AdvertiseConnect : M unit :=
  p2p <- deref ;;
  r <- call (discovery_Advertise (Discovery p2p) (Ctx p2p) (service p2p))
            (fun _ => CallAdvertise (Discovery p2p) (Ctx p2p) (service p2p)) ;;
  let ttl := fst r in
  emit (Logrus DebugLevel [] [AStr "Advertised the p2p Service."]) ;;;
  emit (Sleep (second * 5)) ;;;
  emit (Logrus DebugLevel [] [AStr "Service Time-to-Live is %s"; ADuration ttl]) ;;;
  found <- call (discovery_FindPeers (Discovery p2p) (Ctx p2p) (service p2p))
                (fun _ => CallFindPeers (Discovery p2p) (Ctx p2p) (service p2p)) ;;
  match found with
  | Err err => Fatalln [("error"%string, err)] "P2P Peer Discovery Failed!"
  | Ok peerchan =>
      emit (Logrus TraceLevel [] [AStr "Discovered p2p Service Peers."]) ;;;
      emit (Go (Host p2p) peerchan) ;;;
      emit (Logrus TraceLevel [] [AStr "Started Peer Connection Handler."])
  end.

(** [AnnounceConnect] *)
Definition AnnounceConnect : M unit :=
  p2p <- deref ;;
  cidvalue <- generateCID (service p2p) ;;
  emit (Logrus DebugLevel [] [AStr "cidvalue "; ACid cidvalue]) ;;;
  emit (Logrus TraceLevel [] [AStr "Generated the Service CID."]) ;;;
  err <- call (dht_Provide (KadDHT p2p) (Ctx p2p) cidvalue true)
              (fun _ => CallProvide (KadDHT p2p) (Ctx p2p) cidvalue true) ;;
  match err with
  | Some e => Fatalln [("error"%string, e)] "Failed to Announce Service CID!"
  | None =>
      emit (Logrus DebugLevel [] [AStr "Announced the p2p Service."]) ;;;
      emit (Sleep (second * 5)) ;;;
      peerchan <- call (dht_FindProvidersAsync (KadDHT p2p) (Ctx p2p) cidvalue 0)
                       (fun _ => CallFindProvidersAsync (KadDHT p2p) (Ctx p2p) cidvalue 0) ;;
      emit (Logrus TraceLevel [] [AStr "Discovered p2p Service Peers."]) ;;;
      emit (Go (Host p2p) peerchan) ;;;
      emit (Logrus DebugLevel [] [AStr "Started Peer Connection Handler."])
  end.

(* --------------------------------------------------------------- *)
(** *** [handlePeerDiscovery]: a goroutine ranging over a channel *)

(** The channel as its receiver sees it: the values sent and not
    yet received, and whether the sender has closed it. *)
Record channel : Type := mkChannel {
  pending : list peer.AddrInfo;
  closed : bool
}.

Inductive task_pc : Type :=
| Ranging            (* inside [for peer := range peerchan] *)
| Returned           (* the loop has ended, the goroutine is gone *)
| Killed.            (* the process has exited *)

Record task : Type := mkTask {
  peerchan : channel;
  tpc : task_pc;
  tstate : State
}.

(** What can happen next: the producer sends or closes, or the
    goroutine is scheduled. *)
Inductive chan_event : Type :=
| Send (p : peer.AddrInfo)
| Close
| Receive.

Definition handlePeerDiscovery_step (nodehost : host.Host)
           (t : task) (ev : chan_event) : task :=
  match ev with
  | Send p =>
      if closed (peerchan t) then t
      else mkTask (mkChannel (pending (peerchan t) ++ [p]) false) (tpc t) (tstate t)
  | Close => mkTask (mkChannel (pending (peerchan t)) true) (tpc t) (tstate t)
  | Receive =>
      match tpc t with
      | Ranging =>
          match pending (peerchan t) with
          | p :: rest =>
              match handlePeer nodehost p (tstate t) with
              | (Done _, s') =>
                  mkTask (mkChannel rest (closed (peerchan t))) Ranging s'
              | (Exit _, s') =>
                  mkTask (mkChannel rest (closed (peerchan t))) Killed s'
              end
          | [] =>
              if closed (peerchan t) then mkTask (peerchan t) Returned (tstate t)
              else t                      (* blocked in the receive *)
          end
      | _ => t
      end
  end.

(** [go handlePeerDiscovery(nodehost, peerchan)] on a fresh channel. *)
Definition spawn (s : State) : task := mkTask (mkChannel [] false) Ranging s.

(** [handlePeerDiscovery] against a history of the channel. *)
Definition handlePeerDiscovery (nodehost : host.Host)
           (history : list chan_event) (s : State) : task :=
  fold_left (handlePeerDiscovery_step nodehost) history (spawn s).

(* --------------------------------------------------------------- *)
(** *** [bootstrapDHT]: the main goroutine and one goroutine per
        bootstrap peer *)

(** An [int32] after an addition. *)
Definition int32 (x : Z) : Z := (x + 2 ^ 31) mod 2 ^ 32 - 2 ^ 31.

Inductive goroutine : Type :=
| GSpawned (peerinfo : option peer.AddrInfo)
    (* started; next it evaluates [*peerinfo] and calls [Connect] *)
| GConnected (err : option error)
    (* [Connect] has returned *)
| GDeferred
    (* the body is over; the deferred [wg.Done()] is next *)
| GPanicking
    (* nil pointer dereference; the deferred [wg.Done()] is next *)
| GAborting
    (* the deferred calls have run and nothing recovered the panic *)
| GExited.

Inductive main_pc : Type :=
| PBootstrap                      (* [kaddht.Bootstrap(ctx)] *)
| PRange (rest : list Multiaddr)  (* the loop over the bootstrap peers *)
| PWait                           (* [wg.Wait()] *)
| PLog                            (* the final [Debugf] *)
| PReturned.

Inductive status : Type :=
| Running
| Exited (code : Z)               (* [os.Exit] *)
| Crashed.                        (* unrecovered panic *)

Record process : Type := mkProcess {
  stat : status;
  mpc : main_pc;
  gs : list goroutine;
  wg : Z;
  connectedbootpeers : Z;
  totalbootpeers : Z;
  sys : State
}.

Inductive action : Type :=
| MainStep
| GoStep (i : nat).

Fixpoint update {A} (i : nat) (x : A) (l : list A) : list A :=
  match l, i with
  | [], _ => []
  | _ :: rest, O => x :: rest
  | y :: rest, S i' => y :: update i' x rest
  end.

(** The sequential head of [bootstrapDHT]. *)
Definition bootstrapDHT_head (ctx : Context) (kaddht : dht.IpfsDHT) : M unit :=
  err <- call (dht_Bootstrap kaddht ctx) (fun _ => CallBootstrap kaddht ctx) ;;
  match err with
  | Some e => Fatalln [("error"%string, e)] "Failed to Bootstrap the Kademlia!"
  | None => emit (Logrus TraceLevel [] [AStr "Set the Kademlia DHT into Bootstrap Mode."])
  end.

Definition main_step (ctx : Context) (kaddht : dht.IpfsDHT) (p : process)
  : option process :=
  match mpc p with
  | PBootstrap =>
      match bootstrapDHT_head ctx kaddht (sys p) with
      | (Done _, s1) =>
          Some (mkProcess Running (PRange dht_DefaultBootstrapPeers) (gs p) (wg p)
                  (connectedbootpeers p) (totalbootpeers p) s1)
      | (Exit code, s1) =>
          Some (mkProcess (Exited code) PBootstrap (gs p) (wg p)
                  (connectedbootpeers p) (totalbootpeers p) s1)
      end
  | PRange (peeraddr :: rest) =>
      let peerinfo := peer_AddrInfoFromP2pAddr peeraddr in
      Some (mkProcess Running (PRange rest) (gs p ++ [GSpawned peerinfo])
              (wg p + 1) (connectedbootpeers p) (int32 (totalbootpeers p + 1))
              (sys p))
  | PRange [] =>
      Some (mkProcess Running PWait (gs p) (wg p)
              (connectedbootpeers p) (totalbootpeers p) (sys p))
  | PWait =>
      if wg p =? 0
      then Some (mkProcess Running PLog (gs p) (wg p)
                   (connectedbootpeers p) (totalbootpeers p) (sys p))
      else None
  | PLog =>
      Some (mkProcess Running PReturned (gs p) (wg p)
              (connectedbootpeers p) (totalbootpeers p)
              (snd (emit (Logrus DebugLevel []
                      [AStr "Connected to %d out of %d Bootstrap Peers.";
                       AInt (connectedbootpeers p); AInt (totalbootpeers p)])
                    (sys p))))
  | PReturned => None
  end.

Definition go_step (ctx : Context) (nodehost : host.Host)
           (i : nat) (p : process) : option process :=
  match nth_error (gs p) i with
  | Some (GSpawned (Some peerinfo)) =>
      match Connect nodehost ctx peerinfo (sys p) with
      | (Done err, s1) =>
          Some (mkProcess Running (mpc p) (update i (GConnected err) (gs p)) (wg p)
                  (connectedbootpeers p) (totalbootpeers p) s1)
      | (Exit code, s1) =>
          Some (mkProcess (Exited code) (mpc p) (gs p) (wg p)
                  (connectedbootpeers p) (totalbootpeers p) s1)
      end
  | Some (GSpawned None) =>
      Some (mkProcess Running (mpc p) (update i GPanicking (gs p)) (wg p)
              (connectedbootpeers p) (totalbootpeers p) (sys p))
  | Some (GConnected None) =>
      Some (mkProcess Running (mpc p) (update i GDeferred (gs p)) (wg p)
              (int32 (connectedbootpeers p + 1)) (totalbootpeers p) (sys p))
  | Some (GConnected (Some _)) =>
      Some (mkProcess Running (mpc p) (update i GDeferred (gs p)) (wg p)
              (connectedbootpeers p) (totalbootpeers p) (sys p))
  | Some GDeferred =>
      Some (mkProcess Running (mpc p) (update i GExited (gs p)) (wg p - 1)
              (connectedbootpeers p) (totalbootpeers p) (sys p))
  | Some GPanicking =>
      Some (mkProcess Running (mpc p) (update i GAborting (gs p)) (wg p - 1)
              (connectedbootpeers p) (totalbootpeers p) (sys p))
  | Some GAborting =>
      Some (mkProcess Crashed (mpc p) (gs p) (wg p)
              (connectedbootpeers p) (totalbootpeers p) (sys p))
  | Some GExited => None
  | None => None
  end.

(** One step of the process; [None] when the action is not enabled
    (a blocked or finished goroutine, or a process that has ended). *)
Definition step (ctx : Context) (nodehost : host.Host) (kaddht : dht.IpfsDHT)
           (a : action) (p : process) : option process :=
  match stat p with
  | Running =>
      match a with
      | MainStep => main_step ctx kaddht p
      | GoStep i => go_step ctx nodehost i p
      end
  | _ => None
  end.

(** [bootstrapDHT(ctx, nodehost, kaddht)] under a schedule. *)
Fixpoint run (ctx : Context) (nodehost : host.Host) (kaddht : dht.IpfsDHT)
         (sched : list action) (p : process) : option process :=
  match sched with
  | [] => Some p
  | a :: rest =>
      match step ctx nodehost kaddht a p with
      | Some p' => run ctx nodehost kaddht rest p'
      | None => None
      end
  end.

Definition start (s : State) : process :=
  mkProcess Running PBootstrap [] 0 0 0 s.

Definition bootstrapDHT (ctx : Context) (nodehost : host.Host)
           (kaddht : dht.IpfsDHT) (sched : list action) (s : State)
  : option process :=
  run ctx nodehost kaddht sched (start s).

End Package.

(* ================================================================= *)
(** ** libp2p: what the construction of a node calls *)

Module crypto.

(** The key type [setupHost] asks for. *)
Inductive KeyType : Type := Ed25519.

Record PrivKey : Type := mkPrivKey { priv : nat }.
Record PubKey : Type := mkPubKey { pub : nat }.

End crypto.

Module connmgr.

Record BasicConnMgr : Type := mkBasicConnMgr { ptr : nat }.

Inductive Option : Type :=
| WithGracePeriod (p : Z).

End connmgr.

Definition minute : Z := 60 * second.

Module libp2p.

Inductive SecurityTransport : Type :=
| TLS       (* [libp2ptls.ID, libp2ptls.New] *)
| Noise.    (* [noise.ID, noise.New] *)

(** The options [setupHost] hands to [libp2p.New].  The constructor
    given to [Routing] is a closure of [setupHost]; what [libp2p.New]
    does with it is in [NewRun] below. *)
Inductive Option : Type :=
| Identity (sk : crypto.PrivKey)
| ListenAddrStrings (s : list string)
| Security (t : SecurityTransport)
| Muxer (name : string)
| DefaultTransports
| ConnectionManager (cm : connmgr.BasicConnMgr)
| NATPortMap
| Routing
| EnableNATService
| EnableAutoNATv2
| EnableRelay.

End libp2p.

(** [dht.ModeServer], the mode [setupKadDHT] asks for. *)
Inductive dht_ModeOpt : Type := dht_ModeServer.

Inductive dht_Option : Type :=
| dht_Mode (m : dht_ModeOpt)
| dht_BootstrapPeers (bootstrappers : list peer.AddrInfo).

Inductive pubsub_Option : Type :=
| pubsub_WithDiscovery (d : discoveryRouting.RoutingDiscovery).

(** [var idht *dht.IpfsDHT]: the nil pointer. *)
Definition nil_IpfsDHT : dht.IpfsDHT := dht.mkIpfsDHT 0.

(** A run of [libp2p.New] as the package sees it: it returns a host and
    an error, or it calls the routing constructor on a host and goes on
    from what the constructor returns. *)
Inductive NewRun (World : Type) : Type :=
| NewReturns (h : host.Host) (err : option error) (w : World)
| NewRoutes (h : host.Host) (w : World)
    (resume : dht.IpfsDHT -> option error -> World -> NewRun World).

Arguments NewReturns {World} h err w.
Arguments NewRoutes {World} h w resume.

(** The calls of [setupHost], [setupKadDHT], [setupPubSub] and [NewP2P]
    into libp2p; each result is the Go pair of a value and an error. *)
Class Libp2pNew (World : Type) : Type := {
  crypto_GenerateKeyPair :
    crypto.KeyType -> Z -> World ->
    (crypto.PrivKey * crypto.PubKey * option error) * World;
  connmgr_NewConnManager :
    Z -> Z -> list connmgr.Option -> World ->
    (connmgr.BasicConnMgr * option error) * World;
  libp2p_New : list libp2p.Option -> World -> NewRun World;
  dht_GetDefaultBootstrapPeerAddrInfos : World -> list peer.AddrInfo * World;
  dht_New :
    Context -> host.Host -> list dht_Option -> World ->
    (dht.IpfsDHT * option error) * World;
  discoveryRouting_NewRoutingDiscovery :
    dht.IpfsDHT -> World -> discoveryRouting.RoutingDiscovery * World;
  pubsub_NewGossipSub :
    Context -> host.Host -> list pubsub_Option -> World ->
    (pubsub.PubSub * option error) * World;
  host_Addrs : host.Host -> World -> list Multiaddr
}.

(** [fmt]'s [%d] of an [int]. *)
Definition Sprint_int (n : Z) : string := NilZero.string_of_int (Z.to_int n).

(** The text of a multiaddr, [/ip4/127.0.0.1/tcp/4001]; a component
    without a value, such as [/quic-v1], has the empty string for it. *)
Fixpoint Multiaddr_String (m : Multiaddr) : string :=
  match m with
  | [] => EmptyString
  | (proto, value) :: rest =>
      ("/" ++ proto ++ (if String.eqb value "" then "" else "/" ++ value)
           ++ Multiaddr_String rest)%string
  end.

(** [fmt]'s text of a slice of multiaddrs. *)
Definition Sprint_addrs (l : list Multiaddr) : string :=
  ("[" ++ String.concat " " (map Multiaddr_String l) ++ "]")%string.

(* ================================================================= *)
(** ** The package, construction of a node *)

(** How a call of the construction ends: it returns, the process exits,
    or it panics and the panic goes up to the caller. *)
Inductive ending (A : Type) : Type :=
| Returns (a : A)
| Exits (code : Z)
| Panics (v : error).

Arguments Returns {A} a.
Arguments Exits {A} code.
Arguments Panics {A} v.

Section Construction.

Context {World : Type} {net : Libp2p World} {lib : Libp2pNew World}.

Definition B (A : Type) : Type := @State World -> ending A * @State World.

Definition unit_B {A} (a : A) : B A := fun s => (Returns a, s).

Definition bind_B {A C} (m : B A) (k : A -> B C) : B C :=
  fun s =>
    match m s with
    | (Returns a, s') => k a s'
    | (Exits code, s') => (Exits code, s')
    | (Panics v, s') => (Panics v, s')
    end.

Notation "x <- m ;; k" := (bind_B m (fun x => k))
  (at level 61, m at next level, right associativity).
Notation "m ;;; k" := (bind_B m (fun _ => k))
  (at level 61, right associativity).

(** The code of the sequential part of the package, inside the
    construction. *)
Definition lift {A} (m : @M World A) : B A :=
  fun s =>
    match m s with
    | (Done a, s') => (Returns a, s')
    | (Exit code, s') => (Exits code, s')
    end.

(** A call of the construction into libp2p: the world moves.  The trace
    keeps the log entries of the construction, not its calls. *)
Definition invoke {A} (f : World -> A * World) : B A :=
  fun s => let (a, w) := f (world s) in (Returns a, mkState w (trace s) (self s)).

(** [panic(err)] *)
Definition panic {A} (v : error) : B A := fun s => (Panics v, s).

(** [setupKadDHT] *)
Definition setupKadDHT (ctx : Context) (nodehost : host.Host)
  : B (dht.IpfsDHT * option error) :=
  let dhtmode := dht_Mode dht_ModeServer in
  bootstrappeers <- invoke dht_GetDefaultBootstrapPeerAddrInfos ;;
  let dhtpeers := dht_BootstrapPeers bootstrappeers in
  lift (emit (Logrus TraceLevel [] [AStr "Generated DHT Configuration."])) ;;;
  r <- invoke (dht_New ctx nodehost [dhtmode; dhtpeers]) ;;
  let kaddht := fst r in
  let err := snd r in
  match err with
  | Some e => lift (Fatalln [("error"%string, e)] "Failed to Create the Kademlia DHT!")
  | None => unit_B tt
  end ;;;
  unit_B (kaddht, err).

(** [setupPubSub] *)
Definition setupPubSub (ctx : Context) (nodehost : host.Host)
           (routingdiscovery : discoveryRouting.RoutingDiscovery)
  : B pubsub.PubSub :=
  r <- invoke (pubsub_NewGossipSub ctx nodehost [pubsub_WithDiscovery routingdiscovery]) ;;
  let pubsubhandler := fst r in
  let err := snd r in
  match err with
  | Some e =>
      lift (Fatalln [("error"%string, e); ("type"%string, "GossipSub"%string)]
              "PubSub Handler Creation Failed!")
  | None => unit_B tt
  end ;;;
  unit_B pubsubhandler.

(** [libp2p.New] with the routing constructor of [setupHost],
    [func(h) { idht, err = setupKadDHT(ctx, h); return idht, err }]:
    each call of the constructor assigns [idht]. *)
Fixpoint libp2p_New_run (ctx : Context) (run : NewRun World) (idht : dht.IpfsDHT)
  : B (host.Host * option error * dht.IpfsDHT) :=
  match run with
  | NewReturns h2 err w =>
      fun s => (Returns (h2, err, idht), mkState w (trace s) (self s))
  | NewRoutes h w resume =>
      fun s =>
        match setupKadDHT ctx h (mkState w (trace s) (self s)) with
        | (Returns (kaddht, err), s1) =>
            libp2p_New_run ctx (resume kaddht err (world s1)) kaddht s1
        | (Exits code, s1) => (Exits code, s1)
        | (Panics v, s1) => (Panics v, s1)
        end
  end.

(** [setupHost] *)
Definition setupHost (ctx : Context) (nodeHostIP : string) (nodeHostPort : Z)
  : B (host.Host * dht.IpfsDHT) :=
  r <- invoke (crypto_GenerateKeyPair crypto.Ed25519 (-1)) ;;
  let prvkey := fst (fst r) in
  let err := snd r in
  match err with
  | Some e =>
      lift (Fatalln [("error"%string, e)] "Failed to Generate P2P Identity Configuration!")
  | None => unit_B tt
  end ;;;
  let idht := nil_IpfsDHT in
  r <- invoke (connmgr_NewConnManager 100 400 [connmgr.WithGracePeriod minute]) ;;
  let connmgr := fst r in
  let err := snd r in
  match err with
  | Some e => panic e
  | None => unit_B tt
  end ;;;
  let tcpListenAddress :=
    ("/ip4/" ++ nodeHostIP ++ "/tcp/" ++ Sprint_int nodeHostPort)%string in
  let quicListenAddress :=
    ("/ip4/" ++ nodeHostIP ++ "/udp/" ++ Sprint_int nodeHostPort ++ "/quic-v1")%string in
  lift (emit (LogPrintln [AStr tcpListenAddress; AStr quicListenAddress])) ;;;
  r <- (fun s =>
          libp2p_New_run ctx
            (libp2p_New
               [ libp2p.Identity prvkey;
                 libp2p.ListenAddrStrings [tcpListenAddress; quicListenAddress];
                 libp2p.Security libp2p.TLS;
                 libp2p.Security libp2p.Noise;
                 libp2p.Muxer "/yamux/1.0.0";
                 libp2p.DefaultTransports;
                 libp2p.ConnectionManager connmgr;
                 libp2p.NATPortMap;
                 libp2p.Routing;
                 libp2p.EnableNATService;
                 libp2p.EnableAutoNATv2;
                 libp2p.EnableRelay ]
               (world s))
            idht s) ;;
  let h2 := fst (fst r) in
  let err := snd (fst r) in
  let idht := snd r in
  match err with
  | Some e => panic e
  | None => unit_B tt
  end ;;;
  unit_B (h2, idht).

(* --------------------------------------------------------------- *)
(** *** [NewP2P]: the main goroutine around [bootstrapDHT] *)

(** [NewP2P] up to its call of [bootstrapDHT]. *)
Definition NewP2P_head (nodeHostIP : string) (nodeHostPort : Z)
  : B (host.Host * dht.IpfsDHT) :=
  let ctx := Background in
  r <- setupHost ctx nodeHostIP nodeHostPort ;;
  let nodehost := fst r in
  let kaddht := snd r in
  addrs <- (fun s => (Returns (host_Addrs nodehost (world s)), s)) ;;
  lift (emit (Logrus InfoLevel []
                [AStr "Setup the p2p host,listen on"; AStr (Sprint_addrs addrs)])) ;;;
  lift (emit (LogPrintln [AStr "MY P2P Node ID"; APeer (host.ID nodehost)])) ;;;
  unit_B (nodehost, kaddht).

(** Where the main goroutine is in [NewP2P]. *)
Inductive new_pc : Type :=
| NSetup
    (* [setupHost] and the two lines after it *)
| NBootstrap (nodehost : host.Host) (kaddht : dht.IpfsDHT)
    (* inside [bootstrapDHT(ctx, nodehost, kaddht)] *)
| NDiscovery (nodehost : host.Host) (kaddht : dht.IpfsDHT)
    (* [discoveryRouting.NewRoutingDiscovery(kaddht)] *)
| NCreated (nodehost : host.Host) (kaddht : dht.IpfsDHT)
           (routingdiscovery : discoveryRouting.RoutingDiscovery)
    (* [Debugln("Created the Peer Discovery Service.")] *)
| NPubSub (nodehost : host.Host) (kaddht : dht.IpfsDHT)
          (routingdiscovery : discoveryRouting.RoutingDiscovery)
    (* [setupPubSub(ctx, nodehost, routingdiscovery)] *)
| NHandler (nodehost : host.Host) (kaddht : dht.IpfsDHT)
           (routingdiscovery : discoveryRouting.RoutingDiscovery)
           (pubsubhandler : pubsub.PubSub)
    (* [Debugln("Created the PubSub Handler.")] *)
| NReturn (nodehost : host.Host) (kaddht : dht.IpfsDHT)
          (routingdiscovery : discoveryRouting.RoutingDiscovery)
          (pubsubhandler : pubsub.PubSub)
    (* [return &P2P{...}] *)
| NReturned (p2p : P2P)
| NPanicked (v : error).

(** The process during [NewP2P]: the main goroutine, and the goroutines
    of [bootstrapDHT] with their counters. *)
Record node : Type := mkNode {
  npc : new_pc;
  proc : @process World
}.

(** A statement of the main goroutine, and where it leads. *)
Definition advance {A} (n : node) (m : B A) (next : A -> new_pc) : node :=
  let p := proc n in
  match m (sys p) with
  | (Returns a, s') =>
      mkNode (next a)
        (mkProcess (stat p) (mpc p) (gs p) (wg p)
           (connectedbootpeers p) (totalbootpeers p) s')
  | (Exits code, s') =>
      mkNode (npc n)
        (mkProcess (Exited code) (mpc p) (gs p) (wg p)
           (connectedbootpeers p) (totalbootpeers p) s')
  | (Panics v, s') =>
      mkNode (NPanicked v)
        (mkProcess (stat p) (mpc p) (gs p) (wg p)
           (connectedbootpeers p) (totalbootpeers p) s')
  end.

(** The host whose goroutines are running. *)
Definition host_of (pc : new_pc) : option host.Host :=
  match pc with
  | NSetup | NPanicked _ => None
  | NBootstrap nodehost _ | NDiscovery nodehost _ | NCreated nodehost _ _
  | NPubSub nodehost _ _ | NHandler nodehost _ _ _ | NReturn nodehost _ _ _ =>
      Some nodehost
  | NReturned p2p => Some (Host p2p)
  end.

Definition NewP2P_main (serviceName nodeHostIP : string) (nodeHostPort : Z)
           (n : node) : option node :=
  let ctx := Background in
  match npc n with
  | NSetup =>
      Some (advance n (NewP2P_head nodeHostIP nodeHostPort)
              (fun r => NBootstrap (fst r) (snd r)))
  | NBootstrap nodehost kaddht =>
      match mpc (proc n) with
      | PReturned =>
          Some (advance n
                  (lift (emit (Logrus DebugLevel []
                     [AStr "Bootstrapped the Kademlia DHT and Connected to Bootstrap Peers"])))
                  (fun _ => NDiscovery nodehost kaddht))
      | _ =>
          match main_step ctx kaddht (proc n) with
          | Some p' => Some (mkNode (npc n) p')
          | None => None
          end
      end
  | NDiscovery nodehost kaddht =>
      Some (advance n (invoke (discoveryRouting_NewRoutingDiscovery kaddht))
              (fun routingdiscovery => NCreated nodehost kaddht routingdiscovery))
  | NCreated nodehost kaddht routingdiscovery =>
      Some (advance n
              (lift (emit (Logrus DebugLevel []
                 [AStr "Created the Peer Discovery Service."])))
              (fun _ => NPubSub nodehost kaddht routingdiscovery))
  | NPubSub nodehost kaddht routingdiscovery =>
      Some (advance n (setupPubSub ctx nodehost routingdiscovery)
              (fun pubsubhandler =>
                 NHandler nodehost kaddht routingdiscovery pubsubhandler))
  | NHandler nodehost kaddht routingdiscovery pubsubhandler =>
      Some (advance n
              (lift (emit (Logrus DebugLevel [] [AStr "Created the PubSub Handler."])))
              (fun _ => NReturn nodehost kaddht routingdiscovery pubsubhandler))
  | NReturn nodehost kaddht routingdiscovery pubsubhandler =>
      Some (mkNode
              (NReturned (mkP2P ctx nodehost kaddht routingdiscovery pubsubhandler
                            serviceName))
              (proc n))
  | NReturned _ | NPanicked _ => None
  end.

(** One step of the process during and after [NewP2P]; a goroutine of
    [bootstrapDHT] can be scheduled wherever the main goroutine is. *)
Definition NewP2P_step (serviceName nodeHostIP : string) (nodeHostPort : Z)
           (a : action) (n : node) : option node :=
  match stat (proc n) with
  | Running =>
      match a with
      | MainStep => NewP2P_main serviceName nodeHostIP nodeHostPort n
      | GoStep i =>
          match host_of (npc n) with
          | Some nodehost =>
              match go_step Background nodehost i (proc n) with
              | Some p' => Some (mkNode (npc n) p')
              | None => None
              end
          | None => None
          end
      end
  | _ => None
  end.

Fixpoint NewP2P_run (serviceName nodeHostIP : string) (nodeHostPort : Z)
         (sched : list action) (n : node) : option node :=
  match sched with
  | [] => Some n
  | a :: rest =>
      match NewP2P_step serviceName nodeHostIP nodeHostPort a n with
      | Some n' => NewP2P_run serviceName nodeHostIP nodeHostPort rest n'
      | None => None
      end
  end.

(** [NewP2P(serviceName, nodeHostIP, nodeHostPort)] under a schedule. *)
Definition NewP2P (serviceName nodeHostIP : string) (nodeHostPort : Z)
           (sched : list action) (s : @State World) : option node :=
  NewP2P_run serviceName nodeHostIP nodeHostPort sched (mkNode NSetup (start s)).

End Construction.

(* ================================================================= *)
(** ** Vocabulary of the statements *)

(** Little-endian digits in radix [b]: in range, the most significant
    one (the last) not zero. *)
Definition normal (b : Z) (ds : list Z) : Prop :=
  Forall (fun d => 0 <= d < b) ds /\ last ds 1 <> 0.

(** Big-endian digits in radix [b]: in range, the first one not zero. *)
Definition canonical (b : Z) (ds : list Z) : Prop :=
  Forall (fun d => 0 <= d < b) ds /\ hd 1 ds <> 0.

(** The digest and the multihash of a service name. *)
Definition service_digest (namestring : string) : list Z :=
  SHA256.Sum256 (bytes_of_string namestring).

Definition service_multihash (namestring : string) : list Z :=
  0x12 :: 0x20 :: service_digest namestring.

(** A computation that leaves the [P2P] structure as it found it. *)
Definition frames {World A} (m : @M World A) : Prop :=
  forall s : @State World, self (snd (m s)) = self s.

(** The events of [AdvertiseConnect] up to and including [FindPeers]. *)
Definition advertise_prefix (p2p : P2P) (ttl : Z) : list Event :=
  [ CallAdvertise (Discovery p2p) (Ctx p2p) (service p2p);
    Logrus DebugLevel [] [AStr "Advertised the p2p Service."];
    Sleep (second * 5);
    Logrus DebugLevel [] [AStr "Service Time-to-Live is %s"; ADuration ttl];
    CallFindPeers (Discovery p2p) (Ctx p2p) (service p2p) ].

(** The events of [AnnounceConnect] up to and including [Provide]. *)
Definition announce_prefix (p2p : P2P) (cidvalue : Cid.Cid) : list Event :=
  [ Logrus DebugLevel [] [AStr "cidvalue "; ACid cidvalue];
    Logrus TraceLevel [] [AStr "Generated the Service CID."];
    CallProvide (KadDHT p2p) (Ctx p2p) cidvalue true ].

(** The entry written by [WithFields(error).Fatalln(msg)]. *)
Definition fatal (err : error) (msg : string) : Event :=
  Logrus FatalLevel [("error"%string, err)] [AStr msg].

(** Whether a log entry carries the error [e]. *)
Definition mentions (e : error) (ev : Event) : Prop :=
  match ev with
  | Logrus _ fields args => In e (map snd fields) \/ In (AErr e) args
  | LogPrintln args => In (AErr e) args
  | _ => False
  end.

Definition failure_logged (e : error) (tr : list Event) : Prop :=
  Exists (mentions e) tr.

(** The peers of the [Connect] calls of a trace, in order. *)
Fixpoint connect_targets (tr : list Event) : list peer.AddrInfo :=
  match tr with
  | [] => []
  | CallConnect _ _ pi _ :: rest => pi :: connect_targets rest
  | _ :: rest => connect_targets rest
  end.

(** The contexts of the [Connect] calls of a trace, in order. *)
Fixpoint connect_contexts (tr : list Event) : list Context :=
  match tr with
  | [] => []
  | CallConnect _ c _ _ :: rest => c :: connect_contexts rest
  | _ :: rest => connect_contexts rest
  end.

Definition nonself (nodehost : host.Host) (p : peer.AddrInfo) : bool :=
  negb (String.eqb (peer.info_ID p) (host.ID nodehost)).

(** The values a channel accepts: those sent before it is closed. *)
Fixpoint accepted (history : list chan_event) : list peer.AddrInfo :=
  match history with
  | [] => []
  | Send p :: rest => p :: accepted rest
  | Close :: _ => []
  | Receive :: rest => accepted rest
  end.

(** The values still accepted by the channel of [t] from the events
    to come. *)
Definition accepts {World} (t : @task World) (history : list chan_event)
  : list peer.AddrInfo :=
  if closed (peerchan t) then [] else accepted history.

(** The events of one iteration of the loop on a peer other than the
    host itself. *)
Definition peer_events (nodehost : host.Host) (p : peer.AddrInfo)
           (err : option error) : list Event :=
  CallConnect nodehost Background p err
    :: match err with
       | Some e => [Logrus DebugLevel [] [AStr "p2p peer connection failed: "; AErr e]]
       | None => []
       end
    ++ [ Logrus DebugLevel [] [AStr "p2p peer connection success: "; APeer (peer.info_ID p)];
         LogPrintln [AStr "p2p peer connection success: "; APeer (peer.info_ID p)] ].

(** The same state with the node under another root context. *)
Definition with_ctx {World} (c : Context) (s : @State World) : @State World :=
  mkState (world s) (trace s)
    (mkP2P c (Host (self s)) (KadDHT (self s)) (Discovery (self s))
       (PubSub (self s)) (service (self s))).

Definition task_with_ctx {World} (c : Context) (t : @task World) : @task World :=
  mkTask (peerchan t) (tpc t) (with_ctx c (tstate t)).

(** What the goroutine of [handlePeerDiscovery] has done when the
    channel has accepted [sent]: the values received are a prefix of
    [sent], the rest is pending, and the events are those of the
    received peers other than the host itself. *)
Inductive handled {World} (nodehost : host.Host) (s : @State World)
          (sent : list peer.AddrInfo) (t : @task World) : Prop :=
| mkHandled (received : list peer.AddrInfo) (added : list Event)
    (h_split : sent = received ++ pending (peerchan t))
    (h_trace : trace (tstate t) = trace s ++ added)
    (h_targets : connect_targets added = filter (nonself nodehost) received)
    (h_contexts : Forall (fun c => c = Background) (connect_contexts added))
    (h_self : self (tstate t) = self s)
    (h_alive : tpc t <> Killed)
    (h_returned : tpc t = Returned ->
                  closed (peerchan t) = true /\ pending (peerchan t) = []).

(** Whether the goroutine still holds its unit of the wait group. *)
Definition holds (g : goroutine) : Z :=
  match g with
  | GAborting | GExited => 0
  | _ => 1
  end.

(** Whether the goroutine has a successful [Connect] not yet added to
    [connectedbootpeers]. *)
Definition uncounted (g : goroutine) : Z :=
  match g with
  | GConnected None => 1
  | _ => 0
  end.

(** Whether the goroutine's [Connect] has returned. *)
Definition attempted (g : goroutine) : Z :=
  match g with
  | GConnected _ | GDeferred | GExited => 1
  | _ => 0
  end.

(** A goroutine whose [peerinfo] is not nil. *)
Definition sane (g : goroutine) : Prop :=
  match g with
  | GSpawned None | GPanicking | GAborting => False
  | _ => True
  end.

Fixpoint sumZ (f : goroutine -> Z) (l : list goroutine) : Z :=
  match l with
  | [] => 0
  | g :: rest => f g + sumZ f rest
  end.

(** The [Connect] calls of a trace that returned no error. *)
Fixpoint successes (tr : list Event) : Z :=
  match tr with
  | [] => 0
  | CallConnect _ _ _ None :: rest => 1 + successes rest
  | _ :: rest => successes rest
  end.

(** The [Connect] calls of a trace. *)
Fixpoint attempts (tr : list Event) : Z :=
  match tr with
  | [] => 0
  | CallConnect _ _ _ _ :: rest => 1 + attempts rest
  | _ :: rest => attempts rest
  end.

(** The line [bootstrapDHT] ends with. *)
Definition report (connected total : Z) : Event :=
  Logrus DebugLevel []
    [AStr "Connected to %d out of %d Bootstrap Peers."; AInt connected; AInt total].

(** The steps a goroutine, the main goroutine and the process have
    left at most. *)
Definition rank (g : goroutine) : nat :=
  match g with
  | GSpawned _ => 3
  | GConnected _ | GPanicking => 2
  | GDeferred | GAborting => 1
  | GExited => 0
  end.

Definition main_rank (npeers : nat) (pc : main_pc) : nat :=
  match pc with
  | PBootstrap => 4 * npeers + 4
  | PRange rest => 4 * length rest + 3
  | PWait => 2
  | PLog => 1
  | PReturned => 0
  end.

Definition stat_rank (st : status) : nat :=
  match st with
  | Running => 1
  | _ => 0
  end.

Definition measure {World} (npeers : nat) (p : @process World) : nat :=
  stat_rank (stat p) + main_rank npeers (mpc p) + list_sum (map rank (gs p)).

(** A bootstrap address with address info. *)
Definition parses {World} {net : Libp2p World} (m : Multiaddr) : Prop :=
  peer_AddrInfoFromP2pAddr m <> None.

(** What the position of the main goroutine says about the others. *)
Definition at_pc {World} {net : Libp2p World} (s0 : @State World)
           (p : @process World) : Prop :=
  match mpc p with
  | PBootstrap => p = start s0
  | PRange rest =>
      (length (gs p) + length rest = length dht_DefaultBootstrapPeers)%nat /\
      Forall parses rest
  | PWait => length (gs p) = length dht_DefaultBootstrapPeers
  | PLog | PReturned =>
      length (gs p) = length dht_DefaultBootstrapPeers /\
      Forall (fun g => g = GExited) (gs p)
  end.

(** The invariant of [bootstrapDHT] started in [s0], when [Bootstrap]
    succeeds and every bootstrap address parses. *)
Inductive invariant {World} {net : Libp2p World} (s0 : @State World)
          (p : @process World) : Prop :=
| mkInvariant (added : list Event)
    (inv_stat : stat p = Running)
    (inv_trace : trace (sys p) = trace s0 ++ added)
    (inv_sane : Forall sane (gs p))
    (inv_wg : wg p = sumZ holds (gs p))
    (inv_conn : connectedbootpeers p + sumZ uncounted (gs p) = successes added)
    (inv_nonneg : 0 <= connectedbootpeers p)
    (inv_le : connectedbootpeers p + sumZ uncounted (gs p) <= sumZ attempted (gs p))
    (inv_att : attempts added = sumZ attempted (gs p))
    (inv_total : totalbootpeers p = Z.of_nat (length (gs p)))
    (inv_len : (length (gs p) <= length dht_DefaultBootstrapPeers)%nat)
    (inv_pc : at_pc s0 p)
    (inv_report : mpc p = PReturned ->
                  exists tr,
                    added = tr ++ [report (connectedbootpeers p) (totalbootpeers p)]).

(* --------------------------------------------------------------- *)
(** *** [handlePeerDiscovery]: the entries of the loop *)

(** The events of the loop of [handlePeerDiscovery] over the peers
    [ps], the [Connect] calls returning [errs]. *)
Fixpoint handler_events (nodehost : host.Host) (ps : list peer.AddrInfo)
         (errs : list (option error)) : list Event :=
  match ps, errs with
  | p :: ps', err :: errs' =>
      peer_events nodehost p err ++ handler_events nodehost ps' errs'
  | _, _ => []
  end.

(** What [log.Println] is given for a peer reported as connected. *)
Definition success_line (p : peer.AddrInfo) : list Arg :=
  [AStr "p2p peer connection success: "; APeer (peer.info_ID p)].

(** The lines written with [log.Println], in order. *)
Fixpoint printed (tr : list Event) : list (list Arg) :=
  match tr with
  | [] => []
  | LogPrintln args :: rest => args :: printed rest
  | _ :: rest => printed rest
  end.

(** An entry written with [Fatalln]. *)
Definition is_fatal (ev : Event) : bool :=
  match ev with
  | Logrus FatalLevel _ _ => true
  | _ => false
  end.

(* --------------------------------------------------------------- *)
(** *** [bootstrapDHT] on any network *)

(** The peer a goroutine is about to call [Connect] for. *)
Definition spawned_target (g : goroutine) : list peer.AddrInfo :=
  match g with
  | GSpawned (Some peerinfo) => [peerinfo]
  | _ => []
  end.

(** The address infos of the addresses that have one. *)
Definition parsed {World} {net : Libp2p World} (addrs : list Multiaddr)
  : list peer.AddrInfo :=
  flat_map (fun m => match peer_AddrInfoFromP2pAddr m with
                     | Some peerinfo => [peerinfo]
                     | None => []
                     end) addrs.

(** The bootstrap addresses the loop of [bootstrapDHT] has not reached
    yet. *)
Definition upcoming {World} {net : Libp2p World} (pc : main_pc) : list Multiaddr :=
  match pc with
  | PBootstrap => dht_DefaultBootstrapPeers
  | PRange rest => rest
  | _ => []
  end.

(** The hosts of the [Connect] calls of a trace, in order. *)
Fixpoint connect_hosts (tr : list Event) : list host.Host :=
  match tr with
  | [] => []
  | CallConnect h _ _ _ :: rest => h :: connect_hosts rest
  | _ :: rest => connect_hosts rest
  end.

(** A goroutine that will crash the process. *)
Definition panics (g : goroutine) : Prop :=
  match g with
  | GSpawned None | GPanicking | GAborting => True
  | _ => False
  end.

(** What holds of [bootstrapDHT] started in [s0] on any network. *)
Inductive sound {World} {net : Libp2p World}
          (ctx : Context) (nodehost : host.Host) (kaddht : dht.IpfsDHT)
          (s0 : @State World) (p : @process World) : Prop :=
| mkSound (added : list Event)
    (so_trace : trace (sys p) = trace s0 ++ added)
    (so_self : self (sys p) = self s0)
    (so_start : mpc p = PBootstrap -> stat p = Running -> p = start s0)
    (so_wg : wg p = sumZ holds (gs p))
    (so_len : (length (gs p) + length (upcoming (mpc p)) =
               length dht_DefaultBootstrapPeers)%nat)
    (so_targets :
       Permutation
         (connect_targets added ++ flat_map spawned_target (gs p)
            ++ parsed (upcoming (mpc p)))
         (parsed dht_DefaultBootstrapPeers))
    (so_ctx : Forall (eq ctx) (connect_contexts added))
    (so_host : Forall (eq nodehost) (connect_hosts added))
    (so_errors : forall e, failure_logged e added ->
                           fst (dht_Bootstrap kaddht ctx (world s0)) = Some e)
    (so_waited : mpc p = PLog \/ mpc p = PReturned -> wg p = 0)
    (so_report : mpc p = PReturned ->
                 exists tr,
                   added = tr ++ [report (connectedbootpeers p) (totalbootpeers p)]).

(** What holds once a bootstrap address has no address info. *)
Definition doomed {World} {net : Libp2p World} (s0 : @State World)
           (p : @process World) : Prop :=
  stat p = Crashed \/
  (stat p = Running /\
   (mpc p = PBootstrap -> p = start s0) /\
   (Exists (fun m => peer_AddrInfoFromP2pAddr m = None) (upcoming (mpc p)) \/
    Exists panics (gs p))).

(** A bootstrap address without address info. *)
Definition unparsed {World} {net : Libp2p World} (m : Multiaddr) : Prop :=
  peer_AddrInfoFromP2pAddr m = None.

(** A trace that ends with a fatal entry. *)
Definition ends_fatally (tr : list Event) : Prop :=
  exists before ev, tr = before ++ [ev] /\ is_fatal ev = true.

(** Why [bootstrapDHT], started in [s0], has ended when it has: the
    process has exited only after a failed [Bootstrap], and a goroutine
    panics only for an address without address info. *)
Definition caused {World} {net : Libp2p World}
           (ctx : Context) (kaddht : dht.IpfsDHT)
           (s0 : @State World) (p : @process World) : Prop :=
  (exists before, dht_DefaultBootstrapPeers = before ++ upcoming (mpc p)) /\
  (Exists panics (gs p) -> Exists unparsed dht_DefaultBootstrapPeers) /\
  (mpc p = PBootstrap -> stat p = Running -> p = start s0) /\
  match stat p with
  | Running => True
  | Exited code =>
      code = 1 /\ mpc p = PBootstrap /\ gs p = [] /\
      exists e,
        fst (dht_Bootstrap kaddht ctx (world s0)) = Some e /\
        trace (sys p) =
        trace s0 ++ [CallBootstrap kaddht ctx;
                     fatal e "Failed to Bootstrap the Kademlia!"]
  | Crashed => Exists (fun g => g = GAborting) (gs p)
  end.

(* --------------------------------------------------------------- *)
(** *** The discovery calls of a trace *)






(* --------------------------------------------------------------- *)
(** *** The construction of a node *)

(** The entry [setupKadDHT] writes before it calls [dht.New]. *)
Definition dht_configured : Event :=
  Logrus TraceLevel [] [AStr "Generated DHT Configuration."].

(** The line [setupHost] prints before it calls [libp2p.New]. *)
Definition listening (nodeHostIP : string) (nodeHostPort : Z) : Event :=
  LogPrintln
    [ AStr ("/ip4/" ++ nodeHostIP ++ "/tcp/" ++ Sprint_int nodeHostPort);
      AStr ("/ip4/" ++ nodeHostIP ++ "/udp/" ++ Sprint_int nodeHostPort ++ "/quic-v1") ].

(** The entries [NewP2P] writes after [bootstrapDHT] has returned. *)
Definition bootstrapped : Event :=
  Logrus DebugLevel []
    [AStr "Bootstrapped the Kademlia DHT and Connected to Bootstrap Peers"].

Definition discovery_created : Event :=
  Logrus DebugLevel [] [AStr "Created the Peer Discovery Service."].

Definition pubsub_created : Event :=
  Logrus DebugLevel [] [AStr "Created the PubSub Handler."].

(** The entry of [setupPubSub] when [NewGossipSub] fails. *)
Definition pubsub_failed (e : error) : Event :=
  Logrus FatalLevel [("error"%string, e); ("type"%string, "GossipSub"%string)]
    [AStr "PubSub Handler Creation Failed!"].

(** Those written when the main goroutine is at [pc]. *)
Definition tail_lines (pc : new_pc) : list Event :=
  match pc with
  | NDiscovery _ _ | NCreated _ _ _ => [bootstrapped]
  | NPubSub _ _ _ | NHandler _ _ _ _ => [bootstrapped; discovery_created]
  | NReturn _ _ _ _ | NReturned _ => [bootstrapped; discovery_created; pubsub_created]
  | _ => []
  end.

(** The process after [bootstrapDHT] has returned to [NewP2P]: every
    goroutine has run its deferred [wg.Done], and the trace since [s1],
    the state [bootstrapDHT] was called in, is the events of
    [bootstrapDHT], ending with its report, and the lines of [NewP2P]. *)
Definition settled {World} {net : Libp2p World} (s1 : @State World) (pc : new_pc)
           (p : @process World) : Prop :=
  mpc p = PReturned /\
  Forall (fun g => g = GExited \/ g = GAborting) (gs p) /\
  exists added c t,
    trace (sys p) = trace s1 ++ added ++ report c t :: tail_lines pc /\
    Permutation (connect_targets added) (parsed dht_DefaultBootstrapPeers) /\
    Forall (eq Background) (connect_contexts added).

(** What holds during [NewP2P(serviceName, nodeHostIP, nodeHostPort)]
    started in [s], on any network. *)
Definition node_ok {World} {net : Libp2p World} {lib : Libp2pNew World}
           (serviceName nodeHostIP : string) (nodeHostPort : Z)
           (s : @State World) (n : @node World) : Prop :=
  self (sys (proc n)) = self s /\
  match stat (proc n) with
  | Exited _ => forall p2p, npc n <> NReturned p2p
  | _ =>
      match npc n with
      | NSetup => proc n = start s
      | NPanicked _ => True
      | NBootstrap nodehost kaddht =>
          exists s1,
            NewP2P_head nodeHostIP nodeHostPort s = (Returns (nodehost, kaddht), s1) /\
            sound Background nodehost kaddht s1 (proc n)
      | NDiscovery nodehost kaddht | NCreated nodehost kaddht _
      | NPubSub nodehost kaddht _ | NHandler nodehost kaddht _ _
      | NReturn nodehost kaddht _ _ =>
          exists s1,
            NewP2P_head nodeHostIP nodeHostPort s = (Returns (nodehost, kaddht), s1) /\
            settled s1 (npc n) (proc n)
      | NReturned p2p =>
          Ctx p2p = Background /\ service p2p = serviceName /\
          exists s1,
            NewP2P_head nodeHostIP nodeHostPort s =
            (Returns (Host p2p, KadDHT p2p), s1) /\
            settled s1 (npc n) (proc n)
      end
  end.

(** The statements the main goroutine has left in [NewP2P], after
    [bootstrapDHT]. *)
Definition node_rank (pc : new_pc) : nat :=
  match pc with
  | NSetup => 7
  | NBootstrap _ _ => 6
  | NDiscovery _ _ => 5
  | NCreated _ _ _ => 4
  | NPubSub _ _ _ => 3
  | NHandler _ _ _ _ => 2
  | NReturn _ _ _ _ => 1
  | NReturned _ | NPanicked _ => 0
  end.

Definition node_measure {World} {net : Libp2p World} (n : @node World) : nat :=
  node_rank (npc n) + measure (length dht_DefaultBootstrapPeers) (proc n).

(** What holds during [NewP2P] started in [s] when [setupHost] returns
    [nodehost] and [kaddht] in [s1], [Bootstrap] succeeds and every
    bootstrap address has address info. *)
Definition node_live {World} {net : Libp2p World}
           (nodehost : host.Host) (kaddht : dht.IpfsDHT) (s s1 : @State World)
           (n : @node World) : Prop :=
  match stat (proc n) with
  | Running =>
      match npc n with
      | NSetup => proc n = start s
      | NBootstrap h k => h = nodehost /\ k = kaddht /\ invariant s1 (proc n)
      | NDiscovery h k | NCreated h k _ | NPubSub h k _ | NHandler h k _ _
      | NReturn h k _ _ =>
          h = nodehost /\ k = kaddht /\ Forall (fun g => g = GExited) (gs (proc n))
      | NReturned p2p =>
          Host p2p = nodehost /\ KadDHT p2p = kaddht /\
          Forall (fun g => g = GExited) (gs (proc n))
      | NPanicked _ => False
      end
  | Exited code =>
      code = 1 /\
      exists routingdiscovery e tr,
        npc n = NPubSub nodehost kaddht routingdiscovery /\
        trace (sys (proc n)) = tr ++ [pubsub_failed e]
  | Crashed => False
  end.

(** Why the process has ended during [NewP2P], started in [s], when it
    has. *)
Definition node_ends {World} {net : Libp2p World} {lib : Libp2pNew World}
           (nodeHostIP : string) (nodeHostPort : Z)
           (s : @State World) (n : @node World) : Prop :=
  (Exists panics (gs (proc n)) -> Exists unparsed dht_DefaultBootstrapPeers) /\
  (forall v, npc n = NPanicked v -> stat (proc n) = Running) /\
  match stat (proc n) with
  | Exited code => code = 1 /\ ends_fatally (trace (sys (proc n)))
  | Crashed => Exists (fun g => g = GAborting) (gs (proc n))
  | Running =>
      match npc n with
      | NSetup => proc n = start s
      | NBootstrap _ kaddht => exists s1, caused Background kaddht s1 (proc n)
      | NPanicked v =>
          gs (proc n) = [] /\
          fst (setupHost Background nodeHostIP nodeHostPort s) = Panics v
      | _ => True
      end
  end.

(* ================================================================= *)
(** ** Scenarios on the simulated network *)

Module Scenario.

Local Open Scope string_scope.

Definition addrA : Multiaddr :=
  [("ip4", "104.131.131.82"); ("tcp", "4001"); ("p2p", "QmA")].

Definition addrB : Multiaddr :=
  [("ip4", "104.236.179.241"); ("tcp", "4001"); ("p2p", "QmB")].

(** An address without a [/p2p] component. *)
Definition malformed : Multiaddr :=
  [("ip4", "104.131.131.82"); ("tcp", "4001")].

Definition peerA : peer.AddrInfo := peer.mkAddrInfo "QmA" [].
Definition peerB : peer.AddrInfo := peer.mkAddrInfo "QmB" [].
Definition peerSelf : peer.AddrInfo := peer.mkAddrInfo "QmSelf" [].

Definition only_A (id : peer.ID) : bool := String.eqb id "QmA".

(** Everything works; of the two bootstrap peers only [QmA] can be
    reached. *)
Definition healthy : Sim.Script :=
  Sim.mkScript None (10800 * second, None) (Ok 7%nat) None 9%nat only_A [addrA; addrB].



(** One bootstrap address is malformed. *)
Definition one_malformed : Sim.Script :=
  Sim.mkScript None (10800 * second, None) (Ok 7%nat) None 9%nat only_A [malformed].

Definition node : P2P :=
  mkP2P Background (host.mkHost 1 "QmSelf") (dht.mkIpfsDHT 2)
    (discoveryRouting.mkRoutingDiscovery 3) (pubsub.mkPubSub 4) "icefiredb".

Definition boot : @State nat := mkState 0%nat [] node.

End Scenario.

(* ================================================================= *)
(** ** A simulated construction *)

Module SimNode.

Record Script : Type := mkScript {
  keypair : option error;
  manager : option error;
  routed : list host.Host;
  built : host.Host * option error;
  table : dht.IpfsDHT * option error;
  gossip : pubsub.PubSub * option error;
  listen : list Multiaddr
}.

(** [libp2p.New] calls the routing constructor on the hosts [hs], one
    after the other, then returns [r]. *)
Fixpoint New (hs : list host.Host) (r : host.Host * option error) (w : nat)
  : NewRun nat :=
  match hs with
  | [] => NewReturns (fst r) (snd r) (S w)
  | h :: rest => NewRoutes h (S w) (fun _ _ w' => New rest r w')
  end.

Definition lib (sc : Script) : Libp2pNew nat := {|
  crypto_GenerateKeyPair := fun _ _ w =>
    ((crypto.mkPrivKey 5, crypto.mkPubKey 6, keypair sc), S w);
  connmgr_NewConnManager := fun _ _ _ w =>
    ((connmgr.mkBasicConnMgr 7, manager sc), S w);
  libp2p_New := fun _ w => New (routed sc) (built sc) w;
  dht_GetDefaultBootstrapPeerAddrInfos := fun w => ([], S w);
  dht_New := fun _ _ _ w => (table sc, S w);
  discoveryRouting_NewRoutingDiscovery := fun k w =>
    (discoveryRouting.mkRoutingDiscovery (S (dht.ptr k)), S w);
  pubsub_NewGossipSub := fun _ _ _ w => (gossip sc, S w);
  host_Addrs := fun _ _ => listen sc
|}.

End SimNode.

Module NodeScenario.

Local Open Scope string_scope.

Definition basic : host.Host := host.mkHost 8 "QmSelf".

(** Every call of the construction succeeds; [libp2p.New] calls the
    routing constructor once. *)
Definition healthy : SimNode.Script :=
  SimNode.mkScript None None [basic]
    (Host Scenario.node, None) (KadDHT Scenario.node, None) (PubSub Scenario.node, None)
    [[("ip4", "127.0.0.1"); ("tcp", "4001")];
     [("ip4", "127.0.0.1"); ("udp", "4001"); ("quic-v1", "")]].

(** The connection manager cannot be made. *)
Definition no_manager : SimNode.Script :=
  SimNode.mkScript None (Some "high water must be positive") [basic]
    (Host Scenario.node, None) (KadDHT Scenario.node, None) (PubSub Scenario.node, None)
    [].

(** [dht.New] fails inside the routing constructor. *)
Definition no_table : SimNode.Script :=
  SimNode.mkScript None None [basic]
    (Host Scenario.node, None) (nil_IpfsDHT, Some "datastore closed")
    (PubSub Scenario.node, None) [].

End NodeScenario.

Module Schedule.

(** [bootstrapDHT] on two bootstrap peers: the main goroutine up to
    [wg.Wait], the two goroutines interleaved, then the main goroutine
    to its return. *)
Definition two_peers : list action :=
  [ MainStep; MainStep; MainStep; MainStep; GoStep 1; GoStep 0; GoStep 0;
    GoStep 1; GoStep 0; GoStep 1; MainStep; MainStep ].

(** [bootstrapDHT] on one bootstrap address without address info, up
    to the crash. *)
Definition nil_peerinfo : list action :=
  [MainStep; MainStep; MainStep; GoStep 0; GoStep 0; GoStep 0].

(** [NewP2P] on two bootstrap peers, to its return. *)
Definition new_node : list action :=
  MainStep :: two_peers ++ [MainStep; MainStep; MainStep; MainStep; MainStep; MainStep].

End Schedule.

(* ================================================================= *)
(** * Proofs *)

(* ================================================================= *)
(** ** Radix conversions *)

Section Radix.

Variable b : Z.
Hypothesis b_ge_2 : 2 <= b.

Lemma of_radix_nonneg (ds : list Z) :
  Forall (fun d => 0 <= d < b) ds -> 0 <= Base58.of_radix b ds.
Proof.
  induction 1 as [|d ds Hd _ IH]; simpl; nia.
Qed.

Lemma of_radix_pos (ds : list Z) :
  normal b ds -> ds <> [] -> 0 < Base58.of_radix b ds.
Proof.
  intros [Hr Hl]. induction ds as [|d ds IH]; [congruence|]. intros _.
  inversion Hr as [|? ? Hd Hr']; subst. simpl.
  destruct ds as [|d' ds'].
  - simpl in *. lia.
  - assert (0 < Base58.of_radix b (d' :: ds'))
      by (apply IH; [assumption | exact Hl | discriminate]).
    nia.
Qed.

Lemma to_radix_zero (fuel : nat) : Base58.to_radix b fuel 0 = [].
Proof. destruct fuel; reflexivity. Qed.

Lemma to_radix_of_radix (ds : list Z) :
  normal b ds ->
  forall fuel, Base58.of_radix b ds < 2 ^ Z.of_nat fuel ->
  Base58.to_radix b fuel (Base58.of_radix b ds) = ds.
Proof.
  induction ds as [|d ds IH]; intros Hn fuel Hlt.
  - apply to_radix_zero.
  - assert (Hpos : 0 < Base58.of_radix b (d :: ds))
      by (apply of_radix_pos; [assumption | discriminate]).
    destruct Hn as [Hr Hl]. inversion Hr as [|? ? Hd Hr']; subst.
    assert (Hv : 0 <= Base58.of_radix b ds) by (apply of_radix_nonneg; assumption).
    destruct fuel as [|fuel].
    + simpl in Hlt. simpl in Hpos. lia.
    + cbn [Base58.to_radix].
      destruct (Z.eqb_spec (Base58.of_radix b (d :: ds)) 0) as [E|_]; [lia|].
      cbn [Base58.of_radix].
      assert (Hmod : (d + b * Base58.of_radix b ds) mod b = d).
      { symmetry. apply Z.mod_unique_pos with (q := Base58.of_radix b ds); lia. }
      assert (Hdiv : (d + b * Base58.of_radix b ds) / b = Base58.of_radix b ds).
      { symmetry. apply Z.div_unique_pos with (r := d); lia. }
      rewrite Hmod, Hdiv. f_equal.
      apply IH.
      * split; [assumption|]. destruct ds; [simpl; lia | exact Hl].
      * cbn [Base58.of_radix] in Hlt.
        rewrite Nat2Z.inj_succ, Z.pow_succ_r in Hlt by lia. nia.
Qed.

Lemma of_radix_to_radix (fuel : nat) :
  forall n, 0 <= n < 2 ^ Z.of_nat fuel ->
  Base58.of_radix b (Base58.to_radix b fuel n) = n.
Proof.
  induction fuel as [|fuel IH]; intros n Hn.
  - simpl in *. lia.
  - cbn [Base58.to_radix]. destruct (Z.eqb_spec n 0) as [->|Hnz]; [reflexivity|].
    cbn [Base58.of_radix]. rewrite IH.
    + pose proof (Z.div_mod n b). lia.
    + rewrite Nat2Z.inj_succ, Z.pow_succ_r in Hn by lia.
      split; [apply Z.div_pos; lia|].
      apply Z.div_lt_upper_bound; nia.
Qed.

Lemma to_radix_normal (fuel : nat) :
  forall n, 0 <= n < 2 ^ Z.of_nat fuel -> normal b (Base58.to_radix b fuel n).
Proof.
  induction fuel as [|fuel IH]; intros n Hn.
  - split; [constructor | simpl; lia].
  - cbn [Base58.to_radix]. destruct (Z.eqb_spec n 0) as [->|Hnz].
    + split; [constructor | simpl; lia].
    + assert (Hq : 0 <= n / b < 2 ^ Z.of_nat fuel).
      { rewrite Nat2Z.inj_succ, Z.pow_succ_r in Hn by lia.
        split; [apply Z.div_pos; lia|]. apply Z.div_lt_upper_bound; nia. }
      destruct (IH _ Hq) as [Hr Hl]. split.
      * constructor; [apply Z.mod_pos_bound; lia | assumption].
      * destruct (Z.eq_dec (n / b) 0) as [E|E].
        -- rewrite E, to_radix_zero. simpl. pose proof (Z.div_mod n b). lia.
        -- destruct fuel as [|fuel']; [simpl in Hq; lia|].
           cbn [Base58.to_radix] in *.
           destruct (Z.eqb_spec (n / b) 0) as [E'|_]; [contradiction|].
           exact Hl.
Qed.

Lemma log2_fuel (n : Z) : 0 <= n -> n < 2 ^ Z.of_nat (S (Z.to_nat (Z.log2 n))).
Proof.
  intros Hn. rewrite Nat2Z.inj_succ, Z2Nat.id by apply Z.log2_nonneg.
  destruct (Z.eq_dec n 0) as [->|Hnz]; [reflexivity|].
  apply Z.log2_spec. lia.
Qed.

Lemma of_radix_app (l1 l2 : list Z) :
  Base58.of_radix b (l1 ++ l2) =
  Base58.of_radix b l1 + b ^ Z.of_nat (length l1) * Base58.of_radix b l2.
Proof.
  induction l1 as [|d l1 IH].
  - cbn [app length Base58.of_radix]. change (Z.of_nat 0) with 0.
    rewrite Z.pow_0_r. lia.
  - cbn [app Base58.of_radix length]. rewrite IH, Nat2Z.inj_succ, Z.pow_succ_r by lia. ring.
Qed.

Lemma of_radix_zeros (z : nat) : Base58.of_radix b (repeat 0 z) = 0.
Proof. induction z as [|z IH]; simpl; [reflexivity | rewrite IH; lia]. Qed.

Lemma canonical_rev (ds : list Z) : canonical b ds -> normal b (rev ds).
Proof.
  intros [Hr Hh]. split.
  - apply Forall_rev. assumption.
  - destruct ds as [|d ds]; [simpl; lia|]. simpl. rewrite last_last. exact Hh.
Qed.

Lemma normal_rev (ds : list Z) : normal b ds -> canonical b (rev ds).
Proof.
  intros [Hr Hl]. split.
  - apply Forall_rev. assumption.
  - destruct (rev ds) as [|d r] eqn:E; [simpl; lia|].
    assert (Hds : ds = rev r ++ [d]) by (rewrite <- (rev_involutive ds), E; reflexivity).
    subst ds. rewrite last_last in Hl. exact Hl.
Qed.

Lemma number_digits (n : Z) : 0 <= n -> Base58.number b (Base58.digits b n) = n.
Proof.
  intros Hn. unfold Base58.number, Base58.digits. rewrite rev_involutive.
  apply of_radix_to_radix. split; [assumption | apply log2_fuel; assumption].
Qed.

Lemma digits_canonical (n : Z) : 0 <= n -> canonical b (Base58.digits b n).
Proof.
  intros Hn. unfold Base58.digits. apply normal_rev, to_radix_normal.
  split; [assumption | apply log2_fuel; assumption].
Qed.

Lemma digits_number (ds : list Z) :
  canonical b ds -> Base58.digits b (Base58.number b ds) = ds.
Proof.
  intros Hc. unfold Base58.digits, Base58.number.
  rewrite to_radix_of_radix.
  - apply rev_involutive.
  - apply canonical_rev. assumption.
  - apply log2_fuel, of_radix_nonneg, Forall_rev, Hc.
Qed.

Lemma number_zeros_app (z : nat) (ds : list Z) :
  Base58.number b (repeat 0 z ++ ds) = Base58.number b ds.
Proof.
  unfold Base58.number. rewrite rev_app_distr, of_radix_app.
  rewrite rev_repeat, of_radix_zeros. lia.
Qed.

End Radix.

(* ================================================================= *)
(** ** base58: decoding an encoding *)

Lemma alphabet_roundtrip (d : Z) :
  0 <= d < 58 -> Base58.alphabet_decode (Base58.alphabet_encode d) = Some d.
Proof.
  intros Hd.
  assert (Hall : forallb
            (fun n => match Base58.alphabet_decode (Base58.alphabet_encode (Z.of_nat n)) with
                      | Some d' => d' =? Z.of_nat n
                      | None => false
                      end) (seq 0 58) = true) by (vm_compute; reflexivity).
  rewrite forallb_forall in Hall.
  specialize (Hall (Z.to_nat d)).
  rewrite Z2Nat.id in Hall by lia.
  destruct (Base58.alphabet_decode (Base58.alphabet_encode d)) as [d'|].
  - f_equal. apply Z.eqb_eq. apply Hall. apply in_seq. lia.
  - discriminate Hall. apply in_seq. lia.
Qed.

Lemma decode_chars_encode (ds : list Z) :
  Forall (fun d => 0 <= d < 58) ds ->
  Base58.decode_chars (map Base58.alphabet_encode ds) = Ok ds.
Proof.
  induction 1 as [|d ds Hd _ IH]; [reflexivity|].
  cbn [map Base58.decode_chars]. rewrite alphabet_roundtrip, IH by assumption.
  reflexivity.
Qed.

Lemma zcount_split (l : list Z) :
  l = repeat 0 (Base58.zcount l) ++ skipn (Base58.zcount l) l /\
  hd 1 (skipn (Base58.zcount l) l) <> 0.
Proof.
  induction l as [|d l [IH1 IH2]].
  - split; [reflexivity | simpl; lia].
  - cbn [Base58.zcount]. destruct (Z.eqb_spec d 0) as [->|Hd].
    + cbn [repeat app skipn]. split; [f_equal; exact IH1 | exact IH2].
    + split; [reflexivity | exact Hd].
Qed.

Lemma zcount_zeros_app (z : nat) (ds : list Z) :
  hd 1 ds <> 0 -> Base58.zcount (repeat 0 z ++ ds) = z.
Proof.
  intros Hh. induction z as [|z IH].
  - destruct ds as [|d ds]; [reflexivity|]. simpl in *.
    destruct (Z.eqb_spec d 0); [contradiction | reflexivity].
  - cbn [repeat app Base58.zcount]. rewrite Z.eqb_refl, IH. reflexivity.
Qed.

Lemma bytes_ok_skipn (n : nat) (l : list Z) : bytes_ok l -> bytes_ok (skipn n l).
Proof.
  unfold bytes_ok. revert l. induction n as [|n IH]; intros l H; [exact H|].
  destruct l as [|x l]; [constructor|]. inversion H; subst. apply IH. assumption.
Qed.

(** [Decode] inverts [Encode] on every non-empty byte string. *)
Lemma Decode_Encode (bin : list Z) :
  bytes_ok bin -> bin <> [] -> Base58.Decode (Base58.Encode bin) = Ok bin.
Proof.
  intros Hok Hne.
  destruct (zcount_split bin) as [Hsplit Hhd].
  set (z := Base58.zcount bin) in *. set (rest := skipn z bin) in *.
  assert (Hrest : canonical 256 rest).
  { split; [apply bytes_ok_skipn; exact Hok | exact Hhd]. }
  assert (Hnum : Base58.number 256 bin = Base58.number 256 rest).
  { rewrite Hsplit at 1. apply number_zeros_app. }
  assert (Hnn : 0 <= Base58.number 256 rest).
  { apply of_radix_nonneg; [lia | apply Forall_rev, Hrest]. }
  pose proof (digits_canonical 58 ltac:(lia) _ Hnn) as [Hdr Hdh].
  set (ds := Base58.digits 58 (Base58.number 256 rest)) in *.
  assert (Henc : Base58.Encode bin =
                 string_of_list_ascii (map Base58.alphabet_encode (repeat 0 z ++ ds))).
  { unfold Base58.Encode. fold z. rewrite Hnum. reflexivity. }
  assert (Hall : Forall (fun d => 0 <= d < 58) (repeat 0 z ++ ds)).
  { apply Forall_app. split; [|exact Hdr].
    apply Forall_forall. intros x Hx. apply repeat_spec in Hx. lia. }
  assert (Hnonempty : repeat 0 z ++ ds <> []).
  { intros E. apply app_eq_nil in E. destruct E as [Ez Eds].
    destruct z; [|discriminate].
    apply Hne. rewrite Hsplit. cbn [repeat app].
    assert (Hr : rest = Base58.digits 256 (Base58.number 256 rest))
      by (symmetry; apply digits_number; [lia | exact Hrest]).
    rewrite Hr.
    assert (H0 : Base58.number 256 rest = 0).
    { rewrite <- (number_digits 58 ltac:(lia) _ Hnn). fold ds. rewrite Eds. reflexivity. }
    rewrite H0. reflexivity. }
  rewrite Henc. unfold Base58.Decode.
  rewrite list_ascii_of_string_of_list_ascii, decode_chars_encode by exact Hall.
  destruct (repeat 0 z ++ ds) as [|d0 l0] eqn:El; [congruence|].
  cbn [map string_of_list_ascii]. rewrite <- El.
  rewrite zcount_zeros_app by exact Hdh.
  rewrite number_zeros_app by lia.
  unfold ds. rewrite number_digits by (lia || exact Hnn).
  rewrite digits_number by (lia || exact Hrest).
  f_equal. symmetry. exact Hsplit.
Qed.

(* ================================================================= *)
(** ** SHA-256: the shape of a digest *)

Lemma be_bytes_length (n : nat) (x : Z) : length (SHA256.be_bytes n x) = n.
Proof. induction n as [|n IH]; simpl; [reflexivity | rewrite IH; reflexivity]. Qed.

Lemma be_bytes_ok (n : nat) (x : Z) : bytes_ok (SHA256.be_bytes n x).
Proof.
  induction n as [|n IH]; simpl; constructor; [|exact IH].
  unfold byte_ok. apply Z.mod_pos_bound. lia.
Qed.

Lemma Sum256_length (data : list Z) : length (SHA256.Sum256 data) = 32%nat.
Proof.
  unfold SHA256.Sum256, SHA256.digest_bytes.
  repeat rewrite length_app. repeat rewrite be_bytes_length. reflexivity.
Qed.

Lemma Sum256_bytes_ok (data : list Z) : bytes_ok (SHA256.Sum256 data).
Proof.
  unfold SHA256.Sum256, SHA256.digest_bytes, bytes_ok.
  repeat (apply Forall_app; split); apply be_bytes_ok.
Qed.

(* ================================================================= *)
(** ** Multihash and CID of a tagged SHA-256 digest *)

Lemma FromUvarint_single (b : Z) (rest : list Z) :
  0 <= b < 0x80 -> Varint.FromUvarint (b :: rest) = Ok (b, 1%nat).
Proof.
  intros Hb. unfold Varint.FromUvarint. cbn [Varint.FromUvarint_loop Nat.eqb Nat.leb andb orb].
  destruct (Z.ltb_spec b 0x80) as [_|]; [|lia].
  change (0 <? 0) with false. rewrite andb_false_r.
  rewrite Z.shiftl_0_r, Z.lor_0_l. reflexivity.
Qed.

Lemma uvarint_single (b : Z) (rest : list Z) :
  0 <= b < 0x80 -> Multihash.uvarint (b :: rest) = Ok (b, rest).
Proof.
  intros Hb. unfold Multihash.uvarint. rewrite FromUvarint_single by exact Hb.
  reflexivity.
Qed.

Lemma Cast_sha2_256 (h : list Z) :
  length h = 32%nat -> Multihash.Cast (0x12 :: 0x20 :: h) = Ok (0x12 :: 0x20 :: h).
Proof.
  intros Hlen.
  unfold Multihash.Cast, Multihash.Decode, Multihash.readMultihashFromBuf.
  cbn [length Nat.ltb Nat.leb].
  rewrite (uvarint_single 0x12) by lia. rewrite (uvarint_single 0x20) by lia.
  rewrite Hlen.
  change (Multihash.MaxInt32 <? 32) with false.
  change (Z.of_nat 32 <? 32) with false. cbv iota.
  change (Z.to_nat 32) with 32%nat.
  change (Nat.eqb (34 - 32 + 32) 34) with true. reflexivity.
Qed.

Lemma bytes_ok_tagged (h : list Z) : bytes_ok h -> bytes_ok (0x12 :: 0x20 :: h).
Proof.
  intros Hok. constructor; [unfold byte_ok; lia|].
  constructor; [unfold byte_ok; lia | exact Hok].
Qed.

Lemma FromB58String_Encode_sha2_256 (h : list Z) :
  length h = 32%nat -> bytes_ok h ->
  Multihash.FromB58String (Base58.Encode (0x12 :: 0x20 :: h)) = Ok (0x12 :: 0x20 :: h).
Proof.
  intros Hlen Hok. unfold Multihash.FromB58String.
  rewrite Decode_Encode.
  - apply Cast_sha2_256. exact Hlen.
  - apply bytes_ok_tagged. exact Hok.
  - discriminate.
Qed.

Lemma NewCidV1_str (mhash : list Z) :
  Cid.str (Cid.NewCidV1 12 mhash) = 1 :: 12 :: mhash.
Proof. reflexivity. Qed.

Lemma Version_NewCidV1_sha2_256 (h : list Z) :
  length h = 32%nat -> Cid.Version (Cid.NewCidV1 12 (0x12 :: 0x20 :: h)) = 1.
Proof.
  intros Hlen. unfold Cid.Version. rewrite NewCidV1_str.
  cbn [length]. rewrite Hlen. reflexivity.
Qed.

Lemma Hash_NewCidV1_sha2_256 (h : list Z) :
  length h = 32%nat ->
  Cid.Hash (Cid.NewCidV1 12 (0x12 :: 0x20 :: h)) = 0x12 :: 0x20 :: h.
Proof.
  intros Hlen. unfold Cid.Hash. rewrite Version_NewCidV1_sha2_256 by exact Hlen.
  rewrite NewCidV1_str. reflexivity.
Qed.

Lemma Type_NewCidV1_sha2_256 (h : list Z) :
  length h = 32%nat ->
  Cid.Type_ (Cid.NewCidV1 12 (0x12 :: 0x20 :: h)) = 12.
Proof.
  intros Hlen. unfold Cid.Type_. rewrite Version_NewCidV1_sha2_256 by exact Hlen.
  rewrite NewCidV1_str. reflexivity.
Qed.

(* ================================================================= *)
(** ** The sequential code *)

Ltac step_monad :=
  unfold Connect, bind, call, emit, deref, ret, Fatalln in *;
  cbn [fst snd world trace self] in *.

Ltac norm_trace := repeat rewrite <- app_assoc; cbn [app].

Create HintDb frames.

Section Sequential.

Context {World : Type} {net : Libp2p World}.

Lemma generateCID_run (namestring : string) (s : @State World) :
  generateCID namestring s =
  (Done (Cid.NewCidV1 12 (service_multihash namestring)), s).
Proof.
  unfold generateCID. cbn [app].
  fold (service_digest namestring).
  rewrite FromB58String_Encode_sha2_256
    by (apply Sum256_length || apply Sum256_bytes_ok).
  reflexivity.
Qed.

(** C1.  [generateCID] is a pure function of the service name: in every
    state it returns, without touching the state (no event, no change
    of the world), the version-1 identifier whose multihash is the
    bytes [0x12] (SHA2-256) and [0x20] (32 bytes) followed by the
    32-byte SHA-256 digest of the name; so its result is the same in
    any two states. *)
Theorem generateCID_pure_deterministic (namestring : string) (s : @State World) :
  let cidvalue := Cid.NewCidV1 12 (service_multihash namestring) in
  generateCID namestring s = (Done cidvalue, s) /\
  Cid.Version cidvalue = 1 /\
  Cid.Hash cidvalue = 0x12 :: 0x20 :: SHA256.Sum256 (bytes_of_string namestring) /\
  length (SHA256.Sum256 (bytes_of_string namestring)) = 32%nat /\
  (forall s' : @State World, fst (generateCID namestring s') = fst (generateCID namestring s)).
Proof.
  cbv zeta. split; [apply generateCID_run|].
  split; [apply Version_NewCidV1_sha2_256, Sum256_length|].
  split; [apply Hash_NewCidV1_sha2_256, Sum256_length|].
  split; [apply Sum256_length|].
  intros s'. rewrite !generateCID_run. reflexivity.
Qed.

(** C10.  The error branch of [generateCID] is unreachable: the
    34 tagged bytes survive [base58.Encode] followed by the decoding of
    [multihash.FromB58String], so in every state [generateCID] returns
    an identifier (it never exits), of version 1 and with a valid
    multihash. *)
Theorem generateCID_error_branch_unreachable (namestring : string) :
  let finalhash := [0x12; 0x20] ++ SHA256.Sum256 (bytes_of_string namestring) in
  length finalhash = 34%nat /\
  Base58.Decode (Base58.Encode finalhash) = Ok finalhash /\
  Multihash.FromB58String (Base58.Encode finalhash) = Ok finalhash /\
  forall s : @State World,
    exists cidvalue,
      generateCID namestring s = (Done cidvalue, s) /\
      Cid.Version cidvalue = 1 /\
      Multihash.Cast (Cid.Hash cidvalue) = Ok finalhash.
Proof.
  cbv zeta. cbn [app].
  pose proof (Sum256_length (bytes_of_string namestring)) as Hlen.
  pose proof (Sum256_bytes_ok (bytes_of_string namestring)) as Hok.
  split; [cbn [length]; rewrite Hlen; reflexivity|].
  split.
  { apply Decode_Encode; [apply bytes_ok_tagged; exact Hok | discriminate]. }
  split; [apply FromB58String_Encode_sha2_256; assumption|].
  intros s. eexists. split; [apply generateCID_run|].
  split; [apply Version_NewCidV1_sha2_256; exact Hlen|].
  unfold service_multihash, service_digest.
  rewrite Hash_NewCidV1_sha2_256 by exact Hlen.
  apply Cast_sha2_256. exact Hlen.
Qed.

(* --------------------------------------------------------------- *)
Lemma frames_ret {A} (a : A) : frames (World:=World) (ret a).
Proof. intros s. reflexivity. Qed.

Lemma frames_bind {A B} (m : @M World A) (k : A -> @M World B) :
  frames (World:=World) m -> (forall a, frames (World:=World) (k a)) ->
  frames (World:=World) (bind m k).
Proof.
  intros Hm Hk s. unfold bind. specialize (Hm s).
  destruct (m s) as [[a|code] s1]; cbn [snd] in *.
  - rewrite (Hk a s1). exact Hm.
  - exact Hm.
Qed.

Lemma frames_emit (e : Event) : frames (World:=World) (emit e).
Proof. intros s. reflexivity. Qed.

Lemma frames_call {A} (f : World -> A * World) (ev : A -> Event) :
  frames (World:=World) (call f ev).
Proof. intros s. unfold call. destruct (f (world s)). reflexivity. Qed.

Lemma frames_deref : frames (World:=World) deref.
Proof. intros s. reflexivity. Qed.

Lemma frames_Fatalln {A} fields msg : frames (World:=World) (@Fatalln World A fields msg).
Proof. intros s. reflexivity. Qed.

Lemma frames_generateCID (namestring : string) : frames (World:=World) (generateCID namestring).
Proof. intros s. rewrite generateCID_run. reflexivity. Qed.

#[local] Hint Resolve frames_ret frames_emit frames_call frames_deref frames_Fatalln
  frames_generateCID : frames.

Ltac frames_tac :=
  repeat first
    [ apply frames_bind; [|intros ?]
    | match goal with |- frames (match ?x with _ => _ end) => destruct x end
    | solve [auto with frames] ].

(** C9.  [AdvertiseConnect] and [AnnounceConnect] leave the [P2P]
    structure as it was: all six fields are the same before and after,
    whatever the network answers. *)
Theorem AdvertiseConnect_AnnounceConnect_frame (s : @State World) :
  self (snd (AdvertiseConnect s)) = self s /\
  self (snd (AnnounceConnect s)) = self s.
Proof.
  split.
  - assert (H : frames (World:=World) AdvertiseConnect)
      by (unfold AdvertiseConnect; frames_tac).
    apply H.
  - assert (H : frames (World:=World) AnnounceConnect)
      by (unfold AnnounceConnect; frames_tac).
    apply H.
Qed.

End Sequential.

(* ================================================================= *)
(** ** What [AdvertiseConnect], [AnnounceConnect] and the head of
       [bootstrapDHT] do, by the answers of the network *)

Section FatalPaths.

Context {World : Type} {net : Libp2p World}.

Lemma AdvertiseConnect_run (s : @State World) :
  let p2p := self s in
  let adv := discovery_Advertise (Discovery p2p) (Ctx p2p) (service p2p) (world s) in
  let found := discovery_FindPeers (Discovery p2p) (Ctx p2p) (service p2p) (snd adv) in
  AdvertiseConnect s =
  match fst found with
  | Err err =>
      (Exit 1,
       mkState (snd found)
         (trace s ++ advertise_prefix p2p (fst (fst adv))
            ++ [fatal err "P2P Peer Discovery Failed!"]) p2p)
  | Ok peerchan =>
      (Done tt,
       mkState (snd found)
         (trace s ++ advertise_prefix p2p (fst (fst adv))
            ++ [ Logrus TraceLevel [] [AStr "Discovered p2p Service Peers."];
                 Go (Host p2p) peerchan;
                 Logrus TraceLevel [] [AStr "Started Peer Connection Handler."] ]) p2p)
  end.
Proof.
  cbv zeta. unfold AdvertiseConnect, advertise_prefix, fatal. step_monad.
  destruct (discovery_Advertise _ _ _ (world s)) as [[ttl aerr] w1]. step_monad.
  destruct (discovery_FindPeers _ _ _ w1) as [[peerchan|err] w2]; step_monad;
    norm_trace; reflexivity.
Qed.

Lemma AnnounceConnect_run (s : @State World) :
  let p2p := self s in
  let cidvalue := Cid.NewCidV1 12 (service_multihash (service p2p)) in
  let prov := dht_Provide (KadDHT p2p) (Ctx p2p) cidvalue true (world s) in
  let provs := dht_FindProvidersAsync (KadDHT p2p) (Ctx p2p) cidvalue 0 (snd prov) in
  AnnounceConnect s =
  match fst prov with
  | Some err =>
      (Exit 1,
       mkState (snd prov)
         (trace s ++ announce_prefix p2p cidvalue
            ++ [fatal err "Failed to Announce Service CID!"]) p2p)
  | None =>
      (Done tt,
       mkState (snd provs)
         (trace s ++ announce_prefix p2p cidvalue
            ++ [ Logrus DebugLevel [] [AStr "Announced the p2p Service."];
                 Sleep (second * 5);
                 CallFindProvidersAsync (KadDHT p2p) (Ctx p2p) cidvalue 0;
                 Logrus TraceLevel [] [AStr "Discovered p2p Service Peers."];
                 Go (Host p2p) (fst provs);
                 Logrus DebugLevel [] [AStr "Started Peer Connection Handler."] ]) p2p)
  end.
Proof.
  cbv zeta. unfold AnnounceConnect, announce_prefix, fatal.
  unfold bind at 1. unfold deref at 1. unfold bind at 1.
  rewrite generateCID_run. step_monad.
  destruct (dht_Provide _ _ _ _ (world s)) as [[err|] w1]; step_monad.
  - norm_trace. reflexivity.
  - destruct (dht_FindProvidersAsync _ _ _ _ w1) as [peerchan w2]. step_monad.
    norm_trace. reflexivity.
Qed.

Lemma bootstrapDHT_head_run (ctx : Context) (kaddht : dht.IpfsDHT) (s : @State World) :
  let boot := dht_Bootstrap kaddht ctx (world s) in
  bootstrapDHT_head ctx kaddht s =
  match fst boot with
  | Some err =>
      (Exit 1,
       mkState (snd boot)
         (trace s ++ [CallBootstrap kaddht ctx;
                      fatal err "Failed to Bootstrap the Kademlia!"]) (self s))
  | None =>
      (Done tt,
       mkState (snd boot)
         (trace s ++ [CallBootstrap kaddht ctx;
                      Logrus TraceLevel []
                        [AStr "Set the Kademlia DHT into Bootstrap Mode."]]) (self s))
  end.
Proof.
  cbv zeta. unfold bootstrapDHT_head, fatal. step_monad.
  destruct (dht_Bootstrap kaddht ctx (world s)) as [[err|] w1]; step_monad;
    norm_trace; reflexivity.
Qed.


End FatalPaths.

(* ================================================================= *)
(** ** [handlePeerDiscovery] against any history of its channel *)

Lemma connect_targets_app (l1 l2 : list Event) :
  connect_targets (l1 ++ l2) = connect_targets l1 ++ connect_targets l2.
Proof.
  induction l1 as [|e l1 IH]; [reflexivity|].
  destruct e; cbn [app connect_targets]; rewrite IH; reflexivity.
Qed.

Lemma connect_contexts_app (l1 l2 : list Event) :
  connect_contexts (l1 ++ l2) = connect_contexts l1 ++ connect_contexts l2.
Proof.
  induction l1 as [|e l1 IH]; [reflexivity|].
  destruct e; cbn [app connect_contexts]; rewrite IH; reflexivity.
Qed.

Lemma connect_targets_peer_events nodehost p err :
  connect_targets (peer_events nodehost p err) = [p].
Proof. destruct err; reflexivity. Qed.

Lemma connect_contexts_peer_events nodehost p err :
  connect_contexts (peer_events nodehost p err) = [Background].
Proof. destruct err; reflexivity. Qed.

Section Handler.

Context {World : Type} {net : Libp2p World}.

Lemma handlePeer_run (nodehost : host.Host) (p : peer.AddrInfo) (s : @State World) :
  handlePeer nodehost p s =
  if nonself nodehost p then
    let r := host_Connect nodehost Background p (world s) in
    (Done tt, mkState (snd r) (trace s ++ peer_events nodehost p (fst r)) (self s))
  else (Done tt, s).
Proof.
  unfold handlePeer, nonself, peer_events.
  destruct (String.eqb (peer.info_ID p) (host.ID nodehost)); cbn [negb]; [reflexivity|].
  step_monad. destruct (host_Connect nodehost Background p (world s)) as [[e|] w];
    step_monad; norm_trace; reflexivity.
Qed.

Lemma handled_spawn nodehost (s : @State World) : handled nodehost s [] (spawn s).
Proof.
  apply (mkHandled nodehost s [] (spawn s) [] []); cbn; try reflexivity.
  - symmetry. apply app_nil_r.
  - constructor.
  - discriminate.
  - discriminate.
Qed.

Lemma handled_step nodehost (s : @State World) sent (t : @task World) (ev : chan_event) :
  handled nodehost s sent t ->
  exists sent',
    handled nodehost s sent' (handlePeerDiscovery_step nodehost t ev) /\
    forall rest,
      sent' ++ accepts (handlePeerDiscovery_step nodehost t ev) rest =
      sent ++ accepts t (ev :: rest).
Proof.
  intros [received added Hsplit Htrace Htargets Hctx Hself Halive Hret].
  destruct ev as [p| |]; cbn [handlePeerDiscovery_step].
  - (* Send *)
    destruct (closed (peerchan t)) eqn:Hc.
    + exists sent. split.
      * apply (mkHandled nodehost s sent t received added); try assumption.
        intros Hr. destruct (Hret Hr). split; assumption.
      * intros rest. unfold accepts. rewrite Hc. reflexivity.
    + exists (sent ++ [p]). split.
      * apply (mkHandled nodehost s _ _ received added); cbn; try assumption.
        -- rewrite Hsplit, <- app_assoc. reflexivity.
        -- intros Hr. destruct (Hret Hr) as [Hc' _]. congruence.
      * intros rest. unfold accepts. cbn [peerchan closed]. rewrite Hc.
        cbn [accepted]. rewrite <- app_assoc. reflexivity.
  - (* Close *)
    exists sent. split.
    + apply (mkHandled nodehost s _ _ received added); cbn; try assumption.
      intros Hr. destruct (Hret Hr) as [_ Hp]. split; [reflexivity | exact Hp].
    + intros rest. unfold accepts. cbn [peerchan closed accepted].
      destruct (closed (peerchan t)); reflexivity.
  - (* Receive *)
    exists sent. split.
    + destruct (tpc t) eqn:Hpc; [| |contradiction].
      * destruct (pending (peerchan t)) as [|p rest] eqn:Hp.
        -- destruct (closed (peerchan t)) eqn:Hc.
           ++ apply (mkHandled nodehost s _ _ received added);
                cbn [peerchan tpc tstate];
                [ rewrite Hp; exact Hsplit | exact Htrace | exact Htargets
                | exact Hctx | exact Hself | discriminate
                | intros _; split; [exact Hc | exact Hp] ].
           ++ apply (mkHandled nodehost s _ _ received added);
                [ rewrite Hp; exact Hsplit | exact Htrace | exact Htargets
                | exact Hctx | exact Hself | rewrite Hpc; discriminate
                | rewrite Hpc; discriminate ].
        -- rewrite handlePeer_run. destruct (nonself nodehost p) eqn:Hns.
           ++ cbv zeta.
              apply (mkHandled nodehost s _ _ (received ++ [p])
                       (added ++ peer_events nodehost p
                          (fst (host_Connect nodehost Background p (world (tstate t))))));
                cbn [peerchan tpc tstate pending closed trace self];
                [ rewrite Hsplit, <- app_assoc; reflexivity
                | rewrite Htrace, <- app_assoc; reflexivity
                | rewrite connect_targets_app, connect_targets_peer_events,
                    filter_app, Htargets; cbn [filter]; rewrite Hns; reflexivity
                | rewrite connect_contexts_app, connect_contexts_peer_events;
                  apply Forall_app; split; [exact Hctx | repeat constructor]
                | exact Hself | discriminate | discriminate ].
           ++ apply (mkHandled nodehost s _ _ (received ++ [p]) added);
                cbn [peerchan tpc tstate pending closed trace self];
                [ rewrite Hsplit, <- app_assoc; reflexivity
                | exact Htrace
                | rewrite filter_app, Htargets; cbn [filter]; rewrite Hns;
                  symmetry; apply app_nil_r
                | exact Hctx | exact Hself | discriminate | discriminate ].
      * apply (mkHandled nodehost s _ _ received added);
          [ exact Hsplit | exact Htrace | exact Htargets | exact Hctx | exact Hself
          | rewrite Hpc; discriminate | intros _; apply Hret; reflexivity ].
    + intros rest. unfold accepts.
      assert (Hcl : closed (peerchan (handlePeerDiscovery_step nodehost t Receive)) =
                    closed (peerchan t)).
      { cbn [handlePeerDiscovery_step]. destruct (tpc t); try reflexivity.
        destruct (pending (peerchan t)) as [|a l].
        - destruct (closed (peerchan t)) eqn:Hc; cbn [peerchan]; congruence.
        - destruct (handlePeer nodehost a (tstate t)) as [[[]|code] s']; reflexivity. }
      cbn [handlePeerDiscovery_step] in Hcl. rewrite Hcl. reflexivity.
Qed.

Lemma handled_run nodehost (s : @State World) (history : list chan_event) :
  forall sent (t : @task World),
    handled nodehost s sent t ->
    handled nodehost s (sent ++ accepts t history)
      (fold_left (handlePeerDiscovery_step nodehost) history t).
Proof.
  induction history as [|ev history IH]; intros sent t H.
  - cbn [fold_left]. unfold accepts. cbn [accepted].
    destruct (closed (peerchan t)); rewrite app_nil_r; exact H.
  - cbn [fold_left].
    destruct (handled_step nodehost s sent t ev H) as [sent' [H' Heq]].
    rewrite <- Heq. apply IH. exact H'.
Qed.

Lemma handled_history nodehost (history : list chan_event) (s : @State World) :
  handled nodehost s (accepted history) (handlePeerDiscovery nodehost history s).
Proof.
  unfold handlePeerDiscovery.
  change (accepted history) with ([] ++ accepts (spawn s) history).
  apply handled_run, handled_spawn.
Qed.

(** Once the channel is closed, the goroutine returns after one
    receive per pending value and one more. *)
Lemma closed_returns nodehost :
  forall n (t : @task World),
    closed (peerchan t) = true -> tpc t <> Killed ->
    length (pending (peerchan t)) = n ->
    tpc (fold_left (handlePeerDiscovery_step nodehost) (repeat Receive (S n)) t) = Returned.
Proof.
  assert (Hfix : forall (t : @task World) k,
             tpc t = Returned ->
             fold_left (handlePeerDiscovery_step nodehost) (repeat Receive k) t = t).
  { intros t k Hpc. induction k as [|k IHk]; [reflexivity|].
    cbn [repeat fold_left handlePeerDiscovery_step]. rewrite Hpc. exact IHk. }
  induction n as [|n IH]; intros t Hc Ha Hlen.
  - cbn [repeat fold_left handlePeerDiscovery_step].
    destruct (tpc t) eqn:Hpc; [|exact Hpc|congruence].
    destruct (pending (peerchan t)); [|discriminate]. rewrite Hc. reflexivity.
  - change (repeat Receive (S (S n))) with (Receive :: repeat Receive (S n)).
    cbn [fold_left].
    destruct (tpc t) eqn:Hpc; [| |congruence].
    + destruct (pending (peerchan t)) as [|p rest] eqn:Hp; [discriminate|].
      cbn [handlePeerDiscovery_step]. rewrite Hpc, Hp, handlePeer_run.
      destruct (nonself nodehost p); cbv zeta;
        (apply IH; cbn [peerchan closed pending tpc];
         [exact Hc | discriminate | cbn [length] in Hlen; lia]).
    + cbn [handlePeerDiscovery_step]. rewrite Hpc.
      rewrite Hfix by exact Hpc. exact Hpc.
Qed.

(** After the goroutine has returned nothing changes its state. *)
Lemma returned_stays nodehost (more : list chan_event) :
  forall t : @task World,
    tpc t = Returned ->
    tpc (fold_left (handlePeerDiscovery_step nodehost) more t) = Returned /\
    tstate (fold_left (handlePeerDiscovery_step nodehost) more t) = tstate t.
Proof.
  induction more as [|ev more IH]; intros t Hr; [split; [exact Hr | reflexivity]|].
  cbn [fold_left].
  assert (H : tpc (handlePeerDiscovery_step nodehost t ev) = Returned /\
              tstate (handlePeerDiscovery_step nodehost t ev) = tstate t).
  { destruct ev; cbn [handlePeerDiscovery_step].
    - destruct (closed (peerchan t)); split; auto.
    - split; auto.
    - rewrite Hr. split; auto. }
  destruct H as [H1 H2]. destruct (IH _ H1) as [H3 H4].
  split; [exact H3 | rewrite H4; exact H2].
Qed.

End Handler.

Section HandlerTheorems.

Context {World : Type} {net : Libp2p World}.

Lemma handlePeer_with_ctx nodehost p c (s : @State World) :
  handlePeer nodehost p (with_ctx c s) =
  (fst (handlePeer nodehost p s), with_ctx c (snd (handlePeer nodehost p s))).
Proof.
  rewrite !handlePeer_run. destruct (nonself nodehost p); reflexivity.
Qed.

Lemma step_with_ctx nodehost c (t : @task World) (ev : chan_event) :
  handlePeerDiscovery_step nodehost (task_with_ctx c t) ev =
  task_with_ctx c (handlePeerDiscovery_step nodehost t ev).
Proof.
  destruct ev as [p| |]; cbn [handlePeerDiscovery_step task_with_ctx peerchan tpc tstate].
  - destruct (closed (peerchan t)); reflexivity.
  - reflexivity.
  - destruct (tpc t); try reflexivity.
    destruct (pending (peerchan t)) as [|p rest].
    + destruct (closed (peerchan t)); reflexivity.
    + rewrite handlePeer_with_ctx.
      destruct (handlePeer nodehost p (tstate t)) as [[[]|code] s']; reflexivity.
Qed.

Lemma run_with_ctx nodehost c (history : list chan_event) :
  forall t : @task World,
    fold_left (handlePeerDiscovery_step nodehost) history (task_with_ctx c t) =
    task_with_ctx c (fold_left (handlePeerDiscovery_step nodehost) history t).
Proof.
  induction history as [|ev history IH]; intros t; [reflexivity|].
  cbn [fold_left]. rewrite step_with_ctx. apply IH.
Qed.

(** C4.  Whatever the channel delivers and however the goroutine is
    scheduled, no [Connect] call of [handlePeerDiscovery] is for a peer
    with the identifier of the local host. *)
Theorem handlePeerDiscovery_never_connects_to_self
        (nodehost : host.Host) (history : list chan_event) (s : @State World) :
  exists added,
    trace (tstate (handlePeerDiscovery nodehost history s)) = trace s ++ added /\
    Forall (fun pi => peer.info_ID pi <> host.ID nodehost) (connect_targets added).
Proof.
  destruct (handled_history nodehost history s)
    as [received added _ Htrace Htargets _ _ _ _].
  exists added. split; [exact Htrace|].
  rewrite Htargets. apply Forall_forall. intros pi Hin.
  apply filter_In in Hin. destruct Hin as [_ Hns]. unfold nonself in Hns.
  intros Heq. rewrite Heq, String.eqb_refl in Hns. discriminate.
Qed.

(** C5.  After any history of the channel, the [Connect] calls made by
    [handlePeerDiscovery] are exactly those for the received peers
    other than the host, in order, whatever the earlier calls
    returned; the goroutine has returned only if the channel is closed
    and drained, it is still in its loop while the channel is open, it
    does return once the channel is closed (after one receive per
    pending value and one more), and after it has returned nothing
    changes its state any more. *)
Theorem handlePeerDiscovery_consumes_until_closed
        (nodehost : host.Host) (history : list chan_event) (s : @State World) :
  let t := handlePeerDiscovery nodehost history s in
  (exists received added,
      accepted history = received ++ pending (peerchan t) /\
      trace (tstate t) = trace s ++ added /\
      connect_targets added = filter (nonself nodehost) received) /\
  (tpc t = Returned -> closed (peerchan t) = true /\ pending (peerchan t) = []) /\
  (closed (peerchan t) = false -> tpc t = Ranging) /\
  (closed (peerchan t) = true ->
   tpc (fold_left (handlePeerDiscovery_step nodehost)
          (repeat Receive (S (length (pending (peerchan t))))) t) = Returned) /\
  (tpc t = Returned ->
   forall more,
     tstate (fold_left (handlePeerDiscovery_step nodehost) more t) = tstate t).
Proof.
  cbv zeta.
  destruct (handled_history nodehost history s)
    as [received added Hsplit Htrace Htargets _ _ Halive Hret].
  split; [exists received, added; auto|].
  split; [exact Hret|].
  split.
  { intros Hc. destruct (tpc (handlePeerDiscovery nodehost history s)) eqn:Hpc.
    - reflexivity.
    - destruct (Hret eq_refl) as [Hc' _]. congruence.
    - congruence. }
  split.
  { intros Hc. apply closed_returns; [exact Hc | exact Halive | reflexivity]. }
  intros Hr more. apply returned_stays. exact Hr.
Qed.

(** C8.  Every [Connect] call of [handlePeerDiscovery] is made with
    [context.Background()]; and two runs that differ only in the root
    context of the node produce the same events, leave the same world
    and end in the same position. *)
Theorem handlePeerDiscovery_connects_with_background
        (nodehost : host.Host) (history : list chan_event)
        (c : Context) (s : @State World) :
  let t := handlePeerDiscovery nodehost history s in
  let t' := handlePeerDiscovery nodehost history (with_ctx c s) in
  (exists added,
      trace (tstate t) = trace s ++ added /\
      Forall (fun c' => c' = Background) (connect_contexts added)) /\
  trace (tstate t') = trace (tstate t) /\
  world (tstate t') = world (tstate t) /\
  tpc t' = tpc t.
Proof.
  cbv zeta. split.
  - destruct (handled_history nodehost history s)
      as [received added _ Htrace _ Hctx _ _ _].
    exists added. split; assumption.
  - unfold handlePeerDiscovery.
    change (spawn (with_ctx c s)) with (task_with_ctx c (spawn s)).
    rewrite run_with_ctx. repeat split; reflexivity.
Qed.


End HandlerTheorems.

(* ================================================================= *)
(** ** [bootstrapDHT]: lists updated at an index, sums over the
       goroutines, counts over the trace *)

Lemma update_length {A} (i : nat) (x : A) (l : list A) :
  length (update i x l) = length l.
Proof.
  revert i. induction l as [|y l IH]; intros i; [destruct i; reflexivity|].
  destruct i; cbn [update length]; [reflexivity | rewrite IH; reflexivity].
Qed.

Lemma update_Forall {A} (P : A -> Prop) (i : nat) (x : A) (l : list A) :
  Forall P l -> P x -> Forall P (update i x l).
Proof.
  intros Hl Hx. revert i.
  induction Hl as [|y l Hy Hl IH]; intros i; [destruct i; constructor|].
  destruct i; cbn [update]; constructor; auto.
Qed.

Lemma sumZ_update (f : goroutine -> Z) (i : nat) (x old : goroutine) (l : list goroutine) :
  nth_error l i = Some old -> sumZ f (update i x l) = sumZ f l - f old + f x.
Proof.
  revert i. induction l as [|y l IH]; intros i H.
  - destruct i; discriminate.
  - destruct i; cbn [update sumZ nth_error] in *.
    + injection H as ->. lia.
    + rewrite (IH i H). lia.
Qed.

Lemma rank_update (i : nat) (x old : goroutine) (l : list goroutine) :
  nth_error l i = Some old ->
  (list_sum (map rank (update i x l)) + rank old =
   list_sum (map rank l) + rank x)%nat.
Proof.
  revert i. induction l as [|y l IH]; intros i H.
  - destruct i; discriminate.
  - destruct i; cbn [update map list_sum fold_right nth_error] in *.
    + injection H as ->. lia.
    + specialize (IH i H). unfold list_sum in IH. lia.
Qed.

Lemma sumZ_app (f : goroutine -> Z) (l1 l2 : list goroutine) :
  sumZ f (l1 ++ l2) = sumZ f l1 + sumZ f l2.
Proof. induction l1 as [|g l1 IH]; cbn [app sumZ]; lia. Qed.

Lemma sumZ_bounds (f : goroutine -> Z) (l : list goroutine) :
  (forall g, 0 <= f g <= 1) -> 0 <= sumZ f l <= Z.of_nat (length l).
Proof.
  intros Hf. induction l as [|g l IH]; cbn [sumZ length]; [lia|].
  specialize (Hf g). lia.
Qed.

Lemma holds_bounds g : 0 <= holds g <= 1.
Proof. destruct g; cbn; lia. Qed.

Lemma uncounted_bounds g : 0 <= uncounted g <= 1.
Proof. destruct g as [| [e|] | | | |]; cbn; lia. Qed.

Lemma attempted_bounds g : 0 <= attempted g <= 1.
Proof. destruct g; cbn; lia. Qed.

Lemma all_exited_sums (l : list goroutine) :
  Forall (fun g => g = GExited) l ->
  sumZ holds l = 0 /\ sumZ uncounted l = 0 /\ sumZ attempted l = Z.of_nat (length l).
Proof.
  induction 1 as [|g l -> _ IH]; [repeat split|].
  cbn [sumZ length holds uncounted attempted]. lia.
Qed.

Lemma none_holding_all_exited (l : list goroutine) :
  Forall sane l -> sumZ holds l = 0 -> Forall (fun g => g = GExited) l.
Proof.
  induction 1 as [|g l Hg _ IH]; intros Hs; [constructor|].
  cbn [sumZ] in Hs.
  pose proof (holds_bounds g). pose proof (sumZ_bounds holds l holds_bounds).
  constructor; [|apply IH; lia].
  destruct g as [[pi|]| | | | |]; cbn [holds sane] in *;
    try lia; try contradiction; reflexivity.
Qed.

Lemma some_holding (l : list goroutine) :
  0 < sumZ holds l -> exists i g, nth_error l i = Some g /\ holds g = 1.
Proof.
  induction l as [|g l IH]; cbn [sumZ]; [lia|]. intros H.
  pose proof (holds_bounds g).
  destruct (Z.eq_dec (holds g) 1) as [E|E].
  - exists 0%nat, g. split; [reflexivity | exact E].
  - destruct IH as [i [g' [Hi Hg']]]; [lia|]. exists (S i), g'. split; assumption.
Qed.

Lemma successes_app (l1 l2 : list Event) :
  successes (l1 ++ l2) = successes l1 + successes l2.
Proof.
  induction l1 as [|e l1 IH]; [reflexivity|].
  destruct e as [| | | | | | | |h c pi [err|]|]; cbn [app successes]; lia.
Qed.

Lemma attempts_app (l1 l2 : list Event) :
  attempts (l1 ++ l2) = attempts l1 + attempts l2.
Proof.
  induction l1 as [|e l1 IH]; [reflexivity|].
  destruct e; cbn [app attempts]; lia.
Qed.

Lemma int32_small (x : Z) : - 2 ^ 31 <= x < 2 ^ 31 -> int32 x = x.
Proof.
  intros H. unfold int32.
  rewrite Z.mod_small by lia. lia.
Qed.

(* ================================================================= *)
(** ** [bootstrapDHT]: termination, invariant, progress *)

Section Bootstrap.

Context {World : Type} {net : Libp2p World}.

Variables (ctx : Context) (nodehost : host.Host) (kaddht : dht.IpfsDHT).

(** *** Every execution is finite *)

Lemma main_step_decreases (p p' : @process World) :
  stat p = Running ->
  main_step ctx kaddht p = Some p' ->
  (measure (length dht_DefaultBootstrapPeers) p' <
   measure (length dht_DefaultBootstrapPeers) p)%nat.
Proof.
  intros Hst H. unfold main_step in H. unfold measure. rewrite Hst.
  destruct (mpc p) as [|[|m rest]| | |] eqn:Hpc.
  - destruct (bootstrapDHT_head ctx kaddht (sys p)) as [[[]|code] s1];
      injection H as <-; cbn [stat mpc gs stat_rank main_rank]; lia.
  - injection H as <-. cbn [stat mpc gs stat_rank main_rank length]. lia.
  - injection H as <-. cbn [stat mpc gs stat_rank main_rank length].
    rewrite map_app, list_sum_app. cbn [map rank list_sum fold_right]. lia.
  - destruct (wg p =? 0); [|discriminate].
    injection H as <-. cbn [stat mpc gs stat_rank main_rank]. lia.
  - injection H as <-. cbn [stat mpc gs stat_rank main_rank]. lia.
  - discriminate.
Qed.

Lemma go_step_decreases (i : nat) (p p' : @process World) :
  stat p = Running ->
  go_step ctx nodehost i p = Some p' ->
  (measure (length dht_DefaultBootstrapPeers) p' <
   measure (length dht_DefaultBootstrapPeers) p)%nat.
Proof.
  intros Hst H. unfold go_step in H. unfold measure. rewrite Hst.
  destruct (nth_error (gs p) i) as [g|] eqn:Hi; [|discriminate].
  destruct g as [[pinfo|]|[e|]| | | |].
  - destruct (Connect nodehost ctx pinfo (sys p)) as [[err|code] s1];
      injection H as <-; cbn [stat mpc gs stat_rank].
    + pose proof (rank_update i (GConnected err) _ _ Hi) as Hr. cbn [rank] in Hr. lia.
    + lia.
  - injection H as <-. cbn [stat mpc gs stat_rank].
    pose proof (rank_update i GPanicking _ _ Hi) as Hr. cbn [rank] in Hr. lia.
  - injection H as <-. cbn [stat mpc gs stat_rank].
    pose proof (rank_update i GDeferred _ _ Hi) as Hr. cbn [rank] in Hr. lia.
  - injection H as <-. cbn [stat mpc gs stat_rank].
    pose proof (rank_update i GDeferred _ _ Hi) as Hr. cbn [rank] in Hr. lia.
  - injection H as <-. cbn [stat mpc gs stat_rank].
    pose proof (rank_update i GExited _ _ Hi) as Hr. cbn [rank] in Hr. lia.
  - injection H as <-. cbn [stat mpc gs stat_rank].
    pose proof (rank_update i GAborting _ _ Hi) as Hr. cbn [rank] in Hr. lia.
  - injection H as <-. cbn [stat mpc gs stat_rank]. lia.
  - discriminate.
Qed.

Lemma step_decreases (a : action) (p p' : @process World) :
  step ctx nodehost kaddht a p = Some p' ->
  (measure (length dht_DefaultBootstrapPeers) p' <
   measure (length dht_DefaultBootstrapPeers) p)%nat.
Proof.
  unfold step. destruct (stat p) eqn:Hst; try discriminate.
  destruct a as [|i]; intros H.
  - apply main_step_decreases; assumption.
  - apply (go_step_decreases i); assumption.
Qed.

Lemma run_bounded (sched : list action) :
  forall p p' : @process World,
    run ctx nodehost kaddht sched p = Some p' ->
    (length sched + measure (length dht_DefaultBootstrapPeers) p' <=
     measure (length dht_DefaultBootstrapPeers) p)%nat.
Proof.
  induction sched as [|a sched IH]; intros p p' H; cbn [run length] in *.
  - injection H as <-. lia.
  - destruct (step ctx nodehost kaddht a p) as [p1|] eqn:Hs; [|discriminate].
    apply step_decreases in Hs. apply IH in H. lia.
Qed.

End Bootstrap.

Section BootstrapInvariant.

Context {World : Type} {net : Libp2p World}.

Variables (ctx : Context) (nodehost : host.Host) (kaddht : dht.IpfsDHT).
Variable s0 : @State World.

Hypothesis all_parse : Forall parses dht_DefaultBootstrapPeers.
Hypothesis few_peers : Z.of_nat (length dht_DefaultBootstrapPeers) < 2 ^ 31.
Hypothesis bootstrap_ok : fst (dht_Bootstrap kaddht ctx (world s0)) = None.

Lemma invariant_start : invariant s0 (start s0).
Proof.
  apply (mkInvariant s0 (start s0) []); cbn; try reflexivity; try lia.
  - symmetry. apply app_nil_r.
  - constructor.
  - discriminate.
Qed.

Ltac sums :=
  repeat match goal with
         | H : nth_error ?l ?i = Some _ |- context [sumZ ?f (update ?i ?x ?l)] =>
             rewrite (sumZ_update f i x _ l H)
         end;
  rewrite ?update_length, ?successes_app, ?attempts_app, ?sumZ_app, ?length_app;
  cbn [holds uncounted attempted successes attempts sumZ length].

Lemma invariant_main_step (p p' : @process World) :
  invariant s0 p -> main_step ctx kaddht p = Some p' -> invariant s0 p'.
Proof.
  intros [added Hst Htr Hsane Hwg Hconn Hnn Hle Hatt Htot Hlen Hpc Hrep] H.
  unfold main_step in H. unfold at_pc in Hpc.
  destruct (mpc p) as [|[|m rest]| | |] eqn:Hmpc.
  - (* Bootstrap *)
    subst p. cbn [sys start] in H.
    rewrite bootstrapDHT_head_run in H. cbv zeta in H. rewrite bootstrap_ok in H.
    injection H as <-.
    apply (mkInvariant s0 _
             [CallBootstrap kaddht ctx;
              Logrus TraceLevel [] [AStr "Set the Kademlia DHT into Bootstrap Mode."]]);
      cbn [stat mpc gs wg connectedbootpeers totalbootpeers sys trace start
           sumZ successes attempts length]; try reflexivity; try lia.
    + constructor.
    + unfold at_pc. cbn [mpc gs length]. split; [reflexivity | exact all_parse].
    + discriminate.
  - (* end of the loop *)
    injection H as <-. destruct Hpc as [Hl _]. cbn [length] in Hl.
    apply (mkInvariant s0 _ added);
      cbn [stat mpc gs wg connectedbootpeers totalbootpeers sys];
      try assumption; try reflexivity.
    + unfold at_pc. cbn [mpc gs]. lia.
    + discriminate.
  - (* one more goroutine *)
    injection H as <-. destruct Hpc as [Hl Hrest]. cbn [length] in Hl.
    inversion Hrest as [|? ? Hm Hrest']; subst.
    unfold parses in Hm.
    destruct (peer_AddrInfoFromP2pAddr m) as [pinfo|] eqn:Hparse; [|congruence].
    apply (mkInvariant s0 _ added);
      cbn [stat mpc gs wg connectedbootpeers totalbootpeers sys]; sums;
      try assumption; try reflexivity; try lia.
    + apply Forall_app. split; [exact Hsane | repeat constructor].
    + rewrite Htot. rewrite int32_small; lia.
    + unfold at_pc. cbn [mpc gs]. rewrite length_app. cbn [length].
      split; [lia | exact Hrest'].
    + discriminate.
  - (* Wait *)
    destruct (Z.eqb_spec (wg p) 0) as [Hz|]; [|discriminate].
    injection H as <-.
    apply (mkInvariant s0 _ added);
      cbn [stat mpc gs wg connectedbootpeers totalbootpeers sys];
      try assumption; try reflexivity.
    + unfold at_pc. cbn [mpc gs]. split; [exact Hpc|].
      apply none_holding_all_exited; [exact Hsane | lia].
    + discriminate.
  - (* Log *)
    injection H as <-.
    apply (mkInvariant s0 _ (added ++ [report (connectedbootpeers p) (totalbootpeers p)]));
      cbn [stat mpc gs wg connectedbootpeers totalbootpeers sys emit snd trace];
      sums; unfold report; cbn [successes attempts];
      try assumption; try reflexivity; try lia.
    + rewrite Htr, <- app_assoc. reflexivity.
    + intros _. exists added. reflexivity.
  - discriminate.
Qed.

Lemma invariant_go_step (i : nat) (p p' : @process World) :
  invariant s0 p -> go_step ctx nodehost i p = Some p' -> invariant s0 p'.
Proof.
  intros [added Hst Htr Hsane Hwg Hconn Hnn Hle Hatt Htot Hlen Hpc Hrep] H.
  unfold go_step in H.
  destruct (nth_error (gs p) i) as [g|] eqn:Hi; [|discriminate].
  assert (Hg : sane g).
  { rewrite Forall_forall in Hsane. apply Hsane. eapply nth_error_In; eassumption. }
  assert (Hpc' : forall gs' : list goroutine, length gs' = length (gs p) ->
                   g <> GExited ->
                   mpc p <> PReturned /\
                   match mpc p with
                   | PBootstrap => False
                   | PRange rest =>
                       (length gs' + length rest =
                        length dht_DefaultBootstrapPeers)%nat /\
                       Forall parses rest
                   | PWait => length gs' = length dht_DefaultBootstrapPeers
                   | PLog | PReturned => False
                   end).
  { intros gs' Hl Hne. unfold at_pc in Hpc.
    destruct (mpc p) as [|rest| | |] eqn:Hmpc.
    - subst p. cbn [gs start] in Hi. destruct i; discriminate.
    - split; [discriminate|]. rewrite Hl. exact Hpc.
    - split; [discriminate|]. rewrite Hl. exact Hpc.
    - exfalso. apply Hne. destruct Hpc as [_ Hall]. rewrite Forall_forall in Hall.
      apply Hall. eapply nth_error_In; eassumption.
    - exfalso. apply Hne. destruct Hpc as [_ Hall]. rewrite Forall_forall in Hall.
      apply Hall. eapply nth_error_In; eassumption. }
  pose proof (sumZ_bounds uncounted (gs p) uncounted_bounds) as Bu.
  pose proof (sumZ_bounds attempted (gs p) attempted_bounds) as Ba.
  destruct g as [[pinfo|]|[e|]| | | |]; cbn [sane] in Hg; try contradiction.
  - (* Connect *)
    unfold Connect, call in H.
    destruct (host_Connect nodehost ctx pinfo (world (sys p))) as [err w1].
    injection H as <-.
    destruct (Hpc' (update i (GConnected err) (gs p)) (update_length _ _ _) ltac:(discriminate))
      as [Hnr Hpc2].
    apply (mkInvariant s0 _ (added ++ [CallConnect nodehost ctx pinfo err]));
      cbn [stat mpc gs wg connectedbootpeers totalbootpeers sys trace]; sums;
      try assumption; try reflexivity; try lia; try (intros Hr; contradiction).
    + rewrite Htr, <- app_assoc. reflexivity.
    + apply update_Forall; [exact Hsane | exact I].
    + destruct err; cbn [uncounted successes]; lia.
    + destruct err; cbn [uncounted]; lia.
    + unfold at_pc. cbn [mpc gs]. destruct (mpc p); try contradiction; exact Hpc2.
  - (* Connect failed *)
    injection H as <-.
    destruct (Hpc' (update i GDeferred (gs p)) (update_length _ _ _) ltac:(discriminate))
      as [Hnr Hpc2].
    apply (mkInvariant s0 _ added);
      cbn [stat mpc gs wg connectedbootpeers totalbootpeers sys trace]; sums;
      try assumption; try reflexivity; try lia; try (intros Hr; contradiction).
    + apply update_Forall; [exact Hsane | exact I].
    + unfold at_pc. cbn [mpc gs]. destruct (mpc p); try contradiction; exact Hpc2.
  - (* Connect succeeded: count it *)
    injection H as <-.
    destruct (Hpc' (update i GDeferred (gs p)) (update_length _ _ _) ltac:(discriminate))
      as [Hnr Hpc2].
    pose proof (sumZ_bounds uncounted (update i GDeferred (gs p)) uncounted_bounds) as Bu'.
    rewrite (sumZ_update uncounted i GDeferred _ _ Hi) in Bu'. cbn [uncounted] in Bu'.
    assert (Hsmall : int32 (connectedbootpeers p + 1) = connectedbootpeers p + 1)
      by (apply int32_small; lia).
    apply (mkInvariant s0 _ added);
      cbn [stat mpc gs wg connectedbootpeers totalbootpeers sys trace]; sums;
      rewrite ?Hsmall; try assumption; try reflexivity; try lia;
      try (intros Hr; contradiction).
    + apply update_Forall; [exact Hsane | exact I].
    + unfold at_pc. cbn [mpc gs]. destruct (mpc p); try contradiction; exact Hpc2.
  - (* wg.Done *)
    injection H as <-.
    destruct (Hpc' (update i GExited (gs p)) (update_length _ _ _) ltac:(discriminate))
      as [Hnr Hpc2].
    apply (mkInvariant s0 _ added);
      cbn [stat mpc gs wg connectedbootpeers totalbootpeers sys trace]; sums;
      try assumption; try reflexivity; try lia; try (intros Hr; contradiction).
    + apply update_Forall; [exact Hsane | exact I].
    + unfold at_pc. cbn [mpc gs]. destruct (mpc p); try contradiction; exact Hpc2.
  - discriminate.
Qed.

Lemma invariant_step (a : action) (p p' : @process World) :
  invariant s0 p -> step ctx nodehost kaddht a p = Some p' -> invariant s0 p'.
Proof.
  intros Hinv H. unfold step in H. destruct (stat p); try discriminate.
  destruct a as [|i].
  - eapply invariant_main_step; eassumption.
  - eapply invariant_go_step; eassumption.
Qed.

Lemma invariant_run (sched : list action) :
  forall p p' : @process World,
    invariant s0 p -> run ctx nodehost kaddht sched p = Some p' -> invariant s0 p'.
Proof.
  induction sched as [|a sched IH]; intros p p' Hinv H; cbn [run] in H.
  - injection H as <-. exact Hinv.
  - destruct (step ctx nodehost kaddht a p) as [p1|] eqn:Hs; [|discriminate].
    eapply IH; [|exact H]. eapply invariant_step; eassumption.
Qed.

(** Before it returns the process can always take a step. *)
Lemma invariant_progress (p : @process World) :
  invariant s0 p -> mpc p <> PReturned ->
  exists a p', step ctx nodehost kaddht a p = Some p'.
Proof.
  intros [added Hst Htr Hsane Hwg Hconn Hnn Hle Hatt Htot Hlen Hpc Hrep] Hnr.
  unfold step. rewrite Hst.
  destruct (mpc p) as [|[|m rest]| | |] eqn:Hmpc; try contradiction.
  - exists MainStep. unfold main_step. rewrite Hmpc.
    destruct (bootstrapDHT_head ctx kaddht (sys p)) as [[[]|code] s1]; eauto.
  - exists MainStep. unfold main_step. rewrite Hmpc. eauto.
  - exists MainStep. unfold main_step. rewrite Hmpc. eauto.
  - destruct (Z.eq_dec (wg p) 0) as [Hz|Hz].
    + exists MainStep. unfold main_step. rewrite Hmpc, Hz. cbn. eauto.
    + pose proof (sumZ_bounds holds (gs p) holds_bounds) as Bh.
      destruct (some_holding (gs p)) as [i [g [Hi Hg]]]; [lia|].
      assert (Hsg : sane g).
      { rewrite Forall_forall in Hsane. apply Hsane. eapply nth_error_In; eassumption. }
      exists (GoStep i). unfold go_step. rewrite Hi.
      destruct g as [[pinfo|]|[e|]| | | |]; cbn [sane holds] in *;
        try contradiction; try discriminate; eauto.
      destruct (Connect nodehost ctx pinfo (sys p)) as [[err|code] s1]; eauto.
  - exists MainStep. unfold main_step. rewrite Hmpc. eauto.
Qed.

(** C2.  When [Bootstrap] succeeds, every bootstrap address has
    address info and there are fewer than [2^31] of them: every
    execution of [bootstrapDHT] is finite, the process keeps running
    and can always take a step until the function has returned, and
    when it has returned every goroutine has exited, as many [Connect]
    calls as bootstrap peers have returned, and the last event reports
    the number of successful calls out of the number of peers.  With
    no bootstrap peer the main goroutine returns in four steps of its
    own and reports 0 out of 0. *)
Theorem bootstrapDHT_reports_attempted_and_succeeded :
  (forall sched p,
      bootstrapDHT ctx nodehost kaddht sched s0 = Some p ->
      (length sched <= 4 * length dht_DefaultBootstrapPeers + 5)%nat /\
      stat p = Running /\
      (mpc p <> PReturned -> exists a p', step ctx nodehost kaddht a p = Some p') /\
      (mpc p = PReturned ->
       exists added,
         trace (sys p) = trace s0 ++ added /\
         length (gs p) = length dht_DefaultBootstrapPeers /\
         Forall (fun g => g = GExited) (gs p) /\
         attempts added = Z.of_nat (length dht_DefaultBootstrapPeers) /\
         exists tr,
           added = tr ++ [report (successes added)
                            (Z.of_nat (length dht_DefaultBootstrapPeers))])) /\
  (dht_DefaultBootstrapPeers = [] ->
   exists p,
     bootstrapDHT ctx nodehost kaddht [MainStep; MainStep; MainStep; MainStep] s0 = Some p /\
     mpc p = PReturned /\ gs p = [] /\
     exists tr, trace (sys p) = trace s0 ++ tr ++ [report 0 0]).
Proof.
  split.
  - intros sched p Hrun. unfold bootstrapDHT in Hrun.
    pose proof (run_bounded ctx nodehost kaddht sched _ _ Hrun) as Hb.
    pose proof (invariant_run sched _ _ invariant_start Hrun) as Hinv.
    split.
    { unfold measure in Hb.
      cbn [stat mpc gs start stat_rank main_rank map list_sum fold_right] in Hb.
      lia. }
    split; [destruct Hinv; assumption|].
    split; [apply invariant_progress; exact Hinv|].
    intros Hret.
    destruct Hinv as [added Hst Htr Hsane Hwg Hconn Hnn Hle Hatt Htot Hlen Hpc Hrep].
    unfold at_pc in Hpc. rewrite Hret in Hpc. destruct Hpc as [Hl Hall].
    destruct (all_exited_sums _ Hall) as [_ [Hu Ha]].
    exists added. split; [exact Htr|]. split; [exact Hl|]. split; [exact Hall|].
    split; [rewrite Hatt, Ha, Hl; reflexivity|].
    destruct (Hrep Hret) as [tr Htreq]. exists tr.
    rewrite Htreq at 1. repeat f_equal.
    + rewrite <- Hconn, Hu. lia.
    + rewrite Htot, Hl. reflexivity.
  - intros Hnone.
    unfold bootstrapDHT. cbn [run]. unfold step at 1. cbn [stat start].
    unfold main_step at 1. cbn [mpc start sys].
    rewrite bootstrapDHT_head_run. cbv zeta. rewrite bootstrap_ok, Hnone.
    cbn [gs wg connectedbootpeers totalbootpeers start].
    unfold step, main_step.
    cbn [stat mpc gs wg connectedbootpeers totalbootpeers sys Z.eqb emit snd trace world self].
    eexists. split; [reflexivity|]. cbn [mpc gs sys trace].
    split; [reflexivity|]. split; [reflexivity|].
    eexists. rewrite <- app_assoc. reflexivity.
Qed.

End BootstrapInvariant.

(* ================================================================= *)
(** ** [handlePeerDiscovery]: what it writes *)

Lemma handler_events_snoc nodehost ps errs p err :
  length ps = length errs ->
  handler_events nodehost (ps ++ [p]) (errs ++ [err]) =
  handler_events nodehost ps errs ++ peer_events nodehost p err.
Proof.
  revert errs. induction ps as [|q ps IH]; intros [|e errs] Hlen; try discriminate.
  - cbn [app handler_events]. rewrite app_nil_r. reflexivity.
  - cbn [app handler_events]. rewrite IH by (cbn [length] in Hlen; lia).
    rewrite <- app_assoc. reflexivity.
Qed.

Lemma connect_targets_handler_events nodehost ps errs :
  length ps = length errs ->
  connect_targets (handler_events nodehost ps errs) = ps.
Proof.
  revert errs. induction ps as [|q ps IH]; intros [|e errs] Hlen; try discriminate;
    [reflexivity|].
  cbn [handler_events]. rewrite connect_targets_app, connect_targets_peer_events.
  rewrite IH by (cbn [length] in Hlen; lia). reflexivity.
Qed.

Lemma printed_app (l1 l2 : list Event) : printed (l1 ++ l2) = printed l1 ++ printed l2.
Proof.
  induction l1 as [|e l1 IH]; [reflexivity|].
  destruct e; cbn [app printed]; rewrite IH; reflexivity.
Qed.

Lemma printed_handler_events nodehost ps errs :
  length ps = length errs ->
  printed (handler_events nodehost ps errs) = map success_line ps.
Proof.
  revert errs. induction ps as [|q ps IH]; intros [|e errs] Hlen; try discriminate;
    [reflexivity|].
  cbn [handler_events map]. rewrite printed_app.
  rewrite IH by (cbn [length] in Hlen; lia).
  destruct e; reflexivity.
Qed.

Lemma failures_handler_events nodehost ps errs e :
  length ps = length errs -> In (Some e) errs ->
  failure_logged e (handler_events nodehost ps errs).
Proof.
  unfold failure_logged.
  revert errs. induction ps as [|q ps IH]; intros [|e' errs] Hlen Hin;
    try discriminate; try contradiction.
  cbn [handler_events]. apply Exists_app. destruct Hin as [->|Hin].
  - left. unfold peer_events. apply Exists_cons_tl. apply Exists_cons_hd.
    cbn [mentions In]. right. right. left. reflexivity.
  - right. apply IH; [cbn [length] in Hlen; lia | exact Hin].
Qed.

Lemma no_fatal_handler_events nodehost ps errs :
  forallb (fun ev => negb (is_fatal ev)) (handler_events nodehost ps errs) = true.
Proof.
  revert errs. induction ps as [|q ps IH]; intros [|e errs]; try reflexivity.
  cbn [handler_events]. rewrite forallb_app, IH, andb_true_r.
  destruct e; reflexivity.
Qed.

Section HandlerTrace.

Context {World : Type} {net : Libp2p World}.

Lemma shaped_step nodehost (s : @State World) (t : @task World) (ev : chan_event) :
  (exists ps errs,
      length ps = length errs /\
      trace (tstate t) = trace s ++ handler_events nodehost ps errs) ->
  exists ps errs,
    length ps = length errs /\
    trace (tstate (handlePeerDiscovery_step nodehost t ev)) =
    trace s ++ handler_events nodehost ps errs.
Proof.
  intros [ps [errs [Hlen Htr]]].
  destruct ev as [p| |]; cbn [handlePeerDiscovery_step].
  - destruct (closed (peerchan t)); exists ps, errs; split; assumption.
  - exists ps, errs. split; assumption.
  - destruct (tpc t); try (exists ps, errs; split; assumption).
    destruct (pending (peerchan t)) as [|p rest].
    + destruct (closed (peerchan t)); exists ps, errs; split; assumption.
    + rewrite handlePeer_run. destruct (nonself nodehost p).
      * cbv zeta. cbn [tstate trace].
        exists (ps ++ [p]),
          (errs ++ [fst (host_Connect nodehost Background p (world (tstate t)))]).
        split; [rewrite !length_app; cbn [length]; lia|].
        rewrite handler_events_snoc by exact Hlen.
        rewrite Htr, <- app_assoc. reflexivity.
      * exists ps, errs. split; assumption.
Qed.

Lemma shaped_history nodehost (history : list chan_event) (s : @State World) :
  exists ps errs,
    length ps = length errs /\
    trace (tstate (handlePeerDiscovery nodehost history s)) =
    trace s ++ handler_events nodehost ps errs.
Proof.
  unfold handlePeerDiscovery.
  assert (H : exists ps errs,
             length ps = length errs /\
             trace (tstate (spawn s)) = trace s ++ handler_events nodehost ps errs).
  { exists [], []. split; [reflexivity|]. cbn. symmetry. apply app_nil_r. }
  revert H. generalize (spawn s).
  induction history as [|ev history IH]; intros t H; [exact H|].
  cbn [fold_left]. apply IH. apply shaped_step. exact H.
Qed.

(** X1.  For every peer it connects to, [handlePeerDiscovery] writes the
    two "connection success" lines whatever [Connect] returned; a failed
    [Connect] adds, before them, a debug entry with its error.  The
    events of the goroutine are exactly those of the received peers
    other than the host, in order. *)
Theorem handlePeerDiscovery_reports_success_whatever_Connect_returns
        (nodehost : host.Host) (history : list chan_event) (s : @State World) :
  let t := handlePeerDiscovery nodehost history s in
  exists received errs,
    accepted history = received ++ pending (peerchan t) /\
    length errs = length (filter (nonself nodehost) received) /\
    trace (tstate t) =
    trace s ++ handler_events nodehost (filter (nonself nodehost) received) errs /\
    printed (handler_events nodehost (filter (nonself nodehost) received) errs) =
    map success_line (filter (nonself nodehost) received) /\
    (forall e, In (Some e) errs ->
               failure_logged e
                 (handler_events nodehost (filter (nonself nodehost) received) errs)).
Proof.
  cbv zeta.
  destruct (handled_history nodehost history s)
    as [received added Hsplit Htrace Htargets _ _ _ _].
  destruct (shaped_history nodehost history s) as [ps [errs [Hlen Hshape]]].
  rewrite Htrace in Hshape. apply app_inv_head in Hshape. subst added.
  rewrite connect_targets_handler_events in Htargets by exact Hlen. subst ps.
  exists received, errs.
  split; [exact Hsplit|]. split; [symmetry; exact Hlen|].
  split; [exact Htrace|].
  split; [apply printed_handler_events; exact Hlen|].
  intros e Hin. apply failures_handler_events; assumption.
Qed.

(** X2.  [handlePeerDiscovery] never ends the process: whatever the
    channel delivers and whatever [Connect] returns, the goroutine is in
    its loop or has returned, it has written no fatal entry, and the
    [P2P] structure is as it was. *)
Theorem handlePeerDiscovery_never_ends_the_process
        (nodehost : host.Host) (history : list chan_event) (s : @State World) :
  let t := handlePeerDiscovery nodehost history s in
  tpc t <> Killed /\
  self (tstate t) = self s /\
  exists added,
    trace (tstate t) = trace s ++ added /\
    forallb (fun ev => negb (is_fatal ev)) added = true.
Proof.
  cbv zeta.
  destruct (handled_history nodehost history s)
    as [received added _ Htrace _ _ Hself Halive _].
  destruct (shaped_history nodehost history s) as [ps [errs [Hlen Hshape]]].
  split; [exact Halive|]. split; [exact Hself|].
  exists (handler_events nodehost ps errs).
  split; [exact Hshape | apply no_fatal_handler_events].
Qed.

End HandlerTrace.

(* ================================================================= *)
(** ** [bootstrapDHT] on any network: the peers it connects to, its
       wait group, its log *)

Lemma connect_hosts_app (l1 l2 : list Event) :
  connect_hosts (l1 ++ l2) = connect_hosts l1 ++ connect_hosts l2.
Proof.
  induction l1 as [|e l1 IH]; [reflexivity|].
  destruct e; cbn [app connect_hosts]; rewrite IH; reflexivity.
Qed.

Lemma spawned_update_same (i : nat) (g g' : goroutine) (l : list goroutine) :
  nth_error l i = Some g -> spawned_target g' = spawned_target g ->
  flat_map spawned_target (update i g' l) = flat_map spawned_target l.
Proof.
  revert i. induction l as [|y l IH]; intros i Hi Heq.
  - destruct i; discriminate.
  - destruct i; cbn [update flat_map nth_error] in *.
    + injection Hi as ->. rewrite Heq. reflexivity.
    + rewrite (IH i Hi Heq). reflexivity.
Qed.

Lemma spawned_update_take (i : nat) (peerinfo : peer.AddrInfo) (g' : goroutine)
      (l : list goroutine) :
  nth_error l i = Some (GSpawned (Some peerinfo)) -> spawned_target g' = [] ->
  Permutation (flat_map spawned_target l)
              (peerinfo :: flat_map spawned_target (update i g' l)).
Proof.
  revert i. induction l as [|y l IH]; intros i Hi Heq.
  - destruct i; discriminate.
  - destruct i; cbn [update flat_map nth_error] in *.
    + injection Hi as ->. rewrite Heq. cbn [spawned_target app]. reflexivity.
    + rewrite (IH i Hi Heq). symmetry. apply Permutation_middle.
Qed.

Lemma sumZ_holds_nth (i : nat) (g : goroutine) (l : list goroutine) :
  nth_error l i = Some g -> holds g <= sumZ holds l.
Proof.
  intros Hi.
  pose proof (sumZ_update holds i GExited g l Hi) as Hu.
  pose proof (sumZ_bounds holds (update i GExited l) holds_bounds) as Hb.
  cbn [holds] in Hu. lia.
Qed.

Lemma failure_logged_snoc (e : error) (tr : list Event) (ev : Event) :
  failure_logged e (tr ++ [ev]) -> failure_logged e tr \/ mentions e ev.
Proof.
  unfold failure_logged. intros H. apply Exists_app in H. destruct H as [H|H].
  - left. exact H.
  - right. inversion H as [? ? Hm|? ? Hn]; subst; [exact Hm | inversion Hn].
Qed.

Lemma Exists_update_other {A} (P : A -> Prop) (i : nat) (x old : A) (l : list A) :
  nth_error l i = Some old -> Exists P l -> (P old -> P x) -> Exists P (update i x l).
Proof.
  revert i. induction l as [|y l IH]; intros i Hi Hex Himp.
  - destruct i; discriminate.
  - destruct i; cbn [update nth_error] in *.
    + injection Hi as ->. inversion Hex as [? ? Hy|? ? Hl]; subst.
      * apply Exists_cons_hd. apply Himp. exact Hy.
      * apply Exists_cons_tl. exact Hl.
    + inversion Hex as [? ? Hy|? ? Hl]; subst.
      * apply Exists_cons_hd. exact Hy.
      * apply Exists_cons_tl. apply (IH i); assumption.
Qed.

Lemma Exists_nth_error {A} (P : A -> Prop) (l : list A) :
  Exists P l -> exists i x, nth_error l i = Some x /\ P x.
Proof.
  induction 1 as [x l Hx|y l _ [i [x [Hi Hx]]]].
  - exists 0%nat, x. split; [reflexivity | exact Hx].
  - exists (S i), x. split; assumption.
Qed.

Section BootstrapSound.

Context {World : Type} {net : Libp2p World}.

Variables (ctx : Context) (nodehost : host.Host) (kaddht : dht.IpfsDHT).
Variable s0 : @State World.

Lemma sound_start : sound ctx nodehost kaddht s0 (start s0).
Proof.
  apply (mkSound ctx nodehost kaddht s0 (start s0) []); cbn;
    try reflexivity; try constructor; try discriminate;
    try (symmetry; apply app_nil_r); try (intros e H; inversion H).
Qed.


Lemma sound_main_step (p p' : @process World) :
  stat p = Running ->
  sound ctx nodehost kaddht s0 p -> main_step ctx kaddht p = Some p' ->
  sound ctx nodehost kaddht s0 p'.
Proof.
  intros Hst [added Htr Hself Hstart Hwg Hlen Hperm Hctx Hhost Herr Hwait Hrep] H.
  unfold main_step in H.
  destruct (mpc p) as [|[|m rest]| | |] eqn:Hmpc.
  - (* Bootstrap *)
    rewrite (Hstart eq_refl Hst) in H. cbn [sys start gs wg connectedbootpeers
                                             totalbootpeers] in H.
    rewrite bootstrapDHT_head_run in H. cbv zeta in H.
    destruct (fst (dht_Bootstrap kaddht ctx (world s0))) as [err|] eqn:Hboot;
      injection H as <-.
    + apply (mkSound ctx nodehost kaddht s0 _
               [CallBootstrap kaddht ctx; fatal err "Failed to Bootstrap the Kademlia!"]);
        cbn [stat mpc gs wg sys trace sumZ length upcoming connect_targets
             connect_contexts connect_hosts flat_map app fatal];
        try reflexivity; try constructor; try discriminate.
      * intros e Hlog. unfold failure_logged in Hlog.
        rewrite !Exists_cons, Exists_nil in Hlog. cbn [mentions map snd In] in Hlog.
        destruct Hlog as [[]|[[[<-|[]]|[E|[]]]|[]]];
          [rewrite Hboot; reflexivity | discriminate E].
    + apply (mkSound ctx nodehost kaddht s0 _
               [CallBootstrap kaddht ctx;
                Logrus TraceLevel [] [AStr "Set the Kademlia DHT into Bootstrap Mode."]]);
        cbn [stat mpc gs wg sys trace sumZ length upcoming connect_targets
             connect_contexts connect_hosts flat_map app];
        try reflexivity; try constructor; try discriminate.
      * intros e Hlog. unfold failure_logged in Hlog.
        rewrite !Exists_cons, Exists_nil in Hlog. cbn [mentions map snd In] in Hlog.
        destruct Hlog as [[]|[[[]|[E|[]]]|[]]]. discriminate E.
  - (* end of the loop *)
    injection H as <-.
    apply (mkSound ctx nodehost kaddht s0 _ added);
      cbn [stat mpc gs wg connectedbootpeers totalbootpeers sys upcoming] in *; try assumption; try discriminate.
    intros [E|E]; discriminate E.
  - (* one more goroutine *)
    injection H as <-.
    apply (mkSound ctx nodehost kaddht s0 _ added);
      cbn [stat mpc gs wg connectedbootpeers totalbootpeers sys upcoming] in *; try assumption; try discriminate.
    + rewrite sumZ_app. cbn [sumZ holds]. lia.
    + rewrite length_app. cbn [length] in *. lia.
    + rewrite flat_map_app. cbn [flat_map]. rewrite app_nil_r.
      unfold parsed in *. cbn [flat_map] in Hperm.
      rewrite <- !app_assoc.
      destruct (peer_AddrInfoFromP2pAddr m) as [peerinfo|]; exact Hperm.
    + intros [E|E]; discriminate E.
  - (* Wait *)
    destruct (Z.eqb_spec (wg p) 0) as [Hz|]; [|discriminate].
    injection H as <-.
    apply (mkSound ctx nodehost kaddht s0 _ added);
      cbn [stat mpc gs wg connectedbootpeers totalbootpeers sys upcoming] in *; try assumption; try discriminate.
    intros _. exact Hz.
  - (* Log *)
    injection H as <-.
    apply (mkSound ctx nodehost kaddht s0 _
             (added ++ [report (connectedbootpeers p) (totalbootpeers p)]));
      cbn [stat mpc gs wg connectedbootpeers totalbootpeers sys upcoming emit snd trace self] in *;
      try assumption; try discriminate.
    + rewrite Htr, <- app_assoc. reflexivity.
    + rewrite connect_targets_app. cbn [connect_targets report]. rewrite app_nil_r.
      exact Hperm.
    + rewrite connect_contexts_app. cbn [connect_contexts report]. rewrite app_nil_r.
      exact Hctx.
    + rewrite connect_hosts_app. cbn [connect_hosts report]. rewrite app_nil_r.
      exact Hhost.
    + intros e Hlog. apply failure_logged_snoc in Hlog. destruct Hlog as [Hlog|Hm].
      * apply Herr. exact Hlog.
      * cbn [mentions report map snd In] in Hm.
        destruct Hm as [[]|[E|[E|[E|[]]]]]; discriminate E.
    + intros _. apply Hwait. left. reflexivity.
    + intros _. exists added. reflexivity.
  - discriminate.
Qed.

Ltac go_frame Hi :=
  try assumption;
  try (intros ?; contradiction);
  try (rewrite (sumZ_update holds _ _ _ _ Hi); cbn [holds]; lia);
  try (rewrite update_length; assumption);
  try (rewrite (spawned_update_same _ _ _ _ Hi) by reflexivity; assumption);
  try (match goal with
       | Hw : _ -> wg _ = 0, Hh : holds _ <= _ |- _ -> _ = 0 =>
           let Hpc := fresh in intros Hpc; specialize (Hw Hpc); cbn [holds] in Hh; lia
       end);
  try (match goal with
       | Hw : _ -> wg _ = 0, Hh : holds _ <= _ |- _ = PReturned -> _ =>
           let Hpc := fresh in
           intros Hpc; specialize (Hw (or_intror Hpc)); cbn [holds] in Hh; lia
       end).

Lemma sound_go_step (i : nat) (p p' : @process World) :
  stat p = Running ->
  sound ctx nodehost kaddht s0 p -> go_step ctx nodehost i p = Some p' ->
  sound ctx nodehost kaddht s0 p'.
Proof.
  intros Hst [added Htr Hself Hstart Hwg Hlen Hperm Hctx Hhost Herr Hwait Hrep] H.
  unfold go_step in H.
  destruct (nth_error (gs p) i) as [g|] eqn:Hi; [|discriminate].
  assert (Hnb : mpc p <> PBootstrap).
  { intros E. rewrite (Hstart E Hst) in Hi. cbn [gs start] in Hi.
    destruct i; discriminate. }
  pose proof (sumZ_holds_nth i g (gs p) Hi) as Hheld.
  destruct g as [[peerinfo|]|[e|]| | | |].
  - (* Connect *)
    unfold Connect, call in H.
    destruct (host_Connect nodehost ctx peerinfo (world (sys p))) as [err w1].
    injection H as <-.
    apply (mkSound ctx nodehost kaddht s0 _
             (added ++ [CallConnect nodehost ctx peerinfo err]));
      cbn [stat mpc gs wg connectedbootpeers totalbootpeers sys trace self] in *; try assumption.
    + rewrite Htr, <- app_assoc. reflexivity.
    + intros E. contradiction.
    + rewrite (sumZ_update holds i _ _ _ Hi). cbn [holds]. lia.
    + rewrite update_length. exact Hlen.
    + rewrite connect_targets_app. cbn [connect_targets].
      rewrite <- app_assoc. cbn [app].
      rewrite <- Hperm. apply Permutation_app_head.
      change (peerinfo :: flat_map spawned_target (update i (GConnected err) (gs p))
                ++ parsed (upcoming (mpc p)))
        with ((peerinfo :: flat_map spawned_target (update i (GConnected err) (gs p)))
                ++ parsed (upcoming (mpc p))).
      apply Permutation_app_tail. symmetry.
      apply spawned_update_take; [exact Hi | reflexivity].
    + rewrite connect_contexts_app. cbn [connect_contexts].
      apply Forall_app. split; [exact Hctx | repeat constructor].
    + rewrite connect_hosts_app. cbn [connect_hosts].
      apply Forall_app. split; [exact Hhost | repeat constructor].
    + intros e Hlog. apply failure_logged_snoc in Hlog. destruct Hlog as [Hlog|[]].
      apply Herr. exact Hlog.
    + intros Hpc. specialize (Hwait (or_intror Hpc)). cbn [holds] in Hheld. lia.
  - (* nil pointer dereference *)
    injection H as <-.
    apply (mkSound ctx nodehost kaddht s0 _ added);
      cbn [stat mpc gs wg connectedbootpeers totalbootpeers sys trace self] in *; go_frame Hi.
  - (* Connect failed *)
    injection H as <-.
    apply (mkSound ctx nodehost kaddht s0 _ added);
      cbn [stat mpc gs wg connectedbootpeers totalbootpeers sys trace self] in *; go_frame Hi.
  - (* Connect succeeded *)
    injection H as <-.
    apply (mkSound ctx nodehost kaddht s0 _ added);
      cbn [stat mpc gs wg connectedbootpeers totalbootpeers sys trace self] in *; go_frame Hi.
  - (* wg.Done *)
    injection H as <-.
    apply (mkSound ctx nodehost kaddht s0 _ added);
      cbn [stat mpc gs wg connectedbootpeers totalbootpeers sys trace self] in *; go_frame Hi.
  - (* wg.Done of a panicking goroutine *)
    injection H as <-.
    apply (mkSound ctx nodehost kaddht s0 _ added);
      cbn [stat mpc gs wg connectedbootpeers totalbootpeers sys trace self] in *; go_frame Hi.
  - (* crash *)
    injection H as <-.
    apply (mkSound ctx nodehost kaddht s0 _ added);
      cbn [stat mpc gs wg connectedbootpeers totalbootpeers sys trace self] in *; go_frame Hi.
  - discriminate.
Qed.

Lemma sound_run (sched : list action) :
  forall p p' : @process World,
    sound ctx nodehost kaddht s0 p -> run ctx nodehost kaddht sched p = Some p' ->
    sound ctx nodehost kaddht s0 p'.
Proof.
  induction sched as [|a sched IH]; intros p p' Hs H; cbn [run] in H.
  - injection H as <-. exact Hs.
  - destruct (step ctx nodehost kaddht a p) as [p1|] eqn:Hstep; [|discriminate].
    eapply IH; [|exact H].
    unfold step in Hstep. destruct (stat p) eqn:Hst; try discriminate.
    destruct a as [|i].
    + eapply sound_main_step; eassumption.
    + eapply sound_go_step; eassumption.
Qed.

Lemma holds_zero_done (l : list goroutine) :
  sumZ holds l = 0 -> Forall (fun g => g = GExited \/ g = GAborting) l.
Proof.
  induction l as [|g l IH]; intros Hs; [constructor|].
  cbn [sumZ] in Hs.
  pose proof (holds_bounds g). pose proof (sumZ_bounds holds l holds_bounds).
  constructor; [|apply IH; lia].
  destruct g; cbn [holds] in *; try lia; auto.
Qed.

Lemma done_not_spawned (l : list goroutine) :
  Forall (fun g => g = GExited \/ g = GAborting) l -> flat_map spawned_target l = [].
Proof.
  induction 1 as [|g l [->| ->] _ IH]; [reflexivity | |]; cbn [flat_map spawned_target app];
    exact IH.
Qed.

(** X3.  [bootstrapDHT] calls [Connect] once for each bootstrap address
    that has address info, on the host and with the context it was
    given: at any point of any execution, on any network, the peers of
    the calls made, those of the goroutines started and not yet
    connecting and those of the addresses to come are together the
    address infos of the bootstrap list; once [bootstrapDHT] has
    returned the peers of the calls made are these address infos. *)
Theorem bootstrapDHT_connects_once_to_each_parsed_peer
        (sched : list action) (p : @process World) :
  bootstrapDHT ctx nodehost kaddht sched s0 = Some p ->
  exists added,
    trace (sys p) = trace s0 ++ added /\
    Permutation
      (connect_targets added ++ flat_map spawned_target (gs p)
         ++ parsed (upcoming (mpc p)))
      (parsed dht_DefaultBootstrapPeers) /\
    Forall (eq ctx) (connect_contexts added) /\
    Forall (eq nodehost) (connect_hosts added) /\
    (mpc p = PReturned ->
     Permutation (connect_targets added) (parsed dht_DefaultBootstrapPeers)).
Proof.
  intros Hrun. unfold bootstrapDHT in Hrun.
  destruct (sound_run sched _ _ sound_start Hrun)
    as [added Htr Hself Hstart Hwg Hlen Hperm Hctx Hhost Herr Hwait Hrep].
  exists added. split; [exact Htr|]. split; [exact Hperm|].
  split; [exact Hctx|]. split; [exact Hhost|].
  intros Hret. rewrite Hret in Hperm. cbn [upcoming] in Hperm.
  assert (Hz : sumZ holds (gs p) = 0) by (rewrite <- Hwg; apply Hwait; right; exact Hret).
  rewrite (done_not_spawned _ (holds_zero_done _ Hz)) in Hperm.
  unfold parsed in Hperm at 1. cbn [flat_map] in Hperm. rewrite !app_nil_r in Hperm.
  exact Hperm.
Qed.

(** X4.  The wait group of [bootstrapDHT] on any network: its counter is
    the number of goroutines that have not yet run their deferred
    [wg.Done], so it never goes below zero; and [wg.Wait] lets the main
    goroutine go on only when a goroutine has been started for every
    bootstrap address and every one of them has run its [wg.Done],
    whatever [Connect] returned. *)
Theorem bootstrapDHT_waits_for_every_goroutine
        (sched : list action) (p : @process World) :
  bootstrapDHT ctx nodehost kaddht sched s0 = Some p ->
  wg p = sumZ holds (gs p) /\
  0 <= wg p <= Z.of_nat (length dht_DefaultBootstrapPeers) /\
  (mpc p = PLog \/ mpc p = PReturned ->
   length (gs p) = length dht_DefaultBootstrapPeers /\
   Forall (fun g => g = GExited \/ g = GAborting) (gs p)).
Proof.
  intros Hrun. unfold bootstrapDHT in Hrun.
  destruct (sound_run sched _ _ sound_start Hrun)
    as [added Htr Hself Hstart Hwg Hlen Hperm Hctx Hhost Herr Hwait Hrep].
  pose proof (sumZ_bounds holds (gs p) holds_bounds) as Hb.
  split; [exact Hwg|]. split; [lia|].
  intros Hpc. split.
  - destruct Hpc as [E|E]; rewrite E in Hlen; cbn [upcoming length] in Hlen; lia.
  - apply holds_zero_done. rewrite <- Hwg. apply Hwait. exact Hpc.
Qed.

(** X5.  [bootstrapDHT] logs no error of [Connect]: on any network and
    in any execution, an error carried by one of its log entries is the
    error [Bootstrap] returned; when [Bootstrap] succeeds no entry
    carries an error, however many [Connect] calls fail. *)
Theorem bootstrapDHT_logs_no_Connect_error
        (sched : list action) (p : @process World) :
  bootstrapDHT ctx nodehost kaddht sched s0 = Some p ->
  exists added,
    trace (sys p) = trace s0 ++ added /\
    (forall e, failure_logged e added ->
               fst (dht_Bootstrap kaddht ctx (world s0)) = Some e) /\
    (fst (dht_Bootstrap kaddht ctx (world s0)) = None ->
     forall e, ~ failure_logged e added).
Proof.
  intros Hrun. unfold bootstrapDHT in Hrun.
  destruct (sound_run sched _ _ sound_start Hrun)
    as [added Htr Hself Hstart Hwg Hlen Hperm Hctx Hhost Herr Hwait Hrep].
  exists added. split; [exact Htr|]. split; [exact Herr|].
  intros Hok e Hlog. apply Herr in Hlog. congruence.
Qed.

End BootstrapSound.

Section BootstrapDoomed.

Context {World : Type} {net : Libp2p World}.

Variables (ctx : Context) (nodehost : host.Host) (kaddht : dht.IpfsDHT).
Variable s0 : @State World.

Hypothesis bootstrap_ok : fst (dht_Bootstrap kaddht ctx (world s0)) = None.
Hypothesis some_unparsed :
  Exists (fun m => peer_AddrInfoFromP2pAddr m = None) dht_DefaultBootstrapPeers.

Lemma doomed_start : doomed s0 (start s0).
Proof.
  right. split; [reflexivity|]. split; [reflexivity|].
  left. exact some_unparsed.
Qed.

Lemma doomed_step (a : action) (p p' : @process World) :
  doomed s0 p -> step ctx nodehost kaddht a p = Some p' -> doomed s0 p'.
Proof.
  intros Hd H. unfold step in H.
  destruct Hd as [Hc|[Hst [Hstart Hex]]]; [rewrite Hc in H; discriminate|].
  rewrite Hst in H. destruct a as [|i].
  - (* the main goroutine *)
    unfold main_step in H.
    destruct (mpc p) as [|[|m rest]| | |] eqn:Hmpc.
    + rewrite (Hstart eq_refl) in H. cbn [sys start gs wg connectedbootpeers
                                           totalbootpeers] in H.
      rewrite bootstrapDHT_head_run in H. cbv zeta in H. rewrite bootstrap_ok in H.
      injection H as <-. right. cbn [stat mpc gs upcoming].
      split; [reflexivity|]. split; [discriminate|]. left. exact some_unparsed.
    + injection H as <-. right. cbn [stat mpc gs upcoming] in *.
      split; [reflexivity|]. split; [discriminate|].
      destruct Hex as [Hex|Hex]; [inversion Hex | right; exact Hex].
    + injection H as <-. right. cbn [stat mpc gs upcoming] in *.
      split; [reflexivity|]. split; [discriminate|].
      destruct Hex as [Hex|Hex].
      * inversion Hex as [? ? Hm|? ? Hrest]; subst.
        -- right. apply Exists_app. right. rewrite Hm. repeat constructor.
        -- left. exact Hrest.
      * right. apply Exists_app. left. exact Hex.
    + destruct (wg p =? 0); [|discriminate].
      injection H as <-. right. cbn [stat mpc gs upcoming] in *.
      split; [reflexivity|]. split; [discriminate|]. exact Hex.
    + injection H as <-. right. cbn [stat mpc gs upcoming] in *.
      split; [reflexivity|]. split; [discriminate|]. exact Hex.
    + discriminate.
  - (* a goroutine *)
    unfold go_step in H.
    destruct (nth_error (gs p) i) as [g|] eqn:Hi; [|discriminate].
    assert (Hnb : mpc p <> PBootstrap).
    { intros E. rewrite (Hstart E) in Hi. cbn [gs start] in Hi.
      destruct i; discriminate. }
    assert (Hkeep : forall (g' : goroutine) w c t (s : @State World),
               (panics g -> panics g') ->
               doomed s0 (mkProcess Running (mpc p) (update i g' (gs p)) w c t s)).
    { intros g' w c t s Himp. right. cbn [stat mpc gs].
      split; [reflexivity|]. split; [intros E; contradiction|].
      destruct Hex as [Hex|Hex]; [left; exact Hex|].
      right. apply (Exists_update_other panics i g' g); assumption. }
    destruct g as [[peerinfo|]|[e|]| | | |].
    + unfold Connect, call in H.
      destruct (host_Connect nodehost ctx peerinfo (world (sys p))) as [err w1].
      injection H as <-. apply Hkeep. intros [].
    + injection H as <-. apply Hkeep. intros _. exact I.
    + injection H as <-. apply Hkeep. intros [].
    + injection H as <-. apply Hkeep. intros [].
    + injection H as <-. apply Hkeep. intros [].
    + injection H as <-. apply Hkeep. intros _. exact I.
    + injection H as <-. left. reflexivity.
    + discriminate.
Qed.

Lemma doomed_run (sched : list action) :
  forall p p' : @process World,
    doomed s0 p -> run ctx nodehost kaddht sched p = Some p' -> doomed s0 p'.
Proof.
  induction sched as [|a sched IH]; intros p p' Hd H; cbn [run] in H.
  - injection H as <-. exact Hd.
  - destruct (step ctx nodehost kaddht a p) as [p1|] eqn:Hstep; [|discriminate].
    eapply IH; [|exact H]. eapply doomed_step; eassumption.
Qed.

Lemma doomed_progress (p : @process World) :
  doomed s0 p -> stat p = Running ->
  exists a p', step ctx nodehost kaddht a p = Some p'.
Proof.
  intros [Hc|[Hst [Hstart Hex]]] Hrun; [congruence|].
  unfold step. rewrite Hst.
  assert (Hgo : Exists panics (gs p) ->
                exists a p', match a with
                             | MainStep => main_step ctx kaddht p
                             | GoStep i => go_step ctx nodehost i p
                             end = Some p').
  { intros Hp. apply Exists_nth_error in Hp. destruct Hp as [i [g [Hi Hg]]].
    exists (GoStep i). unfold go_step. rewrite Hi.
    destruct g as [[peerinfo|]|[e|]| | | |]; cbn [panics] in Hg;
      try contradiction; eauto. }
  destruct (mpc p) as [|[|m rest]| | |] eqn:Hmpc.
  - exists MainStep. unfold main_step. rewrite Hmpc.
    destruct (bootstrapDHT_head ctx kaddht (sys p)) as [[[]|code] s1]; eauto.
  - exists MainStep. unfold main_step. rewrite Hmpc. eauto.
  - exists MainStep. unfold main_step. rewrite Hmpc. eauto.
  - cbn [upcoming] in Hex. destruct Hex as [Hex|Hex]; [inversion Hex | auto].
  - cbn [upcoming] in Hex. destruct Hex as [Hex|Hex]; [inversion Hex | auto].
  - cbn [upcoming] in Hex. destruct Hex as [Hex|Hex]; [inversion Hex | auto].
Qed.

(** X6.  When [Bootstrap] succeeds and some bootstrap address has no
    address info, every execution of [bootstrapDHT] ends in a crash:
    executions are finite, the process never exits, and as long as it
    has not crashed it can take another step, so it never comes to rest
    with all its goroutines finished. *)
Theorem bootstrapDHT_unparsed_address_always_crashes
        (sched : list action) (p : @process World) :
  bootstrapDHT ctx nodehost kaddht sched s0 = Some p ->
  (length sched <= 4 * length dht_DefaultBootstrapPeers + 5)%nat /\
  (stat p = Running \/ stat p = Crashed) /\
  (stat p = Running -> exists a p', step ctx nodehost kaddht a p = Some p') /\
  ((forall a, step ctx nodehost kaddht a p = None) -> stat p = Crashed).
Proof.
  intros Hrun. unfold bootstrapDHT in Hrun.
  pose proof (run_bounded ctx nodehost kaddht sched _ _ Hrun) as Hb.
  pose proof (doomed_run sched _ _ doomed_start Hrun) as Hd.
  split.
  { unfold measure in Hb.
    cbn [stat mpc gs start stat_rank main_rank map list_sum fold_right] in Hb. lia. }
  assert (Hstat : stat p = Running \/ stat p = Crashed).
  { destruct Hd as [Hc|[Hst _]]; auto. }
  split; [exact Hstat|].
  split; [apply doomed_progress; exact Hd|].
  intros Hstuck. destruct Hstat as [Hst|Hc]; [|exact Hc].
  destruct (doomed_progress p Hd Hst) as [a [p' Hstep]].
  rewrite Hstuck in Hstep. discriminate.
Qed.

End BootstrapDoomed.

(* ================================================================= *)
(** ** The identifier of a service and the discovery calls *)

Lemma Decode_sha2_256 (h : list Z) :
  length h = 32%nat ->
  Multihash.Decode (0x12 :: 0x20 :: h) = Ok (Multihash.mkDecoded Multihash.SHA2_256 32 h).
Proof.
  intros Hlen.
  unfold Multihash.Decode, Multihash.readMultihashFromBuf.
  cbn [length Nat.ltb Nat.leb].
  rewrite (uvarint_single 0x12) by lia. rewrite (uvarint_single 0x20) by lia.
  rewrite Hlen.
  change (Multihash.MaxInt32 <? 32) with false.
  change (Z.of_nat 32 <? 32) with false. cbv iota.
  change (Z.to_nat 32) with 32%nat.
  change (Nat.eqb (34 - 32 + 32) 34) with true. cbv iota.
  rewrite <- Hlen at 1 2. rewrite firstn_all, Hlen. reflexivity.
Qed.

Section Keys.

Context {World : Type} {net : Libp2p World}.

(** X7.  The identifier of [generateCID] decodes back to what it was
    made of: it is the 36 bytes [1], [12], [0x12], [0x20] and the
    SHA-256 digest of the name; its codec is 12, and its multihash
    decodes to the code of SHA2-256, the length 32 and the digest.  So
    two names get the same identifier exactly when their digests are
    equal. *)
Theorem generateCID_identifier_decodes_to_the_digest
        (namestring : string) (s : @State World) :
  exists cidvalue,
    generateCID namestring s = (Done cidvalue, s) /\
    Cid.str cidvalue =
    1 :: 12 :: 0x12 :: 0x20 :: SHA256.Sum256 (bytes_of_string namestring) /\
    length (Cid.str cidvalue) = 36%nat /\
    Cid.Type_ cidvalue = 12 /\
    Multihash.Decode (Cid.Hash cidvalue) =
    Ok (Multihash.mkDecoded Multihash.SHA2_256 32
          (SHA256.Sum256 (bytes_of_string namestring))) /\
    forall other,
      fst (generateCID other s) = Done cidvalue <->
      SHA256.Sum256 (bytes_of_string other) =
      SHA256.Sum256 (bytes_of_string namestring).
Proof.
  pose proof (Sum256_length (bytes_of_string namestring)) as Hlen.
  exists (Cid.NewCidV1 12 (service_multihash namestring)).
  split; [apply generateCID_run|].
  split; [reflexivity|].
  split; [rewrite NewCidV1_str; unfold service_multihash, service_digest;
          cbn [length]; rewrite Hlen; reflexivity|].
  split; [apply Type_NewCidV1_sha2_256; exact Hlen|].
  split.
  { unfold service_multihash, service_digest.
    rewrite Hash_NewCidV1_sha2_256 by exact Hlen. apply Decode_sha2_256. exact Hlen. }
  intros other. rewrite generateCID_run. cbn [fst].
  unfold service_multihash, service_digest. split.
  - intros H.
    apply (f_equal (fun o => match o with
                             | Done c => skipn 4 (Cid.str c)
                             | Exit _ => []
                             end)) in H.
    rewrite !NewCidV1_str in H. exact H.
  - intros H. rewrite H. reflexivity.
Qed.


End Keys.

(* ================================================================= *)
(** ** [setupKadDHT], [setupPubSub], [setupHost] *)

Ltac step_B :=
  unfold bind_B, unit_B, invoke, lift, panic, emit, Fatalln in *;
  cbn [fst snd world trace self] in *.

Section ConstructionRuns.

Context {World : Type} {net : Libp2p World} {lib : Libp2pNew World}.

Lemma setupKadDHT_run (ctx : Context) (nodehost : host.Host) (s : @State World) :
  let peers := dht_GetDefaultBootstrapPeerAddrInfos (world s) in
  let made := dht_New ctx nodehost
                [dht_Mode dht_ModeServer; dht_BootstrapPeers (fst peers)] (snd peers) in
  setupKadDHT ctx nodehost s =
  match snd (fst made) with
  | Some e =>
      (Exits 1,
       mkState (snd made)
         (trace s ++ [dht_configured; fatal e "Failed to Create the Kademlia DHT!"])
         (self s))
  | None =>
      (Returns (fst (fst made), None),
       mkState (snd made) (trace s ++ [dht_configured]) (self s))
  end.
Proof.
  cbv zeta. unfold setupKadDHT, dht_configured, fatal. step_B.
  destruct (dht_GetDefaultBootstrapPeerAddrInfos (world s)) as [peers w1]. step_B.
  destruct (dht_New ctx nodehost _ w1) as [[kaddht [e|]] w2]; step_B.
  - rewrite <- app_assoc. reflexivity.
  - reflexivity.
Qed.

Lemma setupPubSub_run (ctx : Context) (nodehost : host.Host)
      (routingdiscovery : discoveryRouting.RoutingDiscovery) (s : @State World) :
  let made := pubsub_NewGossipSub ctx nodehost
                [pubsub_WithDiscovery routingdiscovery] (world s) in
  setupPubSub ctx nodehost routingdiscovery s =
  match snd (fst made) with
  | Some e =>
      (Exits 1,
       mkState (snd made)
         (trace s ++ [Logrus FatalLevel
                        [("error"%string, e); ("type"%string, "GossipSub"%string)]
                        [AStr "PubSub Handler Creation Failed!"]])
         (self s))
  | None => (Returns (fst (fst made)), mkState (snd made) (trace s) (self s))
  end.
Proof.
  cbv zeta. unfold setupPubSub. step_B.
  destruct (pubsub_NewGossipSub ctx nodehost _ (world s)) as [[ps [e|]] w1]; step_B;
    reflexivity.
Qed.

(** X9.  [setupKadDHT] returns no error: when [dht.New] fails the
    process exits with status 1 after the fatal entry with the error,
    and when [setupKadDHT] returns, the error it returns is nil and the
    table is the one [dht.New] made in server mode; it never panics. *)
Theorem setupKadDHT_returns_no_error
        (ctx : Context) (nodehost : host.Host) (s : @State World) :
  let peers := dht_GetDefaultBootstrapPeerAddrInfos (world s) in
  let made := dht_New ctx nodehost
                [dht_Mode dht_ModeServer; dht_BootstrapPeers (fst peers)] (snd peers) in
  (forall kaddht err s',
      setupKadDHT ctx nodehost s = (Returns (kaddht, err), s') ->
      err = None /\ fst made = (kaddht, None) /\
      s' = mkState (snd made) (trace s ++ [dht_configured]) (self s)) /\
  (forall code s',
      setupKadDHT ctx nodehost s = (Exits code, s') ->
      code = 1 /\
      exists e,
        snd (fst made) = Some e /\
        s' = mkState (snd made)
               (trace s ++ [dht_configured; fatal e "Failed to Create the Kademlia DHT!"])
               (self s)) /\
  (forall v s', setupKadDHT ctx nodehost s <> (Panics v, s')) /\
  (forall e, snd (fst made) = Some e -> fst (setupKadDHT ctx nodehost s) = Exits 1).
Proof.
  cbv zeta. rewrite setupKadDHT_run. cbv zeta.
  destruct (dht_GetDefaultBootstrapPeerAddrInfos (world s)) as [peers w1].
  cbn [fst snd].
  destruct (dht_New ctx nodehost _ w1) as [[kaddht [e|]] w2]; cbn [fst snd].
  - split; [intros k err s' H; discriminate|].
    split.
    { intros code s' H. injection H as <- <-. split; [reflexivity|].
      exists e. split; reflexivity. }
    split; [intros v s' H; discriminate|].
    intros e' _. reflexivity.
  - split.
    { intros k err s' H. injection H as <- <- <-. repeat split. }
    split; [intros code s' H; discriminate|].
    split; [intros v s' H; discriminate|].
    intros e' H. discriminate.
Qed.

Lemma libp2p_New_run_shape (ctx : Context) (run : NewRun World) :
  forall (idht : dht.IpfsDHT) (s : @State World),
    self (snd (libp2p_New_run ctx run idht s)) = self s /\
    match libp2p_New_run ctx run idht s with
    | (Returns (_, _, idht'), s') =>
        (exists k, trace s' = trace s ++ repeat dht_configured k) /\
        (idht' = idht \/
         exists h peers w,
           fst (dht_New ctx h [dht_Mode dht_ModeServer; dht_BootstrapPeers peers] w) =
           (idht', None))
    | (Exits code, s') =>
        code = 1 /\
        exists k e,
          trace s' = trace s ++ repeat dht_configured (S k)
                       ++ [fatal e "Failed to Create the Kademlia DHT!"]
    | (Panics _, _) => False
    end.
Proof.
  induction run as [h2 err w|h w resume IH]; intros idht s; cbn [libp2p_New_run].
  - cbn [snd self trace]. split; [reflexivity|]. split.
    + exists 0%nat. cbn [repeat]. symmetry. apply app_nil_r.
    + left. reflexivity.
  - rewrite setupKadDHT_run. cbv zeta. cbn [world trace self].
    destruct (dht_GetDefaultBootstrapPeerAddrInfos w) as [peers w1] eqn:Hpeers.
    cbn [fst snd].
    destruct (dht_New ctx h _ w1) as [[kaddht [e|]] w2] eqn:Hmade; cbn [fst snd].
    + cbn [self]. split; [reflexivity|]. split; [reflexivity|].
      exists 0%nat, e. reflexivity.
    + specialize (IH kaddht None w2 kaddht
                     (mkState w2 (trace s ++ [dht_configured]) (self s))).
      cbn [world trace self] in IH |- *. destruct IH as [IHself IH].
      split; [exact IHself|].
      destruct (libp2p_New_run ctx (resume kaddht None w2) kaddht
                  (mkState w2 (trace s ++ [dht_configured]) (self s)))
        as [[[[h2 err] idht']|code|v] s'].
      * destruct IH as [[k Hk] Hid]. split.
        -- exists (S k). rewrite Hk, <- app_assoc. reflexivity.
        -- right. destruct Hid as [->|Hid]; [|exact Hid].
           exists h, peers, w1. rewrite Hmade. reflexivity.
      * destruct IH as [Hc [k [e Hk]]]. split; [exact Hc|].
        exists (S k), e. rewrite Hk, <- app_assoc. reflexivity.
      * exact IH.
Qed.

Lemma setupHost_run (ctx : Context) (nodeHostIP : string) (nodeHostPort : Z)
      (s : @State World) :
  let keys := crypto_GenerateKeyPair crypto.Ed25519 (-1) (world s) in
  let mgr := connmgr_NewConnManager 100 400 [connmgr.WithGracePeriod minute] (snd keys) in
  let opts :=
    [ libp2p.Identity (fst (fst (fst keys)));
      libp2p.ListenAddrStrings
        [ ("/ip4/" ++ nodeHostIP ++ "/tcp/" ++ Sprint_int nodeHostPort)%string;
          ("/ip4/" ++ nodeHostIP ++ "/udp/" ++ Sprint_int nodeHostPort ++ "/quic-v1")%string ];
      libp2p.Security libp2p.TLS;
      libp2p.Security libp2p.Noise;
      libp2p.Muxer "/yamux/1.0.0";
      libp2p.DefaultTransports;
      libp2p.ConnectionManager (fst (fst mgr));
      libp2p.NATPortMap;
      libp2p.Routing;
      libp2p.EnableNATService;
      libp2p.EnableAutoNATv2;
      libp2p.EnableRelay ] in
  setupHost ctx nodeHostIP nodeHostPort s =
  match snd (fst keys) with
  | Some e =>
      (Exits 1,
       mkState (snd keys)
         (trace s ++ [fatal e "Failed to Generate P2P Identity Configuration!"])
         (self s))
  | None =>
      match snd (fst mgr) with
      | Some e => (Panics e, mkState (snd mgr) (trace s) (self s))
      | None =>
          match libp2p_New_run ctx (libp2p_New opts (snd mgr)) nil_IpfsDHT
                  (mkState (snd mgr) (trace s ++ [listening nodeHostIP nodeHostPort])
                     (self s)) with
          | (Returns (h2, None, idht), s') => (Returns (h2, idht), s')
          | (Returns (_, Some e, _), s') => (Panics e, s')
          | (Exits code, s') => (Exits code, s')
          | (Panics v, s') => (Panics v, s')
          end
      end
  end.
Proof.
  cbv zeta. unfold setupHost, listening, fatal. step_B.
  destruct (crypto_GenerateKeyPair crypto.Ed25519 (-1) (world s))
    as [[[prvkey pubkey] [e|]] w1]; step_B; [reflexivity|].
  destruct (connmgr_NewConnManager 100 400 _ w1) as [[cm [e|]] w2]; step_B;
    [reflexivity|].
  destruct (libp2p_New_run ctx _ nil_IpfsDHT _) as [[[[h2 [e|]] idht]|code|v] s'];
    reflexivity.
Qed.

Lemma setupHost_self (ctx : Context) (nodeHostIP : string) (nodeHostPort : Z)
      (s : @State World) :
  self (snd (setupHost ctx nodeHostIP nodeHostPort s)) = self s.
Proof.
  rewrite setupHost_run. cbv zeta.
  destruct (snd (fst (crypto_GenerateKeyPair crypto.Ed25519 (-1) (world s))));
    [reflexivity|].
  destruct (snd (fst (connmgr_NewConnManager 100 400 _ _))); [reflexivity|].
  match goal with
  | |- context [libp2p_New_run ctx ?run ?idht ?s1] =>
      pose proof (libp2p_New_run_shape ctx run idht s1) as [Hself _];
      destruct (libp2p_New_run ctx run idht s1) as [[[[h2 [e|]] idht']|code|v] s']
  end; exact Hself.
Qed.

(** X10.  How [setupHost] fails.  A failure of the key generation ends
    the process with status 1 after a fatal entry with the error, before
    anything else is called.  A failure of the connection manager
    panics with its error and nothing is logged.  After that the line
    with the listen addresses is printed, and an exit has status 1 and
    follows the fatal entry of a failed [dht.New] inside the routing
    constructor, while a panic writes no fatal entry.  When [setupHost]
    returns, the table it returns is nil or one that [dht.New] returned
    without error.  The [P2P] structure is untouched. *)
Theorem setupHost_exits_or_panics
        (ctx : Context) (nodeHostIP : string) (nodeHostPort : Z) (s : @State World) :
  let keys := crypto_GenerateKeyPair crypto.Ed25519 (-1) (world s) in
  let mgr := connmgr_NewConnManager 100 400 [connmgr.WithGracePeriod minute] (snd keys) in
  (forall e,
      snd (fst keys) = Some e ->
      setupHost ctx nodeHostIP nodeHostPort s =
      (Exits 1,
       mkState (snd keys)
         (trace s ++ [fatal e "Failed to Generate P2P Identity Configuration!"])
         (self s))) /\
  (forall e,
      snd (fst keys) = None -> snd (fst mgr) = Some e ->
      setupHost ctx nodeHostIP nodeHostPort s =
      (Panics e, mkState (snd mgr) (trace s) (self s))) /\
  (snd (fst keys) = None -> snd (fst mgr) = None ->
   match setupHost ctx nodeHostIP nodeHostPort s with
   | (Returns (_, idht), s') =>
       (exists k,
           trace s' = trace s ++ listening nodeHostIP nodeHostPort
                        :: repeat dht_configured k) /\
       (idht = nil_IpfsDHT \/
        exists h peers w,
          fst (dht_New ctx h [dht_Mode dht_ModeServer; dht_BootstrapPeers peers] w) =
          (idht, None))
   | (Exits code, s') =>
       code = 1 /\
       exists k e,
         trace s' = trace s ++ listening nodeHostIP nodeHostPort
                      :: repeat dht_configured (S k)
                      ++ [fatal e "Failed to Create the Kademlia DHT!"]
   | (Panics _, s') =>
       exists k,
         trace s' = trace s ++ listening nodeHostIP nodeHostPort
                      :: repeat dht_configured k
   end) /\
  self (snd (setupHost ctx nodeHostIP nodeHostPort s)) = self s.
Proof.
  cbv zeta. rewrite setupHost_run. cbv zeta.
  destruct (snd (fst (crypto_GenerateKeyPair crypto.Ed25519 (-1) (world s))))
    as [e|] eqn:Hkeys.
  { split; [intros e' H; injection H as <-; reflexivity|].
    split; [intros e' H; discriminate|].
    split; [intros H; discriminate | reflexivity]. }
  destruct (snd (fst (connmgr_NewConnManager 100 400 _ _))) as [e|] eqn:Hmgr.
  { split; [intros e' H; discriminate|].
    split; [intros e' _ H; injection H as <-; reflexivity|].
    split; [intros _ H; discriminate | reflexivity]. }
  split; [intros e' H; discriminate|].
  split; [intros e' _ H; discriminate|].
  match goal with
  | |- context [libp2p_New_run ctx ?run ?idht ?s1] =>
      pose proof (libp2p_New_run_shape ctx run idht s1) as [Hself Hshape];
      destruct (libp2p_New_run ctx run idht s1) as [[[[h2 [e|]] idht']|code|v] s']
  end; cbn [snd self trace] in *.
  - split; [|exact Hself]. intros _ _.
    destruct Hshape as [[k Hk] _]. exists k. rewrite Hk, <- app_assoc. reflexivity.
  - split; [|exact Hself]. intros _ _.
    destruct Hshape as [[k Hk] Hid]. split; [|exact Hid].
    exists k. rewrite Hk, <- app_assoc. reflexivity.
  - split; [|exact Hself]. intros _ _.
    destruct Hshape as [Hc [k [e Hk]]]. split; [exact Hc|].
    exists k, e. rewrite Hk, <- app_assoc. reflexivity.
  - contradiction.
Qed.

End ConstructionRuns.

(* ================================================================= *)
(** ** [NewP2P]: the node it returns, termination *)

Section NodeInvariant.

Context {World : Type} {net : Libp2p World} {lib : Libp2pNew World}.

Lemma NewP2P_head_run (nodeHostIP : string) (nodeHostPort : Z) (s : @State World) :
  NewP2P_head nodeHostIP nodeHostPort s =
  match setupHost Background nodeHostIP nodeHostPort s with
  | (Returns (nodehost, kaddht), s1) =>
      (Returns (nodehost, kaddht),
       mkState (world s1)
         (trace s1 ++
            [ Logrus InfoLevel []
                [ AStr "Setup the p2p host,listen on";
                  AStr (Sprint_addrs (host_Addrs nodehost (world s1))) ];
              LogPrintln [AStr "MY P2P Node ID"; APeer (host.ID nodehost)] ])
         (self s1))
  | (Exits code, s1) => (Exits code, s1)
  | (Panics v, s1) => (Panics v, s1)
  end.
Proof.
  unfold NewP2P_head. unfold bind_B at 1.
  destruct (setupHost Background nodeHostIP nodeHostPort s)
    as [[[nodehost kaddht]|code|v] s1]; try reflexivity.
  step_B. rewrite <- app_assoc. reflexivity.
Qed.

Lemma NewP2P_head_self (nodeHostIP : string) (nodeHostPort : Z) (s : @State World) :
  self (snd (NewP2P_head nodeHostIP nodeHostPort s)) = self s.
Proof.
  rewrite NewP2P_head_run.
  pose proof (setupHost_self Background nodeHostIP nodeHostPort s) as Hself.
  destruct (setupHost Background nodeHostIP nodeHostPort s)
    as [[[nodehost kaddht]|code|v] s1]; exact Hself.
Qed.

Variables (serviceName nodeHostIP : string) (nodeHostPort : Z).
Variable s : @State World.

Lemma node_ok_start :
  node_ok serviceName nodeHostIP nodeHostPort s (mkNode NSetup (start s)).
Proof. split; reflexivity. Qed.

Lemma settled_of_sound nodehost kaddht (s1 : @State World) (p : @process World)
      (pc : new_pc) (s' : @State World) :
  sound Background nodehost kaddht s1 p -> mpc p = PReturned ->
  trace s' = trace (sys p) ++ tail_lines pc ->
  settled s1 pc
    (mkProcess (stat p) (mpc p) (gs p) (wg p) (connectedbootpeers p)
       (totalbootpeers p) s').
Proof.
  intros [added Htr Hself Hstart Hwg Hlen Hperm Hctx Hhost Herr Hwait Hrep] Hret Hs'.
  assert (Hz : sumZ holds (gs p) = 0) by (rewrite <- Hwg; apply Hwait; right; exact Hret).
  pose proof (holds_zero_done _ Hz) as Hdone.
  destruct (Hrep Hret) as [tr Hadded].
  split; [exact Hret|]. split; [exact Hdone|]. cbn [sys].
  exists tr, (connectedbootpeers p), (totalbootpeers p).
  split; [|split].
  - rewrite Hs', Htr, Hadded, <- !app_assoc. reflexivity.
  - rewrite Hret in Hperm. cbn [upcoming] in Hperm.
    rewrite (done_not_spawned _ Hdone) in Hperm.
    unfold parsed in Hperm at 1. cbn [flat_map] in Hperm. rewrite !app_nil_r in Hperm.
    rewrite Hadded, connect_targets_app in Hperm.
    cbn [connect_targets report] in Hperm. rewrite app_nil_r in Hperm. exact Hperm.
  - rewrite Hadded, connect_contexts_app in Hctx.
    cbn [connect_contexts report] in Hctx. rewrite app_nil_r in Hctx. exact Hctx.
Qed.

Lemma settled_moves (s1 : @State World) (pc pc' : new_pc) (p : @process World)
      (st : status) (lines : list Event) (s' : @State World) :
  settled s1 pc p ->
  tail_lines pc' = tail_lines pc ++ lines ->
  trace s' = trace (sys p) ++ lines ->
  settled s1 pc'
    (mkProcess st (mpc p) (gs p) (wg p) (connectedbootpeers p) (totalbootpeers p) s').
Proof.
  intros [Hret [Hdone [added [c [t [Htr [Hperm Hctx]]]]]]] Hlines Hs'.
  split; [exact Hret|]. split; [exact Hdone|]. cbn [sys].
  exists added, c, t. split; [|split; assumption].
  rewrite Hs', Htr, Hlines, <- !app_assoc. reflexivity.
Qed.

Lemma settled_go_step (s1 : @State World) (pc : new_pc) (nodehost : host.Host)
      (i : nat) (p p' : @process World) :
  settled s1 pc p -> go_step Background nodehost i p = Some p' ->
  settled s1 pc p' /\ stat p' = Crashed /\ sys p' = sys p.
Proof.
  intros [Hret [Hdone Htr]] H. unfold go_step in H.
  destruct (nth_error (gs p) i) as [g|] eqn:Hi; [|discriminate].
  assert (Hg : g = GExited \/ g = GAborting).
  { rewrite Forall_forall in Hdone. apply Hdone. eapply nth_error_In; eassumption. }
  destruct Hg as [-> | ->]; [discriminate|].
  injection H as <-. cbn [stat sys]. split; [|split; reflexivity].
  split; [exact Hret|]. split; [exact Hdone | exact Htr].
Qed.

Lemma node_ok_step (a : action) (n n' : @node World) :
  node_ok serviceName nodeHostIP nodeHostPort s n ->
  NewP2P_step serviceName nodeHostIP nodeHostPort a n = Some n' ->
  node_ok serviceName nodeHostIP nodeHostPort s n'.
Proof.
  intros [Hself Hok] H. unfold NewP2P_step in H.
  destruct (stat (proc n)) eqn:Hst; try discriminate.
  destruct a as [|i].
  - (* the main goroutine *)
    unfold NewP2P_main in H.
    destruct (npc n) as [|h k|h k|h k rd|h k rd|h k rd ps|h k rd ps|p2p|v] eqn:Hpc.
    + (* setupHost *)
      injection H as <-. unfold advance. rewrite Hok. cbn [sys start stat mpc gs wg
        connectedbootpeers totalbootpeers].
      pose proof (NewP2P_head_self nodeHostIP nodeHostPort s) as Hhs.
      destruct (NewP2P_head nodeHostIP nodeHostPort s) as [[[h k]|code|v] s1] eqn:Hhead;
        cbn [snd] in Hhs; split; cbn [proc sys stat npc fst snd]; try exact Hhs.
      * exists s1. split; [exact Hhead | apply sound_start].
      * intros p2p. try rewrite Hpc. discriminate.
      * exact I.
    + (* bootstrapDHT *)
      destruct Hok as [s1 [Hhead Hsound]].
      destruct (mpc (proc n)) eqn:Hmpc.
      1-4:
        (destruct (main_step Background k (proc n)) as [p'|] eqn:Hstep; [|discriminate];
         injection H as <-;
         pose proof (sound_main_step Background h k s1 _ _ Hst Hsound Hstep) as Hs';
         split; cbn [proc npc];
         [ destruct Hs'; destruct Hsound; congruence
         | destruct (stat p'); [| intros p2p; try rewrite Hpc; discriminate |];
           exists s1; split; assumption ]).
      injection H as <-. unfold advance. step_B.
      split; cbn [proc sys self stat npc]; [exact Hself|]. rewrite Hst.
      exists s1. split; [exact Hhead|].
      apply (settled_of_sound h k s1 (proc n) (NDiscovery h k)); [exact Hsound|exact Hmpc|].
      reflexivity.
    + (* NewRoutingDiscovery *)
      destruct Hok as [s1 [Hhead Hset]].
      injection H as <-. unfold advance. step_B.
      destruct (discoveryRouting_NewRoutingDiscovery k (world (sys (proc n))))
        as [rd w1].
      split; cbn [proc sys self stat npc]; [exact Hself|]. rewrite Hst.
      exists s1. split; [exact Hhead|].
      apply (settled_moves s1 (NDiscovery h k) _ _ _ []); [exact Hset | reflexivity|].
      cbn [trace]. symmetry. apply app_nil_r.
    + (* Debugln *)
      destruct Hok as [s1 [Hhead Hset]].
      injection H as <-. unfold advance. step_B.
      split; cbn [proc sys self stat npc]; [exact Hself|]. rewrite Hst.
      exists s1. split; [exact Hhead|].
      apply (settled_moves s1 (NCreated h k rd) _ _ _ [discovery_created]);
        [exact Hset | reflexivity | reflexivity].
    + (* setupPubSub *)
      destruct Hok as [s1 [Hhead Hset]].
      injection H as <-. unfold advance. rewrite setupPubSub_run. cbv zeta.
      destruct (pubsub_NewGossipSub Background h _ (world (sys (proc n))))
        as [[ps [e|]] w1]; cbn [fst snd];
        (split; cbn [proc sys self stat npc]; [exact Hself|]).
      * intros p2p. try rewrite Hpc. discriminate.
      * rewrite Hst. exists s1. split; [exact Hhead|].
        apply (settled_moves s1 (NPubSub h k rd) _ _ _ []); [exact Hset | reflexivity|].
        cbn [trace]. symmetry. apply app_nil_r.
    + (* Debugln *)
      destruct Hok as [s1 [Hhead Hset]].
      injection H as <-. unfold advance. step_B.
      split; cbn [proc sys self stat npc]; [exact Hself|]. rewrite Hst.
      exists s1. split; [exact Hhead|].
      apply (settled_moves s1 (NHandler h k rd ps) _ _ _ [pubsub_created]);
        [exact Hset | reflexivity | reflexivity].
    + (* return *)
      destruct Hok as [s1 [Hhead Hset]].
      injection H as <-.
      split; cbn [proc npc]; [exact Hself|]. rewrite Hst.
      split; [reflexivity|]. split; [reflexivity|].
      exists s1. cbn [Host KadDHT]. split; [exact Hhead|].
      destruct Hset as [Hret [Hdone Htr]].
      split; [exact Hret|]. split; [exact Hdone | exact Htr].
    + discriminate.
    + discriminate.
  - (* a goroutine of bootstrapDHT *)
    destruct (host_of (npc n)) as [nodehost|] eqn:Hhost; [|discriminate].
    destruct (go_step Background nodehost i (proc n)) as [p'|] eqn:Hstep; [|discriminate].
    injection H as <-. cbn [proc npc].
    destruct (npc n) as [|h k|h k|h k rd|h k rd|h k rd ps|h k rd ps|p2p|v] eqn:Hpc;
      cbn [host_of] in Hhost; try discriminate; injection Hhost as <-.
    + destruct Hok as [s1 [Hhead Hsound]].
      pose proof (sound_go_step Background h k s1 i _ _ Hst Hsound Hstep) as Hs'.
      split; cbn [proc npc]; [destruct Hs'; destruct Hsound; congruence|].
      destruct (stat p'); [| intros p2p; discriminate |]; exists s1; split; assumption.
    + destruct Hok as [s1 [Hhead Hset]].
      destruct (settled_go_step s1 _ _ _ _ _ Hset Hstep) as [Hset' [Hc Hsys]].
      split; cbn [proc npc]; [rewrite Hsys; exact Hself|]. rewrite Hc.
      exists s1. split; assumption.
    + destruct Hok as [s1 [Hhead Hset]].
      destruct (settled_go_step s1 _ _ _ _ _ Hset Hstep) as [Hset' [Hc Hsys]].
      split; cbn [proc npc]; [rewrite Hsys; exact Hself|]. rewrite Hc.
      exists s1. split; assumption.
    + destruct Hok as [s1 [Hhead Hset]].
      destruct (settled_go_step s1 _ _ _ _ _ Hset Hstep) as [Hset' [Hc Hsys]].
      split; cbn [proc npc]; [rewrite Hsys; exact Hself|]. rewrite Hc.
      exists s1. split; assumption.
    + destruct Hok as [s1 [Hhead Hset]].
      destruct (settled_go_step s1 _ _ _ _ _ Hset Hstep) as [Hset' [Hc Hsys]].
      split; cbn [proc npc]; [rewrite Hsys; exact Hself|]. rewrite Hc.
      exists s1. split; assumption.
    + destruct Hok as [s1 [Hhead Hset]].
      destruct (settled_go_step s1 _ _ _ _ _ Hset Hstep) as [Hset' [Hc Hsys]].
      split; cbn [proc npc]; [rewrite Hsys; exact Hself|]. rewrite Hc.
      exists s1. split; assumption.
    + destruct Hok as [Hctx [Hname [s1 [Hhead Hset]]]].
      destruct (settled_go_step s1 _ _ _ _ _ Hset Hstep) as [Hset' [Hc Hsys]].
      split; cbn [proc npc]; [rewrite Hsys; exact Hself|]. rewrite Hc.
      split; [exact Hctx|]. split; [exact Hname|].
      exists s1. split; assumption.
Qed.

Lemma node_ok_run (sched : list action) :
  forall n n' : @node World,
    node_ok serviceName nodeHostIP nodeHostPort s n ->
    NewP2P_run serviceName nodeHostIP nodeHostPort sched n = Some n' ->
    node_ok serviceName nodeHostIP nodeHostPort s n'.
Proof.
  induction sched as [|a sched IH]; intros n n' Hok H; cbn [NewP2P_run] in H.
  - injection H as <-. exact Hok.
  - destruct (NewP2P_step serviceName nodeHostIP nodeHostPort a n) as [n1|] eqn:Hstep;
      [|discriminate].
    eapply IH; [|exact H]. eapply node_ok_step; eassumption.
Qed.

(** X11.  When [NewP2P] returns, the node it returns has
    [context.Background()] for its context and the service name it was
    given, its host and its routing table are those [setupHost]
    returned, and [bootstrapDHT] has returned before: the trace ends
    with the report of [bootstrapDHT] and the three lines of [NewP2P],
    and [Connect] has been called once for each bootstrap address with
    address info, with the background context.  So [AdvertiseConnect]
    and [AnnounceConnect] on this node call libp2p with the background
    context, for the service name given to [NewP2P]. *)
Theorem NewP2P_returns_a_node_on_the_background_context
        (sched : list action) (n : @node World) (p2p : P2P) :
  NewP2P serviceName nodeHostIP nodeHostPort sched s = Some n ->
  npc n = NReturned p2p ->
  Ctx p2p = Background /\ service p2p = serviceName /\
  self (sys (proc n)) = self s /\
  (exists s1 added c t,
      NewP2P_head nodeHostIP nodeHostPort s = (Returns (Host p2p, KadDHT p2p), s1) /\
      trace (sys (proc n)) =
      trace s1 ++ added
        ++ [report c t; bootstrapped; discovery_created; pubsub_created] /\
      Permutation (connect_targets added) (parsed dht_DefaultBootstrapPeers) /\
      Forall (eq Background) (connect_contexts added)) /\
  (forall s' : @State World,
      self s' = p2p ->
      let node := mkP2P Background (Host p2p) (KadDHT p2p) (Discovery p2p)
                    (PubSub p2p) serviceName in
      (exists ttl tail,
          trace (snd (AdvertiseConnect s')) =
          trace s' ++ advertise_prefix node ttl ++ tail) /\
      (exists tail,
          trace (snd (AnnounceConnect s')) =
          trace s' ++ announce_prefix node
                        (Cid.NewCidV1 12 (service_multihash serviceName)) ++ tail)).
Proof.
  intros Hrun Hpc. unfold NewP2P in Hrun.
  destruct (node_ok_run sched _ _ node_ok_start Hrun) as [Hself Hok].
  rewrite Hpc in Hok.
  assert (Hret : Ctx p2p = Background /\ service p2p = serviceName /\
                 exists s1,
                   NewP2P_head nodeHostIP nodeHostPort s =
                   (Returns (Host p2p, KadDHT p2p), s1) /\
                   settled s1 (NReturned p2p) (proc n)).
  { destruct (stat (proc n)); [exact Hok | | exact Hok].
    exfalso. apply (Hok p2p). reflexivity. }
  destruct Hret as [Hctx [Hname [s1 [Hhead [_ [_ [added [c [t [Htr [Hperm Hbg]]]]]]]]]]].
  split; [exact Hctx|]. split; [exact Hname|]. split; [exact Hself|].
  split.
  { exists s1, added, c, t. cbn [tail_lines] in Htr. repeat split; assumption. }
  intros s' Hs'. cbv zeta.
  assert (Hnode : self s' =
                  mkP2P Background (Host p2p) (KadDHT p2p) (Discovery p2p)
                    (PubSub p2p) serviceName).
  { rewrite Hs', <- Hctx, <- Hname. destruct p2p; reflexivity. }
  split.
  - rewrite AdvertiseConnect_run. cbv zeta. rewrite <- Hnode.
    destruct (fst (discovery_FindPeers _ _ _ _)); cbn [snd trace]; eauto.
  - rewrite AnnounceConnect_run. cbv zeta. rewrite <- Hnode.
    assert (Hsvc : service (self s') = serviceName) by (rewrite Hs'; exact Hname).
    rewrite Hsvc.
    destruct (fst (dht_Provide _ _ _ _ _)); cbn [snd trace]; eauto.
Qed.

End NodeInvariant.

Section NodeFinite.

Context {World : Type} {net : Libp2p World} {lib : Libp2pNew World}.

Variables (serviceName nodeHostIP : string) (nodeHostPort : Z).

Lemma advance_decreases {A} (n : @node World) (m : B A) (next : A -> new_pc)
      (pc : new_pc) :
  stat (proc n) = Running -> npc n = pc ->
  (forall a, node_rank (next a) < node_rank pc)%nat ->
  (0 < node_rank pc)%nat ->
  (node_measure (advance n m next) < node_measure n)%nat.
Proof.
  intros Hst Hpc Hnext Hpos. unfold advance, node_measure, measure. rewrite Hpc.
  destruct (m (sys (proc n))) as [[a|code|v] s']; cbn [npc proc stat mpc gs];
    rewrite ?Hst, ?Hpc; cbn [stat_rank node_rank].
  - specialize (Hnext a). lia.
  - lia.
  - lia.
Qed.

Ltac advances Hst Hpc :=
  apply (advance_decreases _ _ _ _ Hst Hpc);
  [intros ?; cbn [node_rank]; lia | cbn [node_rank]; lia].

Lemma NewP2P_step_decreases (a : action) (n n' : @node World) :
  NewP2P_step serviceName nodeHostIP nodeHostPort a n = Some n' ->
  (node_measure n' < node_measure n)%nat.
Proof.
  unfold NewP2P_step. destruct (stat (proc n)) eqn:Hst; try discriminate.
  destruct a as [|i]; intros H.
  - unfold NewP2P_main in H.
    destruct (npc n) as [|h k|h k|h k rd|h k rd|h k rd ps|h k rd ps|p2p|v] eqn:Hpc;
      try discriminate.
    + injection H as <-. advances Hst Hpc.
    + destruct (mpc (proc n)) eqn:Hmpc.
      1-4:
        (destruct (main_step Background k (proc n)) as [p'|] eqn:Hstep; [|discriminate];
         injection H as <-;
         pose proof (main_step_decreases Background k _ _ Hst Hstep);
         unfold node_measure; cbn [npc proc]; rewrite Hpc; lia).
      injection H as <-. advances Hst Hpc.
    + injection H as <-. advances Hst Hpc.
    + injection H as <-. advances Hst Hpc.
    + injection H as <-. advances Hst Hpc.
    + injection H as <-. advances Hst Hpc.
    + injection H as <-. unfold node_measure. cbn [npc proc]. rewrite Hpc.
      cbn [node_rank]. lia.
  - destruct (host_of (npc n)) as [nodehost|]; [|discriminate].
    destruct (go_step Background nodehost i (proc n)) as [p'|] eqn:Hstep; [|discriminate].
    injection H as <-.
    pose proof (go_step_decreases Background nodehost i _ _ Hst Hstep).
    unfold node_measure. cbn [npc proc]. lia.
Qed.

Lemma NewP2P_run_bounded (sched : list action) :
  forall n n' : @node World,
    NewP2P_run serviceName nodeHostIP nodeHostPort sched n = Some n' ->
    (length sched + node_measure n' <= node_measure n)%nat.
Proof.
  induction sched as [|a sched IH]; intros n n' H; cbn [NewP2P_run length] in *.
  - injection H as <-. lia.
  - destruct (NewP2P_step serviceName nodeHostIP nodeHostPort a n) as [n1|] eqn:Hs;
      [|discriminate].
    apply NewP2P_step_decreases in Hs. apply IH in H. lia.
Qed.

End NodeFinite.

Section NodeLive.

Context {World : Type} {net : Libp2p World} {lib : Libp2pNew World}.

Variables (serviceName nodeHostIP : string) (nodeHostPort : Z).
Variables (s s1 : @State World) (nodehost : host.Host) (kaddht : dht.IpfsDHT).

Hypothesis head_ok :
  NewP2P_head nodeHostIP nodeHostPort s = (Returns (nodehost, kaddht), s1).
Hypothesis bootstrap_ok : fst (dht_Bootstrap kaddht Background (world s1)) = None.
Hypothesis all_parse : Forall parses dht_DefaultBootstrapPeers.
Hypothesis few_peers : Z.of_nat (length dht_DefaultBootstrapPeers) < 2 ^ 31.

Lemma node_live_start : node_live nodehost kaddht s s1 (mkNode NSetup (start s)).
Proof. reflexivity. Qed.

Lemma node_live_step (a : action) (n n' : @node World) :
  node_live nodehost kaddht s s1 n ->
  NewP2P_step serviceName nodeHostIP nodeHostPort a n = Some n' ->
  node_live nodehost kaddht s s1 n'.
Proof.
  unfold node_live at 1, NewP2P_step.
  destruct (stat (proc n)) eqn:Hst; try discriminate.
  intros Hlive H. destruct a as [|i].
  - (* the main goroutine *)
    unfold NewP2P_main in H.
    destruct (npc n) as [|h k|h k|h k rd|h k rd|h k rd ps|h k rd ps|p2p|v] eqn:Hpc;
      try discriminate; try contradiction.
    + injection H as <-. unfold advance. rewrite Hlive. cbn [proc sys start].
      rewrite head_ok. unfold node_live.
      cbn [proc stat npc start fst snd mpc gs wg connectedbootpeers totalbootpeers].
      split; [reflexivity|]. split; [reflexivity|]. apply invariant_start.
    + destruct Hlive as [-> [-> Hinv]].
      destruct (mpc (proc n)) eqn:Hmpc.
      1-4:
        (destruct (main_step Background kaddht (proc n)) as [p'|] eqn:Hstep;
           [|discriminate];
         injection H as <-;
         pose proof (invariant_main_step Background kaddht s1 all_parse few_peers
                       bootstrap_ok _ _ Hinv Hstep) as Hinv';
         unfold node_live; cbn [proc npc];
         assert (Hst' : stat p' = Running) by (destruct Hinv'; assumption);
         rewrite Hst'; split; [reflexivity|]; split; [reflexivity|]; exact Hinv').
      injection H as <-. unfold advance. step_B. unfold node_live.
      cbn [proc stat npc gs]. rewrite Hst.
      split; [reflexivity|]. split; [reflexivity|].
      destruct Hinv as [added _ _ _ _ _ _ _ _ _ _ Hat _].
      unfold at_pc in Hat. rewrite Hmpc in Hat. apply Hat.
    + destruct Hlive as [-> [-> Hgs]].
      injection H as <-. unfold advance. step_B.
      destruct (discoveryRouting_NewRoutingDiscovery kaddht (world (sys (proc n))))
        as [rd w1].
      unfold node_live. cbn [proc stat npc gs]. rewrite Hst. auto.
    + destruct Hlive as [-> [-> Hgs]].
      injection H as <-. unfold advance. step_B.
      unfold node_live. cbn [proc stat npc gs]. rewrite Hst. auto.
    + destruct Hlive as [-> [-> Hgs]].
      injection H as <-. unfold advance. rewrite setupPubSub_run. cbv zeta.
      destruct (pubsub_NewGossipSub Background nodehost _ (world (sys (proc n))))
        as [[ps [e|]] w1]; cbn [fst snd]; unfold node_live; cbn [proc stat npc gs sys].
      * split; [reflexivity|]. exists rd, e, (trace (sys (proc n))).
        split; [exact Hpc | reflexivity].
      * rewrite Hst. auto.
    + destruct Hlive as [-> [-> Hgs]].
      injection H as <-. unfold advance. step_B.
      unfold node_live. cbn [proc stat npc gs]. rewrite Hst. auto.
    + destruct Hlive as [-> [-> Hgs]].
      injection H as <-. unfold node_live. cbn [proc npc Host KadDHT]. rewrite Hst. auto.
  - (* a goroutine *)
    destruct (host_of (npc n)) as [h'|] eqn:Hhost; [|discriminate].
    destruct (go_step Background h' i (proc n)) as [p'|] eqn:Hstep; [|discriminate].
    injection H as <-.
    assert (Hidle : Forall (fun g => g = GExited) (gs (proc n)) -> False).
    { intros Hgs. unfold go_step in Hstep.
      destruct (nth_error (gs (proc n)) i) as [g|] eqn:Hi; [|discriminate].
      rewrite Forall_forall in Hgs. rewrite (Hgs g) in Hstep; [discriminate|].
      eapply nth_error_In; eassumption. }
    destruct (npc n) as [|h k|h k|h k rd|h k rd|h k rd ps|h k rd ps|p2p|v] eqn:Hpc;
      cbn [host_of] in Hhost; try discriminate; try contradiction;
      try (exfalso; apply Hidle; apply Hlive).
    injection Hhost as <-. destruct Hlive as [-> [-> Hinv]].
    pose proof (invariant_go_step Background nodehost s1 few_peers _ _ _ Hinv Hstep)
      as Hinv'.
    unfold node_live. cbn [proc npc].
    assert (Hst' : stat p' = Running) by (destruct Hinv'; assumption).
    rewrite Hst'. split; [reflexivity|]. split; [reflexivity|]. exact Hinv'.
Qed.

Lemma node_live_run (sched : list action) :
  forall n n' : @node World,
    node_live nodehost kaddht s s1 n ->
    NewP2P_run serviceName nodeHostIP nodeHostPort sched n = Some n' ->
    node_live nodehost kaddht s s1 n'.
Proof.
  induction sched as [|a sched IH]; intros n n' Hok H; cbn [NewP2P_run] in H.
  - injection H as <-. exact Hok.
  - destruct (NewP2P_step serviceName nodeHostIP nodeHostPort a n) as [n1|] eqn:Hstep;
      [|discriminate].
    eapply IH; [|exact H]. eapply node_live_step; eassumption.
Qed.

Lemma node_live_progress (n : @node World) :
  node_live nodehost kaddht s s1 n ->
  stat (proc n) = Running ->
  (forall p2p, npc n <> NReturned p2p) ->
  exists a n', NewP2P_step serviceName nodeHostIP nodeHostPort a n = Some n'.
Proof.
  unfold node_live, NewP2P_step. intros Hlive Hst Hnr. rewrite Hst in *.
  destruct (npc n) as [|h k|h k|h k rd|h k rd|h k rd ps|h k rd ps|p2p|v] eqn:Hpc;
    try contradiction;
    try (exists MainStep; unfold NewP2P_main; rewrite Hpc; eauto; fail).
  - destruct Hlive as [-> [-> Hinv]].
    destruct (mpc (proc n)) eqn:Hmpc.
    5:{ exists MainStep. unfold NewP2P_main. rewrite Hpc, Hmpc. eauto. }
    all: destruct (invariant_progress Background nodehost kaddht s1 _ Hinv) as [a [p' Hstep]];
      [rewrite Hmpc; discriminate|];
      unfold step in Hstep; rewrite Hst in Hstep; exists a; destruct a as [|i];
      [ unfold NewP2P_main; rewrite Hpc, Hmpc, Hstep; eauto
      | cbn [host_of]; rewrite Hstep; eauto ].
  - exfalso. apply (Hnr p2p). reflexivity.
Qed.

(** X12.  When [setupHost] returns, [Bootstrap] succeeds, every bootstrap
    address has address info and there are fewer than [2^31] of them,
    [NewP2P] returns a node unless [setupPubSub] ends the process:
    every execution is finite, the process neither crashes nor panics,
    it exits only with status 1 after the fatal entry of [setupPubSub],
    and as long as it runs and [NewP2P] has not returned it can take
    another step; when [NewP2P] has returned, the process is running,
    every goroutine of [bootstrapDHT] has exited, and the host and the
    routing table of the node are those of [setupHost]. *)
Theorem NewP2P_returns_or_exits_in_setupPubSub
        (sched : list action) (n : @node World) :
  NewP2P serviceName nodeHostIP nodeHostPort sched s = Some n ->
  (length sched <= 4 * length dht_DefaultBootstrapPeers + 12)%nat /\
  stat (proc n) <> Crashed /\
  (forall v, npc n <> NPanicked v) /\
  (forall code,
      stat (proc n) = Exited code ->
      code = 1 /\
      exists routingdiscovery e tr,
        npc n = NPubSub nodehost kaddht routingdiscovery /\
        trace (sys (proc n)) = tr ++ [pubsub_failed e]) /\
  (stat (proc n) = Running ->
   (forall p2p, npc n <> NReturned p2p) ->
   exists a n', NewP2P_step serviceName nodeHostIP nodeHostPort a n = Some n') /\
  (forall p2p,
      npc n = NReturned p2p ->
      stat (proc n) = Running /\
      Host p2p = nodehost /\ KadDHT p2p = kaddht /\
      Forall (fun g => g = GExited) (gs (proc n))).
Proof.
  intros Hrun. unfold NewP2P in Hrun.
  pose proof (NewP2P_run_bounded serviceName nodeHostIP nodeHostPort sched _ _ Hrun) as Hb.
  pose proof (node_live_run sched _ _ node_live_start Hrun) as Hlive.
  split.
  { unfold node_measure, measure in Hb.
    cbn [npc proc node_rank stat mpc gs start stat_rank main_rank map list_sum
         fold_right] in Hb. lia. }
  split.
  { intros Hc. unfold node_live in Hlive. rewrite Hc in Hlive. exact Hlive. }
  split.
  { intros v Hv. unfold node_live in Hlive. rewrite Hv in Hlive.
    destruct (stat (proc n)); try contradiction.
    destruct Hlive as [_ [rd [e [tr [E _]]]]]. discriminate. }
  split.
  { intros code Hc. unfold node_live in Hlive. rewrite Hc in Hlive. exact Hlive. }
  split; [apply node_live_progress; exact Hlive|].
  intros p2p Hp. unfold node_live in Hlive. rewrite Hp in Hlive.
  destruct (stat (proc n)); try contradiction.
  - destruct Hlive as [H1 [H2 H3]]. auto.
  - destruct Hlive as [_ [rd [e [tr [E _]]]]]. discriminate.
Qed.

End NodeLive.

(* ================================================================= *)
(** ** Why the process ends *)

Lemma Exists_update_inv {A} (P : A -> Prop) (i : nat) (x : A) (l : list A) :
  Exists P (update i x l) -> P x \/ Exists P l.
Proof.
  revert i. induction l as [|y l IH]; intros i H.
  - destruct i; inversion H.
  - destruct i; cbn [update] in H.
    + inversion H as [? ? Hx|? ? Hl]; subst; [left; exact Hx|].
      right. apply Exists_cons_tl. exact Hl.
    + inversion H as [? ? Hy|? ? Hl]; subst.
      * right. apply Exists_cons_hd. exact Hy.
      * destruct (IH i Hl) as [Hx|Hl']; [left; exact Hx|].
        right. apply Exists_cons_tl. exact Hl'.
Qed.

Lemma Exists_nth {A} (P : A -> Prop) (i : nat) (x : A) (l : list A) :
  nth_error l i = Some x -> P x -> Exists P l.
Proof.
  intros Hi Hx. apply Exists_exists. exists x. split; [|exact Hx].
  eapply nth_error_In. eassumption.
Qed.

Section Causes.

Context {World : Type} {net : Libp2p World}.

(** What a step of a goroutine does to the process. *)
Lemma go_step_panics (ctx : Context) (nodehost : host.Host) (i : nat)
      (p p' : @process World) :
  go_step ctx nodehost i p = Some p' ->
  mpc p' = mpc p /\
  (Exists panics (gs p') -> Exists panics (gs p)) /\
  match stat p' with
  | Running => True
  | Exited _ => False
  | Crashed => Exists (fun g => g = GAborting) (gs p')
  end.
Proof.
  unfold go_step. intros H.
  destruct (nth_error (gs p) i) as [g|] eqn:Hi; [|discriminate].
  assert (Hup : forall g' : goroutine,
             (panics g' -> panics g) ->
             Exists panics (update i g' (gs p)) -> Exists panics (gs p)).
  { intros g' Himp Hex. apply Exists_update_inv in Hex.
    destruct Hex as [Hg'|Hex]; [|exact Hex].
    apply (Exists_nth panics i g); [exact Hi | apply Himp; exact Hg']. }
  destruct g as [[peerinfo|]|[e|]| | | |].
  - unfold Connect, call in H.
    destruct (host_Connect nodehost ctx peerinfo (world (sys p))) as [err w1].
    injection H as <-. cbn [stat mpc gs]. split; [reflexivity|].
    split; [apply Hup; intros []|exact I].
  - injection H as <-. cbn [stat mpc gs]. split; [reflexivity|].
    split; [apply Hup; intros _; exact I|exact I].
  - injection H as <-. cbn [stat mpc gs]. split; [reflexivity|].
    split; [apply Hup; intros []|exact I].
  - injection H as <-. cbn [stat mpc gs]. split; [reflexivity|].
    split; [apply Hup; intros []|exact I].
  - injection H as <-. cbn [stat mpc gs]. split; [reflexivity|].
    split; [apply Hup; intros []|exact I].
  - injection H as <-. cbn [stat mpc gs]. split; [reflexivity|].
    split; [apply Hup; intros _; exact I|exact I].
  - injection H as <-. cbn [stat mpc gs]. split; [reflexivity|].
    split; [intros Hex; exact Hex|].
    apply (Exists_nth _ i GAborting); [exact Hi | reflexivity].
  - discriminate.
Qed.

Lemma aborting_panics (l : list goroutine) :
  Exists (fun g => g = GAborting) l -> Exists panics l.
Proof.
  intros H. apply Exists_exists in H. destruct H as [g [Hin ->]].
  apply Exists_exists. exists GAborting. split; [exact Hin | exact I].
Qed.

Variables (ctx : Context) (nodehost : host.Host) (kaddht : dht.IpfsDHT).
Variable s0 : @State World.

Lemma caused_start : caused ctx kaddht s0 (start s0).
Proof.
  split; [exists []; reflexivity|].
  split; [intros H; inversion H|].
  split; [reflexivity | exact I].
Qed.

Lemma caused_step (a : action) (p p' : @process World) :
  caused ctx kaddht s0 p -> step ctx nodehost kaddht a p = Some p' ->
  caused ctx kaddht s0 p'.
Proof.
  intros [[before Hbefore] [Hpan [Hstart Hend]]] H. unfold step in H.
  destruct (stat p) eqn:Hst; try discriminate.
  destruct a as [|i].
  - unfold main_step in H.
    destruct (mpc p) as [|[|m rest]| | |] eqn:Hmpc.
    + rewrite (Hstart eq_refl eq_refl) in H.
      cbn [sys start gs wg connectedbootpeers totalbootpeers] in H.
      rewrite bootstrapDHT_head_run in H. cbv zeta in H.
      destruct (fst (dht_Bootstrap kaddht ctx (world s0))) as [err|] eqn:Hboot;
        injection H as <-; unfold caused; cbn [stat mpc gs sys trace upcoming].
      * split; [exists []; reflexivity|].
        split; [intros H; inversion H|].
        split; [discriminate|].
        split; [reflexivity|]. split; [reflexivity|]. split; [reflexivity|].
        exists err. split; [exact Hboot | reflexivity].
      * split; [exists []; reflexivity|].
        split; [intros H; inversion H|].
        split; [discriminate | exact I].
    + injection H as <-. unfold caused. cbn [stat mpc gs upcoming] in *.
      split; [exists before; exact Hbefore|].
      split; [exact Hpan|]. split; [discriminate | exact I].
    + injection H as <-. unfold caused. cbn [stat mpc gs upcoming] in *.
      split; [exists (before ++ [m]); rewrite <- app_assoc; exact Hbefore|].
      split; [|split; [discriminate | exact I]].
      intros Hex. apply Exists_app in Hex. destruct Hex as [Hex|Hex]; [auto|].
      inversion Hex as [? ? Hg|? ? Hn]; subst; [|inversion Hn].
      rewrite Hbefore. apply Exists_app. right. apply Exists_cons_hd.
      unfold unparsed. destruct (peer_AddrInfoFromP2pAddr m); [contradiction|reflexivity].
    + destruct (wg p =? 0); [|discriminate].
      injection H as <-. unfold caused. cbn [stat mpc gs upcoming] in *.
      split; [exists dht_DefaultBootstrapPeers; symmetry; apply app_nil_r|].
      split; [exact Hpan|]. split; [discriminate | exact I].
    + injection H as <-. unfold caused. cbn [stat mpc gs upcoming] in *.
      split; [exists dht_DefaultBootstrapPeers; symmetry; apply app_nil_r|].
      split; [exact Hpan|]. split; [discriminate | exact I].
    + discriminate.
  - assert (Hnb : mpc p <> PBootstrap).
    { intros E. rewrite (Hstart E eq_refl) in H. cbn [go_step gs start] in H.
      destruct i; discriminate. }
    destruct (go_step_panics ctx nodehost i p p' H) as [Hmpc [Hex Hstat]].
    unfold caused. rewrite Hmpc.
    split; [exists before; exact Hbefore|].
    split; [intros Hp; apply Hpan, Hex, Hp|].
    split; [intros E; contradiction|].
    destruct (stat p'); [exact I | contradiction | exact Hstat].
Qed.

Lemma caused_run (sched : list action) :
  forall p p' : @process World,
    caused ctx kaddht s0 p -> run ctx nodehost kaddht sched p = Some p' ->
    caused ctx kaddht s0 p'.
Proof.
  induction sched as [|a sched IH]; intros p p' Hc H; cbn [run] in H.
  - injection H as <-. exact Hc.
  - destruct (step ctx nodehost kaddht a p) as [p1|] eqn:Hstep; [|discriminate].
    eapply IH; [|exact H]. eapply caused_step; eassumption.
Qed.

(** X13.  [bootstrapDHT] ends the process only for a cause, on any
    network: the process has exited only with status 1, after
    [Bootstrap] failed and the fatal entry was written, before any
    goroutine was started; and it has crashed only if some bootstrap
    address has no address info.  A [Connect] that fails ends nothing. *)
Theorem bootstrapDHT_ends_the_process_only_for_a_cause
        (sched : list action) (p : @process World) :
  bootstrapDHT ctx nodehost kaddht sched s0 = Some p ->
  (forall code,
      stat p = Exited code ->
      code = 1 /\ gs p = [] /\
      exists e,
        fst (dht_Bootstrap kaddht ctx (world s0)) = Some e /\
        trace (sys p) =
        trace s0 ++ [CallBootstrap kaddht ctx;
                     fatal e "Failed to Bootstrap the Kademlia!"]) /\
  (stat p = Crashed ->
   Exists (fun g => g = GAborting) (gs p) /\
   Exists unparsed dht_DefaultBootstrapPeers).
Proof.
  intros Hrun. unfold bootstrapDHT in Hrun.
  destruct (caused_run sched _ _ caused_start Hrun) as [_ [Hpan [_ Hend]]].
  split.
  - intros code Hc. rewrite Hc in Hend. destruct Hend as [H1 [_ [H3 H4]]]. auto.
  - intros Hc. rewrite Hc in Hend. split; [exact Hend|].
    apply Hpan, aborting_panics, Hend.
Qed.

End Causes.

Section NodeCauses.

Context {World : Type} {net : Libp2p World} {lib : Libp2pNew World}.

Lemma ends_fatally_snoc (tr : list Event) (ev : Event) :
  is_fatal ev = true -> ends_fatally (tr ++ [ev]).
Proof. intros H. exists tr, ev. split; [reflexivity | exact H]. Qed.

Lemma setupHost_exit (ctx : Context) (nodeHostIP : string) (nodeHostPort : Z)
      (s s' : @State World) (code : Z) :
  setupHost ctx nodeHostIP nodeHostPort s = (Exits code, s') ->
  code = 1 /\ ends_fatally (trace s').
Proof.
  rewrite setupHost_run. cbv zeta.
  destruct (snd (fst (crypto_GenerateKeyPair crypto.Ed25519 (-1) (world s)))) as [e|].
  { intros H. injection H as <- <-. split; [reflexivity|].
    cbn [trace]. apply ends_fatally_snoc. reflexivity. }
  destruct (snd (fst (connmgr_NewConnManager 100 400 _ _))) as [e|]; [discriminate|].
  match goal with
  | |- context [libp2p_New_run ctx ?run ?idht ?s1] =>
      pose proof (libp2p_New_run_shape ctx run idht s1) as [_ Hshape];
      destruct (libp2p_New_run ctx run idht s1) as [[[[h2 [e|]] idht']|c|v] s2]
  end; try discriminate.
  intros H. injection H as <- <-. destruct Hshape as [Hc [k [e Hk]]].
  split; [exact Hc|]. rewrite Hk.
  rewrite app_assoc. apply ends_fatally_snoc. reflexivity.
Qed.

Variables (serviceName nodeHostIP : string) (nodeHostPort : Z).
Variable s : @State World.

Lemma node_ends_start : node_ends nodeHostIP nodeHostPort s (mkNode NSetup (start s)).
Proof.
  split; [intros H; inversion H|]. split; [discriminate | reflexivity].
Qed.

Ltac not_panicked Hpc :=
  first [ discriminate
        | intros ? ?; rewrite Hpc in *; discriminate
        | intros ? ?; assumption ].

Lemma node_ends_step (a : action) (n n' : @node World) :
  node_ends nodeHostIP nodeHostPort s n ->
  NewP2P_step serviceName nodeHostIP nodeHostPort a n = Some n' ->
  node_ends nodeHostIP nodeHostPort s n'.
Proof.
  intros [Hpan [Hv Hend]] H. unfold NewP2P_step in H.
  destruct (stat (proc n)) eqn:Hst; try discriminate.
  destruct a as [|i].
  - (* the main goroutine *)
    unfold NewP2P_main in H.
    destruct (npc n) as [|h k|h k|h k rd|h k rd|h k rd ps|h k rd ps|p2p|v] eqn:Hpc;
      try discriminate.
    + (* setupHost *)
      injection H as <-. unfold advance. rewrite Hend. cbn [sys start stat mpc gs wg
        connectedbootpeers totalbootpeers].
      rewrite NewP2P_head_run.
      destruct (setupHost Background nodeHostIP nodeHostPort s)
        as [[[h k]|code|v] s1] eqn:Hsetup; unfold node_ends;
        cbn [proc npc stat gs sys fst snd].
      * split; [intros H; inversion H|]. split; [not_panicked Hpc|].
        eexists. apply caused_start.
      * split; [intros H; inversion H|]. split; [not_panicked Hpc|].
        apply (setupHost_exit _ _ _ _ _ _ Hsetup).
      * split; [intros H; inversion H|]. split; [reflexivity|].
        split; [reflexivity | rewrite Hsetup; reflexivity].
    + (* bootstrapDHT *)
      destruct Hend as [s1 Hc].
      destruct (mpc (proc n)) eqn:Hmpc.
      1-4:
        (destruct (main_step Background k (proc n)) as [p'|] eqn:Hstep; [|discriminate];
         injection H as <-;
         assert (Hstep' : step Background h k MainStep (proc n) = Some p')
           by (unfold step; rewrite Hst; exact Hstep);
         pose proof (caused_step Background h k s1 _ _ _ Hc Hstep') as Hc';
         unfold node_ends; cbn [proc npc];
         split; [apply Hc'|]; split; [not_panicked Hpc|];
         destruct Hc' as [_ [_ [_ Hend']]];
         destruct (stat p');
         [ exists s1; apply (caused_step Background h k s1 _ _ _ Hc Hstep')
         | destruct Hend' as [H1 [_ [_ [e [_ Htr]]]]]; split; [exact H1|];
           rewrite Htr;
           change [CallBootstrap k Background; fatal e "Failed to Bootstrap the Kademlia!"]
             with ([CallBootstrap k Background]
                     ++ [fatal e "Failed to Bootstrap the Kademlia!"]);
           rewrite app_assoc; apply ends_fatally_snoc; reflexivity
         | exact Hend' ]).
      injection H as <-. unfold advance. step_B. unfold node_ends.
      cbn [proc npc stat gs]. rewrite Hst.
      split; [exact Hpan|]. split; [not_panicked Hpc | exact I].
    + injection H as <-. unfold advance. step_B.
      destruct (discoveryRouting_NewRoutingDiscovery k (world (sys (proc n))))
        as [rd w1].
      unfold node_ends. cbn [proc npc stat gs]. rewrite Hst.
      split; [exact Hpan|]. split; [not_panicked Hpc | exact I].
    + injection H as <-. unfold advance. step_B. unfold node_ends.
      cbn [proc npc stat gs]. rewrite Hst.
      split; [exact Hpan|]. split; [not_panicked Hpc | exact I].
    + injection H as <-. unfold advance. rewrite setupPubSub_run. cbv zeta.
      destruct (pubsub_NewGossipSub Background h _ (world (sys (proc n))))
        as [[ps [e|]] w1]; cbn [fst snd]; unfold node_ends;
        cbn [proc npc stat gs sys trace]; rewrite ?Hst.
      * split; [exact Hpan|]. split; [not_panicked Hpc|].
        split; [reflexivity|]. apply ends_fatally_snoc. reflexivity.
      * split; [exact Hpan|]. split; [not_panicked Hpc | exact I].
    + injection H as <-. unfold advance. step_B. unfold node_ends.
      cbn [proc npc stat gs]. rewrite Hst.
      split; [exact Hpan|]. split; [not_panicked Hpc | exact I].
    + injection H as <-. unfold node_ends. cbn [proc npc]. rewrite Hst.
      split; [exact Hpan|]. split; [not_panicked Hpc | exact I].
  - (* a goroutine of bootstrapDHT *)
    destruct (host_of (npc n)) as [nodehost|] eqn:Hhost; [|discriminate].
    destruct (go_step Background nodehost i (proc n)) as [p'|] eqn:Hstep; [|discriminate].
    injection H as <-.
    destruct (go_step_panics Background nodehost i _ _ Hstep) as [Hmpc [Hex Hstat]].
    unfold node_ends. cbn [proc npc].
    split; [intros Hp; apply Hpan, Hex, Hp|].
    destruct (npc n) as [|h k|h k|h k rd|h k rd|h k rd ps|h k rd ps|p2p|v] eqn:Hpc;
      cbn [host_of] in Hhost; try discriminate;
      (split; [not_panicked Hpc|]);
      destruct (stat p') eqn:Hst'; try contradiction; try exact I; try exact Hstat.
    injection Hhost as <-. destruct Hend as [s1 Hc]. exists s1.
    apply (caused_step Background h k s1 (GoStep i) (proc n)); [exact Hc|].
    unfold step. rewrite Hst. exact Hstep.
Qed.

Lemma node_ends_run (sched : list action) :
  forall n n' : @node World,
    node_ends nodeHostIP nodeHostPort s n ->
    NewP2P_run serviceName nodeHostIP nodeHostPort sched n = Some n' ->
    node_ends nodeHostIP nodeHostPort s n'.
Proof.
  induction sched as [|a sched IH]; intros n n' Hok H; cbn [NewP2P_run] in H.
  - injection H as <-. exact Hok.
  - destruct (NewP2P_step serviceName nodeHostIP nodeHostPort a n) as [n1|] eqn:Hstep;
      [|discriminate].
    eapply IH; [|exact H]. eapply node_ends_step; eassumption.
Qed.

(** X14.  During and after [NewP2P] the process ends only for a cause, on
    any network.  It has exited only with status 1 and after a fatal
    entry, the last of the trace.  It has crashed only because a
    goroutine of [bootstrapDHT] dereferenced a nil [peerinfo], so only
    if some bootstrap address has no address info.  And [NewP2P] has
    panicked only with the panic of [setupHost], before any goroutine
    was started. *)
Theorem NewP2P_ends_the_process_only_for_a_cause
        (sched : list action) (n : @node World) :
  NewP2P serviceName nodeHostIP nodeHostPort sched s = Some n ->
  (forall code,
      stat (proc n) = Exited code ->
      code = 1 /\ ends_fatally (trace (sys (proc n)))) /\
  (stat (proc n) = Crashed ->
   Exists (fun g => g = GAborting) (gs (proc n)) /\
   Exists unparsed dht_DefaultBootstrapPeers) /\
  (forall v,
      npc n = NPanicked v ->
      stat (proc n) = Running /\ gs (proc n) = [] /\
      fst (setupHost Background nodeHostIP nodeHostPort s) = Panics v).
Proof.
  intros Hrun. unfold NewP2P in Hrun.
  destruct (node_ends_run sched _ _ node_ends_start Hrun) as [Hpan [Hv Hend]].
  split.
  { intros code Hc. rewrite Hc in Hend. exact Hend. }
  split.
  { intros Hc. rewrite Hc in Hend. split; [exact Hend|].
    apply Hpan, aborting_panics, Hend. }
  intros v Hpc. pose proof (Hv v Hpc) as Hst. rewrite Hst, Hpc in Hend.
  split; [exact Hst | exact Hend].
Qed.

End NodeCauses.

(* ================================================================= *)
(** ** Known answers *)

Example Sum256_abc :
  hex_of_bytes (SHA256.Sum256 (bytes_of_string "abc")) =
  "ba7816bf8f01cfea414140de5dae2223b00361a396177a9cb410ff61f20015ad"%string.
Proof. vm_compute. reflexivity. Qed.

Example Sum256_empty :
  hex_of_bytes (SHA256.Sum256 (bytes_of_string "")) =
  "e3b0c44298fc1c149afbf4c8996fb92427ae41e4649b934ca495991b7852b855"%string.
Proof. vm_compute. reflexivity. Qed.

Example Sum256_two_blocks :
  hex_of_bytes
    (SHA256.Sum256
       (bytes_of_string "abcdbcdecdefdefgefghfghighijhijkijkljklmklmnlmnomnopnopq")) =
  "248d6a61d20638b8e5c026930c3e6039a33ce45964ff2167f6ecedd419db06c1"%string.
Proof. vm_compute. reflexivity. Qed.

Example Encode_hello :
  Base58.Encode (bytes_of_string "Hello World!") = "2NEpo7TZRRrLZSi2U"%string.
Proof. vm_compute. reflexivity. Qed.

Example Encode_leading_zeros :
  Base58.Encode [0; 0; 0x28; 0x7f; 0xb4; 0xcd] = "11233QC4"%string.
Proof. vm_compute. reflexivity. Qed.

Example Decode_invalid_digit :
  Base58.Decode "2NEpo7TZRRrLZSi0U" = Err "invalid base58 digit"%string.
Proof. vm_compute. reflexivity. Qed.

Example generateCID_icefiredb :
  fst (generateCID "icefiredb" Scenario.boot) =
  Done (Cid.mkCid
          (1 :: 12 :: 0x12 :: 0x20 :: SHA256.Sum256 (bytes_of_string "icefiredb"))).
Proof. vm_compute. reflexivity. Qed.

(* ================================================================= *)
(** ** The claims on the simulated network *)

(** C3.  With a bootstrap address that has no [/p2p] component,
    [AddrInfoFromP2pAddr] returns the nil pointer, the goroutine started
    for it dereferences it, and the process crashes: the entry is not
    skipped. *)
Theorem bootstrapDHT_malformed_peer_crashes :
  peer_AddrInfoFromP2pAddr (Libp2p := Sim.net Scenario.one_malformed)
    Scenario.malformed = None /\
  exists p,
    bootstrapDHT (net := Sim.net Scenario.one_malformed) Background
      (Host Scenario.node) (KadDHT Scenario.node)
      [MainStep; MainStep; MainStep; GoStep 0; GoStep 0; GoStep 0] Scenario.boot
    = Some p /\
    stat p = Crashed /\
    gs p = [GAborting] /\
    connect_targets (trace (sys p)) = [].
Proof.
  split; [reflexivity|].
  eexists. split; [vm_compute; reflexivity|].
  repeat split; reflexivity.
Qed.




Lemma handlePeerDiscovery_consumes_until_closed_witness :
  let t := handlePeerDiscovery (net := Sim.net Scenario.healthy) (Host Scenario.node)
             [ Send Scenario.peerB; Send Scenario.peerSelf; Receive;
               Send Scenario.peerA; Receive; Receive; Close; Receive ]
             Scenario.boot in
  tpc t = Returned /\ closed (peerchan t) = true /\ pending (peerchan t) = [].
Proof.
  cbv zeta.
  refine (let H := eq_refl in conj H _).
  destruct (handlePeerDiscovery_consumes_until_closed
              (net := Sim.net Scenario.healthy) (Host Scenario.node)
              [ Send Scenario.peerB; Send Scenario.peerSelf; Receive;
                Send Scenario.peerA; Receive; Receive; Close; Receive ]
              Scenario.boot) as [_ [Hret _]].
  exact (Hret H).
Defined.

Lemma bootstrapDHT_reports_attempted_and_succeeded_witness :
  Forall (parses (net := Sim.net Scenario.healthy)) [Scenario.addrA; Scenario.addrB] /\
  Z.of_nat 2 < 2 ^ 31 /\
  fst (dht_Bootstrap (Libp2p := Sim.net Scenario.healthy)
         (KadDHT Scenario.node) Background 0%nat) = None /\
  exists p,
    bootstrapDHT (net := Sim.net Scenario.healthy) Background
      (Host Scenario.node) (KadDHT Scenario.node)
      [ MainStep; MainStep; MainStep; MainStep; GoStep 1; GoStep 0; GoStep 0;
        GoStep 1; GoStep 0; GoStep 1; MainStep; MainStep ] Scenario.boot = Some p /\
    exists added,
      trace (sys p) = added /\
      attempts added = 2 /\
      exists tr, added = tr ++ [report (successes added) 2].
Proof.
  assert (H1 : Forall (parses (net := Sim.net Scenario.healthy))
                 [Scenario.addrA; Scenario.addrB])
    by (repeat constructor; discriminate).
  assert (H2 : Z.of_nat 2 < 2 ^ 31) by reflexivity.
  assert (H3 : fst (dht_Bootstrap (Libp2p := Sim.net Scenario.healthy)
                      (KadDHT Scenario.node) Background 0%nat) = None)
    by reflexivity.
  split; [exact H1|]. split; [exact H2|]. split; [exact H3|].
  destruct (bootstrapDHT_reports_attempted_and_succeeded
              (net := Sim.net Scenario.healthy) Background
              (Host Scenario.node) (KadDHT Scenario.node) Scenario.boot H1 H2 H3)
    as [Hall _].
  eexists. split; [vm_compute; reflexivity|].
  match goal with
  | |- exists added, trace (sys ?p) = added /\ _ =>
      destruct (Hall [ MainStep; MainStep; MainStep; MainStep; GoStep 1; GoStep 0;
                       GoStep 0; GoStep 1; GoStep 0; GoStep 1; MainStep; MainStep ]
                  p) as [_ [_ [_ Hret]]]; [vm_compute; reflexivity|];
      destruct (Hret eq_refl) as [added [Htr [_ [_ [Hatt Hrep]]]]]
  end.
  exists added. split; [exact Htr|]. split; [exact Hatt | exact Hrep].
Defined.

(* ================================================================= *)
(** ** The further properties on the simulated network *)

Lemma bootstrapDHT_connects_once_to_each_parsed_peer_witness :
  exists p,
    bootstrapDHT (net := Sim.net Scenario.healthy) Background
      (Host Scenario.node) (KadDHT Scenario.node) Schedule.two_peers Scenario.boot
    = Some p /\
    mpc p = PReturned /\
    Permutation (connect_targets (trace (sys p)))
      (parsed (net := Sim.net Scenario.healthy) [Scenario.addrA; Scenario.addrB]).
Proof.
  eexists. split; [vm_compute; reflexivity|].
  split; [reflexivity|].
  match goal with
  | |- Permutation (connect_targets (trace (sys ?p))) _ =>
      destruct (bootstrapDHT_connects_once_to_each_parsed_peer
                  (net := Sim.net Scenario.healthy) Background
                  (Host Scenario.node) (KadDHT Scenario.node) Scenario.boot
                  Schedule.two_peers p) as [added [Htr [_ [_ [_ Hret]]]]];
        [vm_compute; reflexivity|];
      cbn [Scenario.boot trace app] in Htr; rewrite Htr; exact (Hret eq_refl)
  end.
Defined.

Lemma bootstrapDHT_waits_for_every_goroutine_witness :
  exists p,
    bootstrapDHT (net := Sim.net Scenario.healthy) Background
      (Host Scenario.node) (KadDHT Scenario.node) Schedule.two_peers Scenario.boot
    = Some p /\
    wg p = 0 /\ Forall (fun g => g = GExited \/ g = GAborting) (gs p).
Proof.
  eexists. split; [vm_compute; reflexivity|].
  split; [reflexivity|].
  match goal with
  | |- Forall _ (gs ?p) =>
      destruct (bootstrapDHT_waits_for_every_goroutine
                  (net := Sim.net Scenario.healthy) Background
                  (Host Scenario.node) (KadDHT Scenario.node) Scenario.boot
                  Schedule.two_peers p) as [_ [_ Hdone]];
        [vm_compute; reflexivity|];
      exact (proj2 (Hdone (or_intror eq_refl)))
  end.
Defined.

Lemma bootstrapDHT_logs_no_Connect_error_witness :
  exists p,
    bootstrapDHT (net := Sim.net Scenario.healthy) Background
      (Host Scenario.node) (KadDHT Scenario.node) Schedule.two_peers Scenario.boot
    = Some p /\
    In (CallConnect (Host Scenario.node) Background
          (peer.mkAddrInfo "QmB"%string
             [[("ip4", "104.236.179.241"); ("tcp", "4001")]%string])
          (Some "dial backoff"%string))
       (trace (sys p)) /\
    ~ failure_logged "dial backoff"%string (trace (sys p)).
Proof.
  eexists. split; [vm_compute; reflexivity|].
  split; [cbn [trace sys In]; repeat (first [left; reflexivity | right])|].
  match goal with
  | |- ~ failure_logged _ (trace (sys ?p)) =>
      destruct (bootstrapDHT_logs_no_Connect_error
                  (net := Sim.net Scenario.healthy) Background
                  (Host Scenario.node) (KadDHT Scenario.node) Scenario.boot
                  Schedule.two_peers p) as [added [Htr [_ Hnone]]];
        [vm_compute; reflexivity|];
      cbn [Scenario.boot trace app] in Htr; rewrite Htr; exact (Hnone eq_refl _)
  end.
Defined.

Lemma bootstrapDHT_unparsed_address_always_crashes_witness :
  fst (dht_Bootstrap (Libp2p := Sim.net Scenario.one_malformed)
         (KadDHT Scenario.node) Background 0%nat) = None /\
  Exists (fun m => peer_AddrInfoFromP2pAddr (Libp2p := Sim.net Scenario.one_malformed) m
                   = None) [Scenario.malformed] /\
  exists p,
    bootstrapDHT (net := Sim.net Scenario.one_malformed) Background
      (Host Scenario.node) (KadDHT Scenario.node) Schedule.nil_peerinfo Scenario.boot
    = Some p /\
    stat p = Crashed.
Proof.
  assert (H1 : fst (dht_Bootstrap (Libp2p := Sim.net Scenario.one_malformed)
                      (KadDHT Scenario.node) Background 0%nat) = None)
    by reflexivity.
  assert (H2 : Exists (fun m => peer_AddrInfoFromP2pAddr
                                  (Libp2p := Sim.net Scenario.one_malformed) m = None)
                 [Scenario.malformed])
    by (apply Exists_cons_hd; reflexivity).
  split; [exact H1|]. split; [exact H2|].
  eexists. split; [vm_compute; reflexivity|].
  match goal with
  | |- stat ?p = Crashed =>
      destruct (bootstrapDHT_unparsed_address_always_crashes
                  (net := Sim.net Scenario.one_malformed) Background
                  (Host Scenario.node) (KadDHT Scenario.node) Scenario.boot H1 H2
                  Schedule.nil_peerinfo p) as [_ [_ [_ Hstuck]]];
        [vm_compute; reflexivity|];
      apply Hstuck; intros [|i]; reflexivity
  end.
Defined.

Lemma bootstrapDHT_ends_the_process_only_for_a_cause_witness :
  exists p,
    bootstrapDHT (net := Sim.net Scenario.one_malformed) Background
      (Host Scenario.node) (KadDHT Scenario.node) Schedule.nil_peerinfo Scenario.boot
    = Some p /\
    stat p = Crashed /\
    Exists (unparsed (net := Sim.net Scenario.one_malformed)) [Scenario.malformed].
Proof.
  eexists. split; [vm_compute; reflexivity|].
  match goal with
  | |- stat ?p = Crashed /\ _ =>
      destruct (bootstrapDHT_ends_the_process_only_for_a_cause
                  (net := Sim.net Scenario.one_malformed) Background
                  (Host Scenario.node) (KadDHT Scenario.node) Scenario.boot
                  Schedule.nil_peerinfo p) as [_ Hcrash];
        [vm_compute; reflexivity|];
      split; [reflexivity | exact (proj2 (Hcrash eq_refl))]
  end.
Defined.

Lemma setupKadDHT_returns_no_error_witness :
  fst (setupKadDHT (lib := SimNode.lib NodeScenario.no_table)
         Background NodeScenario.basic Scenario.boot) = Exits 1.
Proof.
  destruct (setupKadDHT_returns_no_error (lib := SimNode.lib NodeScenario.no_table)
              Background NodeScenario.basic Scenario.boot) as [_ [_ [_ Hfail]]].
  exact (Hfail "datastore closed"%string eq_refl).
Defined.

Lemma setupHost_exits_or_panics_witness :
  fst (setupHost (lib := SimNode.lib NodeScenario.no_manager)
         Background "0.0.0.0" 4001 Scenario.boot)
  = Panics "high water must be positive"%string /\
  trace (snd (setupHost (lib := SimNode.lib NodeScenario.no_manager)
                Background "0.0.0.0" 4001 Scenario.boot)) = [].
Proof.
  destruct (setupHost_exits_or_panics (lib := SimNode.lib NodeScenario.no_manager)
              Background "0.0.0.0" 4001 Scenario.boot) as [_ [Hmgr _]].
  rewrite (Hmgr "high water must be positive"%string eq_refl eq_refl).
  split; reflexivity.
Defined.

Lemma NewP2P_returns_a_node_on_the_background_context_witness :
  exists n p2p,
    NewP2P (net := Sim.net Scenario.healthy) (lib := SimNode.lib NodeScenario.healthy)
      "icefiredb" "0.0.0.0" 4001 Schedule.new_node Scenario.boot = Some n /\
    npc n = NReturned p2p /\
    Ctx p2p = Background /\ service p2p = "icefiredb"%string.
Proof.
  eexists. eexists.
  match goal with
  | |- ?run = Some ?n /\ npc _ = NReturned ?p2p /\ _ =>
      assert (Hrun : run = Some n) by (vm_compute; reflexivity);
      assert (Hpc : npc n = NReturned p2p) by reflexivity;
      destruct (NewP2P_returns_a_node_on_the_background_context
                  (net := Sim.net Scenario.healthy)
                  (lib := SimNode.lib NodeScenario.healthy)
                  "icefiredb" "0.0.0.0" 4001 Scenario.boot
                  Schedule.new_node n p2p Hrun Hpc) as [Hctx [Hname _]];
      split; [exact Hrun|]; split; [exact Hpc|]; split; [exact Hctx | exact Hname]
  end.
Defined.

Lemma NewP2P_returns_or_exits_in_setupPubSub_witness :
  let head :=
    NewP2P_head (lib := SimNode.lib NodeScenario.healthy) "0.0.0.0" 4001 Scenario.boot in
  fst head = Returns (Host Scenario.node, KadDHT Scenario.node) /\
  fst (dht_Bootstrap (Libp2p := Sim.net Scenario.healthy)
         (KadDHT Scenario.node) Background (world (snd head))) = None /\
  Forall (parses (net := Sim.net Scenario.healthy)) [Scenario.addrA; Scenario.addrB] /\
  Z.of_nat 2 < 2 ^ 31 /\
  exists n,
    NewP2P (net := Sim.net Scenario.healthy) (lib := SimNode.lib NodeScenario.healthy)
      "icefiredb" "0.0.0.0" 4001 Schedule.new_node Scenario.boot = Some n /\
    stat (proc n) = Running /\
    Forall (fun g => g = GExited) (gs (proc n)).
Proof.
  cbv zeta.
  assert (H0 : NewP2P_head (lib := SimNode.lib NodeScenario.healthy) "0.0.0.0" 4001 Scenario.boot
               = (Returns (Host Scenario.node, KadDHT Scenario.node),
                  snd (NewP2P_head (lib := SimNode.lib NodeScenario.healthy)
                         "0.0.0.0" 4001 Scenario.boot)))
    by (vm_compute; reflexivity).
  assert (H1 : fst (dht_Bootstrap (Libp2p := Sim.net Scenario.healthy)
                      (KadDHT Scenario.node) Background
                      (world (snd (NewP2P_head (lib := SimNode.lib NodeScenario.healthy)
                                     "0.0.0.0" 4001 Scenario.boot)))) = None)
    by reflexivity.
  assert (H2 : Forall (parses (net := Sim.net Scenario.healthy))
                 [Scenario.addrA; Scenario.addrB])
    by (repeat constructor; discriminate).
  assert (H3 : Z.of_nat 2 < 2 ^ 31) by reflexivity.
  split; [rewrite H0; reflexivity|].
  split; [exact H1|]. split; [exact H2|]. split; [exact H3|].
  eexists.
  match goal with
  | |- ?run = Some ?n /\ _ =>
      assert (Hrun : run = Some n) by (vm_compute; reflexivity);
      destruct (NewP2P_returns_or_exits_in_setupPubSub
                  (net := Sim.net Scenario.healthy)
                  (lib := SimNode.lib NodeScenario.healthy)
                  "icefiredb" "0.0.0.0" 4001 Scenario.boot _
                  (Host Scenario.node) (KadDHT Scenario.node) H0 H1 H2 H3
                  Schedule.new_node n Hrun) as [_ [_ [_ [_ [_ Hret]]]]];
      destruct (Hret _ eq_refl) as [Hst [_ [_ Hgs]]];
      split; [exact Hrun|]; split; [exact Hst | exact Hgs]
  end.
Defined.

Lemma NewP2P_ends_the_process_only_for_a_cause_witness :
  exists n,
    NewP2P (net := Sim.net Scenario.healthy) (lib := SimNode.lib NodeScenario.no_table)
      "icefiredb" "0.0.0.0" 4001 [MainStep] Scenario.boot = Some n /\
    stat (proc n) = Exited 1 /\
    ends_fatally (trace (sys (proc n))).
Proof.
  eexists.
  match goal with
  | |- ?run = Some ?n /\ _ =>
      assert (Hrun : run = Some n) by (vm_compute; reflexivity);
      destruct (NewP2P_ends_the_process_only_for_a_cause
                  (net := Sim.net Scenario.healthy)
                  (lib := SimNode.lib NodeScenario.no_table)
                  "icefiredb" "0.0.0.0" 4001 Scenario.boot [MainStep] n Hrun)
        as [Hexit _];
      split; [exact Hrun|]; split; [reflexivity | exact (proj2 (Hexit 1 eq_refl))]
  end.
Defined.
